(** * node-ios-device: the device registry, its notification coordinator
      and the syslog line splitter of [src/ios-device.cpp]

    The development embeds the C++ source shallowly:

    - [LogSocketCallback] (the syslog line splitter) is a function on byte
      lists that works on the same local variables as the source ([buffer],
      [length], [str], [i], [j]);
    - the functions that touch the global registry ([getDeviceInfo],
      [on_device_notification], [pump_run_loop], [devices], [log],
      [cleanup]) are written once as instruction sequences ([Prog]) over the
      module's globals; the same text is given an uninterrupted semantics
      ([exec]) and an interleaving semantics ([step], [run]) in which the
      two mutexes and the condition variable of the source are explicit;
    - [installApp] is written in the same way, with the two calls that
      copy and install the application as further parameters. *)

From Stdlib Require Import ZArith Lia.
From Stdlib Require Import Strings.Byte.
From stdpp Require Import base option list strings gmap.

Local Open Scope Z_scope.

(* ===================================================================== *)
(** * Part I: the syslog line splitter                                    *)
(* ===================================================================== *)

(** ** Bytes *)

(** ['\0'] and ['\n'] *)
Definition NUL : byte := x00.
Definition LF : byte := x0a.

Definition is_nul (c : byte) : bool := Byte.eqb c NUL.

(** [c == '\n' || c == '\0'] *)
Definition is_terminator (c : byte) : bool := Byte.eqb c LF || Byte.eqb c NUL.

(** [new char[n]]: the array is not initialised; its content is whatever
    the allocator left there, here an arbitrary function of the index. *)
Definition new_char_array (junk : nat → byte) (n : nat) : list byte :=
  map junk (seq 0 n).

(** Reading a [char*] as a C string, as [Nan::New(str)] does: the bytes
    before the first ['\0']. *)
Fixpoint c_str (str : list byte) : list byte :=
  match str with
  | [] => []
  | c :: rest => if is_nul c then [] else c :: c_str rest
  end.

(** ** The loops of [LogSocketCallback] *)

(** The leading loop
<<
    while ( *buffer == '\0') { buffer++; length--; if (length == 0) return; }
>>
    on the unread bytes [buffer[0 .. length)].  [None] is the [return]
    inside the loop; [Some b] is the buffer the loop exits with. *)
Fixpoint skip_nul (buffer : list byte) : option (list byte) :=
  match buffer with
  | [] => Some []
  | c :: rest =>
      if is_nul c then
        match rest with
        | [] => None
        | _ :: _ => skip_nul rest
        end
      else Some buffer
  end.

(** The inner loop
<<
    while (i < length) {
      c = str[j] = buffer[i++];
      if (c == '\n' || c == '\0') {
        str[j] = '\0';
        if (j > 0) { callback(str); }
        j = 0;
        if (c == '\0') break;
      } else { ++j; }
    }
>>
    [rest] is [buffer[i .. length)]; the result is the final [i], the array
    [str] and the arguments the callback has been called with so far. *)
Fixpoint scan (rest : list byte) (i j : nat) (str : list byte)
    (calls : list (list byte)) : nat * list byte * list (list byte) :=
  match rest with
  | [] => (i, str, calls)
  | c :: rest' =>
      let str := <[j := c]> str in
      let i := S i in
      if is_terminator c then
        let str := <[j := NUL]> str in
        let calls := if (0 <? j)%nat then calls ++ [c_str str] else calls in
        if is_nul c then (i, str, calls)
        else scan rest' i 0%nat str calls
      else scan rest' i (S j) str calls
  end.

(** The outer loop [while (length) { ...; length -= i; buffer += i; }].
    Each round consumes at least one byte; [fuel] bounds the number of
    rounds and [None] means the bound was too small. *)
Fixpoint split_loop (fuel : nat) (buffer : list byte) (str : list byte)
    (calls : list (list byte)) : option (list (list byte)) :=
  match fuel with
  | O => None
  | S fuel =>
      match buffer with
      | [] => Some calls
      | _ :: _ =>
          match skip_nul buffer with
          | None => Some calls
          | Some buffer =>
              let '(i, str, calls) := scan buffer 0 0 str calls in
              split_loop fuel (drop i buffer) str calls
          end
      end
  end.

(** [LogSocketCallback]: the arguments of the calls of the host callback,
    in order, for one [CFData] chunk. *)
Definition LogSocketCallback (junk : nat → byte) (data : list byte)
    : option (list (list byte)) :=
  let length := length data in
  let str := new_char_array junk (length + 1) in
  split_loop (S length) data str [].

(** The socket callback keeps nothing between two calls ([str], [i] and
    [j] are locals and [Device] has no buffer field): a stream of chunks
    is handled chunk by chunk. *)
Fixpoint deliver_chunks (junk : nat → byte) (chunks : list (list byte))
    : option (list (list byte)) :=
  match chunks with
  | [] => Some []
  | chunk :: chunks =>
      match LogSocketCallback junk chunk, deliver_chunks junk chunks with
      | Some l1, Some l2 => Some (l1 ++ l2)
      | _, _ => None
      end
  end.

(** ** What the splitter computes, in the words of the specification *)

(** The complete lines of a chunk: the maximal runs of bytes that are
    closed by a newline or a null byte, empty runs left out.  [cur] is the
    run read so far, last byte first. *)
Fixpoint complete_lines_from (cur : list byte) (data : list byte)
    : list (list byte) :=
  match data with
  | [] => []
  | c :: rest =>
      if is_terminator c then
        match cur with
        | [] => complete_lines_from [] rest
        | _ :: _ => rev cur :: complete_lines_from [] rest
        end
      else complete_lines_from (c :: cur) rest
  end.

Definition complete_lines (data : list byte) : list (list byte) :=
  complete_lines_from [] data.

(** A chunk read as a sequence of terminated segments followed by an
    unterminated tail.  A segment is a pair of a terminator-free run and
    the terminator that closes it. *)
Definition plain (l : list byte) : Prop :=
  Forall (λ c, is_terminator c = false) l.

Definition segment_ok (s : list byte * byte) : Prop :=
  plain s.1 ∧ is_terminator s.2 = true.

Definition flatten (segs : list (list byte * byte)) : list byte :=
  flat_map (λ s, s.1 ++ [s.2]) segs.

Definition nonempty_lines (segs : list (list byte * byte))
    : list (list byte) :=
  flat_map (λ s, match s.1 with [] => [] | _ :: _ => [s.1] end) segs.

(** The reading of "a null byte terminates processing of the current
    chunk": nothing that follows a null byte in a chunk has any effect. *)
Definition null_byte_ends_chunk : Prop :=
  ∀ junk pre post,
    LogSocketCallback junk (pre ++ NUL :: post)
    = LogSocketCallback junk (pre ++ [NUL]).

(** The chunks of the specification's examples. *)
Definition chunk_abc_def : list byte :=
  [x61; x62; x63; x0a; x64; x65; x66; x00].
Definition chunk_hello : list byte :=
  [x00; x00; x68; x65; x6c; x6c; x6f; x00].
Definition chunk_a_nul_b : list byte := [x61; x00; x62; x0a].

Definition zero_junk : nat → byte := λ _, x00.
Definition ff_junk : nat → byte := λ _, xff.

(* ===================================================================== *)
(** * Part II: the device registry and the notification coordinator       *)
(* ===================================================================== *)

(** ** Names of things *)

(** [am_device]: the native handle of MobileDevice, opaque to the module.
    [ptr]: the address of a [Device] object.  [resource]: the address of a
    [Listener], a [CFSocketRef] or a [CFRunLoopSourceRef]. *)
Abbreviation am_device := nat (only parsing).
Abbreviation ptr := nat (only parsing).
Abbreviation tid := nat (only parsing).
Abbreviation resource := nat (only parsing).

(** Arguments and results of the exported JavaScript functions. *)
Inductive JsValue :=
| JsUndefined
| JsString (s : string)
| JsNumber (n : Z)
| JsFunction (f : nat)
| JsObject (o : nat).

(** [std::runtime_error]: the fixed messages are kept; where the source
    formats a result code into the message with [boost::format], the
    format and the code are kept.  [what_service name reason rval] stands
    for the three messages of [Device::startService], which quote the
    service name, give a reason and end with the code. *)
Inductive runtime_error :=
| what (message : string)
| what_code (format : string) (rval : Z)
| what_service (serviceName : string) (reason : string) (rval : Z).

(** The argument of [Nan::ThrowError(Exception::Error(...))]. *)
Inductive js_error :=
| Error (message : string)
| Error_printf (format : string) (arg : string)
| Error_what (e : runtime_error).

(** Calls into MobileDevice. *)
Inductive AMCall :=
| AMDeviceConnect (h : am_device)
| AMDeviceIsPaired (h : am_device)
| AMDevicePair (h : am_device)
| AMDeviceValidatePairing (h : am_device)
| AMDeviceStartSession (h : am_device)
| AMDeviceStopSession (h : am_device)
| AMDeviceDisconnect (h : am_device)
| AMDeviceStartService (h : am_device) (serviceName : string)
| AMDeviceCopyValue (h : am_device) (key : string).

(** What [emitter.emit] is called with: ["debug"] with a message (the
    [printf] format and its arguments), or ["devicesChanged"] alone. *)
Inductive PrintfArg := arg_s (s : string) | arg_d (n : Z).
Inductive Emitted :=
| debug_event (format : string) (args : list PrintfArg)
| devicesChanged_event.

Inductive Released :=
| delete_Listener (r : resource)
| CFRelease (r : resource)
| delete_Device (p : ptr).

Inductive Outcome :=
| returned_undefined
| returned_array (objects : list (gmap string string))
| threw (e : js_error).

(** What the module does to the world outside of it, in the order in
    which it does it. *)
Inductive Event :=
| EvCall (c : AMCall)
| EvEmit (e : Emitted)
| EvRelease (r : Released)
| EvAddSource (source : resource)
| EvOutcome (o : Outcome).

(** ** MobileDevice and CoreFoundation

    [mobiledevice.h] and the libraries behind it are not part of the
    sources.  The result codes, the notification codes and the service
    name the source refers to are parameters, and so is the behaviour of
    the library: what a call answers may depend on everything that has
    happened so far ([trace]).  [AMDeviceCopyValue] is read at the type
    the source casts its result to: a string that may be missing for
    [Device::set], a number for ["HostAttached"]. *)
Class MobileDevice := {
  MDERR_OK : Z;
  MDERR_SYSCALL : Z;
  MDERR_QUERY_FAILED : Z;
  MDERR_INVALID_ARGUMENT : Z;
  MDERR_DICT_NOT_LOADED : Z;
  ADNCI_MSG_CONNECTED : Z;
  ADNCI_MSG_DISCONNECTED : Z;
  AMSVC_SYSLOG_RELAY : string;
  AMDeviceCopyDeviceIdentifier : am_device → string;
  am_result : list Event → AMCall → Z;
  am_string : list Event → am_device → string → option string;
  am_number : list Event → am_device → string → Z;
  am_service_conn : list Event → am_device → string → Z;
  CFSocketCreateWithNative : list Event → Z → bool;
  CFSocketCreateRunLoopSource : list Event → resource → bool
}.

(** ** The data of the module *)

(** [class Device].  [connected] is an [int]; the model does not bound
    it.  [logConnection] has no initialiser. *)
Record Device := mkDevice {
  handle : am_device;
  props : gmap string string;
  connected : Z;
  udid : string;
  hostConnected : bool;
  logConnection : option Z;
  logSocket : option resource;
  logSource : option resource;
  logCallback : option resource
}.

(** The globals of the file, the [Device] objects made by [new], the two
    allocation counters and the events so far. *)
Record Globals := mkGlobals {
  connectedDevices : gmap string ptr;
  emitter : option nat;
  pendingEvents : Z;
  devicesChanged : bool;
  heap : gmap ptr Device;
  next_ptr : ptr;
  next_resource : resource;
  trace : list Event
}.

Definition set_connectedDevices (m : gmap string ptr) (g : Globals) :=
  mkGlobals m (emitter g) (pendingEvents g) (devicesChanged g) (heap g)
    (next_ptr g) (next_resource g) (trace g).
Definition set_emitter (e : option nat) (g : Globals) :=
  mkGlobals (connectedDevices g) e (pendingEvents g) (devicesChanged g)
    (heap g) (next_ptr g) (next_resource g) (trace g).
Definition set_pendingEvents (n : Z) (g : Globals) :=
  mkGlobals (connectedDevices g) (emitter g) n (devicesChanged g) (heap g)
    (next_ptr g) (next_resource g) (trace g).
Definition set_devicesChanged (b : bool) (g : Globals) :=
  mkGlobals (connectedDevices g) (emitter g) (pendingEvents g) b (heap g)
    (next_ptr g) (next_resource g) (trace g).
Definition set_heap (h : gmap ptr Device) (g : Globals) :=
  mkGlobals (connectedDevices g) (emitter g) (pendingEvents g)
    (devicesChanged g) h (next_ptr g) (next_resource g) (trace g).
Definition set_next_ptr (p : ptr) (g : Globals) :=
  mkGlobals (connectedDevices g) (emitter g) (pendingEvents g)
    (devicesChanged g) (heap g) p (next_resource g) (trace g).
Definition set_next_resource (r : resource) (g : Globals) :=
  mkGlobals (connectedDevices g) (emitter g) (pendingEvents g)
    (devicesChanged g) (heap g) (next_ptr g) r (trace g).
Definition observe (e : Event) (g : Globals) :=
  mkGlobals (connectedDevices g) (emitter g) (pendingEvents g)
    (devicesChanged g) (heap g) (next_ptr g) (next_resource g)
    (trace g ++ [e]).

Definition set_props (m : gmap string string) (d : Device) :=
  mkDevice (handle d) m (connected d) (udid d) (hostConnected d)
    (logConnection d) (logSocket d) (logSource d) (logCallback d).
Definition set_connected (n : Z) (d : Device) :=
  mkDevice (handle d) (props d) n (udid d) (hostConnected d)
    (logConnection d) (logSocket d) (logSource d) (logCallback d).
Definition set_hostConnected (b : bool) (d : Device) :=
  mkDevice (handle d) (props d) (connected d) (udid d) b
    (logConnection d) (logSocket d) (logSource d) (logCallback d).
Definition set_log (conn : Z) (socket source callback : resource)
    (d : Device) :=
  mkDevice (handle d) (props d) (connected d) (udid d) (hostConnected d)
    (Some conn) (Some socket) (Some source) (Some callback).

(** [*device]: the object at an address.  Reading through the address of
    an object that has been deleted is undefined in the source; the model
    reads a blank object there and writes nothing. *)
Definition blank_Device : Device :=
  mkDevice 0%nat ∅ 0 "" false None None None None.
Definition deref (g : Globals) (device : ptr) : Device :=
  default blank_Device (heap g !! device).
Definition update (device : ptr) (f : Device → Device) (g : Globals) :=
  set_heap (alter f device (heap g)) g.

(** ** Instructions

    A function of the source is a sequence of instructions, each of which
    happens at once: a statement on the globals ([Atomic], which may hand
    a value to the rest of the function), a call into MobileDevice that
    goes to the device ([Call], [CopyString], [CopyNumber]), an operation
    on [deviceMutex], [pendingMutex] or [pendingCond] ([Sync]), the start
    of a detached thread ([Spawn]), a [throw]. *)
Inductive SyncOp :=
| lock_shared               (* boost::shared_lock on deviceMutex *)
| unlock_shared
| lock_upgrade              (* boost::upgrade_lock on deviceMutex *)
| unlock_upgrade_and_lock   (* boost::upgrade_to_unique_lock *)
| unlock_and_lock_upgrade   (* ... and its destructor *)
| unlock_upgrade
| lock_pending              (* std::unique_lock on pendingMutex *)
| unlock_pending
| wait_pending              (* pendingCond.wait(mlock) *)
| notify_one.               (* pendingCond.notify_one() *)

Inductive Prog : Type :=
| Ret : Prog
| Throw (e : runtime_error) : Prog
| Atomic {A : Type} (f : Globals → A * Globals) (k : A → Prog) : Prog
| Call (c : AMCall) (k : Z → Prog) : Prog
| CopyString (h : am_device) (key : string) (k : option string → Prog) : Prog
| CopyNumber (h : am_device) (key : string) (k : Z → Prog) : Prog
| Sync (op : SyncOp) (k : Prog) : Prog
| Spawn (p : Prog) (k : Prog) : Prog.

Definition Upd (f : Globals → Globals) (k : Prog) : Prog :=
  Atomic (λ g, (tt, f g)) (λ _, k).
Definition Get {A} (f : Globals → A) (k : A → Prog) : Prog :=
  Atomic (λ g, (f g, g)) k.

(** [p ;; q]: [q] after [p], unless [p] throws. *)
Fixpoint seq (p q : Prog) : Prog :=
  match p with
  | Ret => q
  | Throw e => Throw e
  | Atomic f k => Atomic f (λ a, seq (k a) q)
  | Call c k => Call c (λ r, seq (k r) q)
  | CopyString h key k => CopyString h key (λ r, seq (k r) q)
  | CopyNumber h key k => CopyNumber h key (λ r, seq (k r) q)
  | Sync op k => Sync op (seq k q)
  | Spawn p' k => Spawn p' (seq k q)
  end.

(** [try { p } catch (e) { handler e }] *)
Fixpoint try_catch (p : Prog) (handler : runtime_error → Prog) : Prog :=
  match p with
  | Ret => Ret
  | Throw e => handler e
  | Atomic f k => Atomic f (λ a, try_catch (k a) handler)
  | Call c k => Call c (λ r, try_catch (k r) handler)
  | CopyString h key k => CopyString h key (λ r, try_catch (k r) handler)
  | CopyNumber h key k => CopyNumber h key (λ r, try_catch (k r) handler)
  | Sync op k => Sync op (try_catch k handler)
  | Spawn p' k => Spawn p' (try_catch k handler)
  end.

Notation "p ;; q" := (seq p q) (at level 100, right associativity).

(** ** The source, function by function *)

Section Source.
Context `{MobileDevice}.

(** [debug]: emits ["debug"] when an emitter has been set. *)
Definition debug (format : string) (args : list PrintfArg) (g : Globals)
    : Globals :=
  match emitter g with
  | Some _ => observe (EvEmit (debug_event format args)) g
  | None => g
  end.

(** [std::map::operator[]]: a missing key is first given the empty
    string. *)
Definition index_props (key : string) (d : Device) : string * Device :=
  match props d !! key with
  | Some v => (v, d)
  | None => (""%string, set_props (<[key := ""%string]> (props d)) d)
  end.

(** [debug(format, device->props["udid"].c_str())] *)
Definition debug_udid (format : string) (device : ptr) (g : Globals)
    : Globals :=
  let '(s, d) := index_props "udid" (deref g device) in
  debug format [arg_s s] (update device (λ _, d) g).

(** [Device::Device(am_device& dev)] *)
Definition Device_new (dev : am_device) : Device :=
  let id := AMDeviceCopyDeviceIdentifier dev in
  mkDevice dev {[ "udid"%string := id ]} 0 id false None None None None.

(** [new Device(dev)] *)
Definition new_Device (dev : am_device) (g : Globals) : ptr * Globals :=
  let device := next_ptr g in
  (device,
   set_next_ptr (S device) (set_heap (<[device := Device_new dev]> (heap g)) g)).

(** [Device::connect], the statements after the test of the counter:
    connect, pair if need be, check the pairing, start the session. *)
Definition connect_session (h : am_device) : Prog :=
  (* connect to the device *)
  (Call (AMDeviceConnect h) (λ rval,
     if rval =? MDERR_SYSCALL then
       Throw (what "Failed to connect to device: setsockopt() failed")
     else if rval =? MDERR_QUERY_FAILED then
       Throw (what "Failed to connect to device: the daemon query failed")
     else if rval =? MDERR_INVALID_ARGUMENT then
       Throw (what "Failed to connect to device: invalid argument, USBMuxConnectByPort returned 0xffffffff")
     else if negb (rval =? MDERR_OK) then
       Throw (what_code "Failed to connect to device (0x%x)" rval)
     else Ret)) ;;
  (* if we're not paired, go ahead and pair now *)
  (Call (AMDeviceIsPaired h) (λ paired,
     if negb (paired =? 1) then
       Call (AMDevicePair h) (λ pair,
         if negb (pair =? 1) then Throw (what "Failed to pair device")
         else Ret)
     else Ret)) ;;
  (* double check the pairing *)
  (Call (AMDeviceValidatePairing h) (λ rval,
     if rval =? MDERR_INVALID_ARGUMENT then
       Throw (what "Device is not paired: the device is null")
     else if rval =? MDERR_DICT_NOT_LOADED then
       Throw (what "Device is not paired: load_dict() failed")
     else if negb (rval =? MDERR_OK) then
       Throw (what_code "Device is not paired (0x%x)" rval)
     else Ret)) ;;
  (* start the session *)
  (Call (AMDeviceStartSession h) (λ rval,
     if rval =? MDERR_INVALID_ARGUMENT then
       Throw (what "Failed to start session: the lockdown connection has not been established")
     else if rval =? MDERR_DICT_NOT_LOADED then
       Throw (what "Failed to start session: load_dict() failed")
     else if negb (rval =? MDERR_OK) then
       Throw (what_code "Failed to start session (0x%x)" rval)
     else Ret)).

(** [Device::connect]: [if (this->connected++ > 0) return;] and then the
    session. *)
Definition connect (device : ptr) : Prog :=
  Atomic (λ g, let d := deref g device in
               ((connected d, handle d),
                update device (set_connected (connected d + 1)) g))
  (λ a, if 0 <? a.1 then Ret (* already connected *)
        else connect_session a.2).

(** [Device::disconnect]: [force || --this->connected <= 0] *)
Definition disconnect (device : ptr) (force : bool) : Prog :=
  Atomic (λ g, let d := deref g device in
               if force then ((true, handle d), g)
               else ((connected d - 1 <=? 0, handle d),
                     update device (set_connected (connected d - 1)) g))
  (λ a, if a.1 then
          Upd (update device (set_connected 0))
          (Call (AMDeviceStopSession a.2) (λ _,
           Call (AMDeviceDisconnect a.2) (λ _, Ret)))
        else Ret).

(** [Device::startService]; the continuation receives [*conn]. *)
Definition startService (device : ptr) (serviceName : string)
    (k : Z → Prog) : Prog :=
  Get (λ g, (handle (deref g device), trace g)) (λ a,
  let h := a.1 in let before := a.2 in
  Call (AMDeviceStartService h serviceName) (λ rval,
    if rval =? MDERR_SYSCALL then
      Throw (what_service serviceName "due to system call error" rval)
    else if rval =? MDERR_INVALID_ARGUMENT then
      Throw (what_service serviceName "due to invalid argument" rval)
    else if negb (rval =? MDERR_OK) then
      Throw (what_service serviceName "" rval)
    else k (am_service_conn before h serviceName))).

(** [Device::set] *)
Definition set (device : ptr) (key : string) (id : string) : Prog :=
  Get (λ g, handle (deref g device)) (λ h,
  CopyString h id (λ value,
    match value with
    | Some value =>
        Upd (update device (λ d, set_props (<[key := value]> (props d)) d)) Ret
    | None => Ret
    end)).

(** [Device::~Device] and the [delete] that runs it *)
Definition release_log (d : Device) (g : Globals) : Globals :=
  let g := match logCallback d with
           | Some l => observe (EvRelease (delete_Listener l)) g
           | None => g end in
  let g := match logSource d with
           | Some s => observe (EvRelease (CFRelease s)) g
           | None => g end in
  match logSocket d with
  | Some s => observe (EvRelease (CFRelease s)) g
  | None => g
  end.

Definition delete_device (device : ptr) : Prog :=
  disconnect device true ;;
  Upd (λ g, release_log (deref g device) g)
  (Upd (λ g, observe (EvRelease (delete_Device device))
               (set_heap (delete device (heap g)) g)) Ret).

Definition CFDictionaryContainsKey (dict : gmap string ptr) (key : string)
    : bool :=
  match dict !! key with Some _ => true | None => false end.

(** [getDeviceInfo], the body of the thread started for a new device.
    [fetch_info] is the block of its [try]. *)
Definition fetch_info (device : ptr) : Prog :=
  (* connect to the device and get its information *)
  connect device ;;
  set device "name" "DeviceName" ;;
  set device "buildVersion" "BuildVersion" ;;
  set device "cpuArchitecture" "CPUArchitecture" ;;
  set device "deviceClass" "DeviceClass" ;;
  set device "deviceColor" "DeviceColor" ;;
  set device "hardwareModel" "HardwareModel" ;;
  set device "modelNumber" "ModelNumber" ;;
  set device "productType" "ProductType" ;;
  set device "productVersion" "ProductVersion" ;;
  set device "serialNumber" "SerialNumber" ;;
  Get (λ g, handle (deref g device)) (λ h,
  CopyNumber h "HostAttached" (λ value,
    Upd (update device (set_hostConnected (value =? 1))) Ret)).

(** The end of [getDeviceInfo]: the counter, the condition variable, and
    the destructors of the three locks. *)
Definition release_barrier : Prog :=
  Sync lock_pending (
  Upd (λ g, if 0 <? pendingEvents g
            then set_pendingEvents (pendingEvents g - 1) g else g) (
  Get (λ g, pendingEvents g =? 0) (λ drained,
    (if drained then Sync notify_one Ret else Ret) ;;
  Sync unlock_pending (
  Sync unlock_and_lock_upgrade (
  Sync unlock_upgrade Ret))))).

Definition getDeviceInfo (device : ptr) : Prog :=
  Sync lock_upgrade (Sync unlock_upgrade_and_lock (
  (* we must always set this flag *)
  Upd (set_devicesChanged true) (
  (* if we already have the device info, don't get it again *)
  Upd (λ g, let id := udid (deref g device) in
            if negb (CFDictionaryContainsKey (connectedDevices g) id)
            then set_connectedDevices (<[id := device]> (connectedDevices g)) g
            else g) (
  try_catch (fetch_info device) (λ _, Ret) ;;
  disconnect device false ;;
  release_barrier)))).

(** [on_device_notification]: [dev] and [msg] are the fields of [info]. *)
Definition on_device_notification (dev : am_device) (msg : Z) : Prog :=
  let id := AMDeviceCopyDeviceIdentifier dev in
  Sync lock_shared (
  Get (λ g, CFDictionaryContainsKey (connectedDevices g) id) (λ exists_,
  Sync unlock_shared (
  if negb exists_ && (msg =? ADNCI_MSG_CONNECTED) then
    Atomic (new_Device dev) (λ device,
    Upd (debug_udid "Device connected, getting device info: %s" device) (
    (* tell devices() to wait until we've fetched the device info *)
    Sync lock_pending (
    Upd (λ g, if pendingEvents g <? 0 then set_pendingEvents 0 g else g) (
    Upd (λ g, set_pendingEvents (pendingEvents g + 1) g) (
    Spawn (getDeviceInfo device) (
    Sync unlock_pending Ret))))))
  else if exists_ && (msg =? ADNCI_MSG_DISCONNECTED) then
    Sync lock_upgrade (Sync unlock_upgrade_and_lock (
    Get (λ g, default 0%nat (connectedDevices g !! id)) (λ device,
    Upd (debug_udid "Device disconnected: %s" device) (
    (* remove the device from the dictionary and destroy it *)
    Upd (λ g, set_connectedDevices (delete id (connectedDevices g)) g) (
    Upd (λ g, release_log (deref g device) g) (
    delete_device device ;;
    Upd (set_devicesChanged true) (
    Sync unlock_and_lock_upgrade (
    Sync unlock_upgrade Ret))))))))
  else Ret))).

(** [info[i]] and the tests on it *)
Definition info_at (info : list JsValue) (i : nat) : JsValue :=
  nth i info JsUndefined.
Definition IsUndefined (v : JsValue) : bool :=
  match v with JsUndefined => true | _ => false end.
Definition IsString (v : JsValue) : bool :=
  match v with JsString _ => true | _ => false end.
Definition IsFunction (v : JsValue) : bool :=
  match v with JsFunction _ => true | _ => false end.
Definition IsObject (v : JsValue) : bool :=
  match v with JsObject _ | JsFunction _ => true | _ => false end.

Definition ThrowError (e : js_error) : Prog :=
  Upd (observe (EvOutcome (threw e))) Ret.
Definition ReturnUndefined : Prog :=
  Upd (observe (EvOutcome returned_undefined)) Ret.

(** [setEmitter] *)
Definition setEmitter (info : list JsValue) : Prog :=
  if negb (length info =? 1)%nat then ThrowError (Error "Expected 1 argument")
  else if negb (IsObject (info_at info 0)) then
    ThrowError (Error "Argument 'emitter' must be an object")
  else
    Upd (set_emitter (match info_at info 0 with
                      | JsObject o | JsFunction o => Some o
                      | _ => None end))
    ReturnUndefined.

(** [pump_run_loop].  [fired] are the device notifications that
    [CFRunLoopRunInMode] hands to [on_device_notification] during this
    tick; the interval argument only bounds how long it listens. *)
Definition run_loop (fired : list (am_device * Z)) : Prog :=
  foldr (λ '(dev, msg) rest, on_device_notification dev msg ;; rest) Ret fired.

Definition emit_devicesChanged (g : Globals) : Globals :=
  match emitter g with
  | Some _ => observe (EvEmit devicesChanged_event) g
  | None => g
  end.

Definition pump_check : Prog :=
  Get devicesChanged (λ changed,
    if changed then
      Upd (debug "Devices changed, emitting event" []) (
      (* immediately reset just in case we have a getDeviceInfo() call
         running in the background *)
      Upd (set_devicesChanged false) (
      Upd emit_devicesChanged Ret))
    else Ret).

Definition pump_run_loop (fired : list (am_device * Z)) : Prog :=
  run_loop fired ;; pump_check ;; ReturnUndefined.

(** [devices] *)
Definition snapshot (g : Globals) : list (gmap string string) :=
  map (λ kv, props (deref g kv.2)) (map_to_list (connectedDevices g)).

Definition devices : Prog :=
  Sync lock_pending (
  Get (λ g, 0 <? pendingEvents g) (λ pending,
    (if pending then Sync wait_pending Ret else Ret) ;;
  Sync lock_shared (
  Upd (λ g, let size := size (connectedDevices g) in
            debug "Found %d device%s"
              [arg_d (Z.of_nat size);
               arg_s (if (size =? 1)%nat then "" else "s")] g) (
  Upd (λ g, observe (EvOutcome (returned_array (snapshot g))) g) (
  Sync unlock_shared (
  Sync unlock_pending Ret)))))).

(** [log] *)
Definition log (info : list JsValue) : Prog :=
  if (length info <? 2)%nat || IsUndefined (info_at info 0)
     || IsUndefined (info_at info 1) then
    ThrowError (Error "Missing required arguments 'udid' and 'appPath'")
  else
  match info_at info 0 with
  | JsString id =>
    if (String.length id =? 0)%nat then
      ThrowError (Error "The 'udid' must not be an empty string")
    else
    Get (λ g, CFDictionaryContainsKey (connectedDevices g) id) (λ found,
    if negb found then
      ThrowError (Error_printf "Device '%s' not connected" id)
    else if negb (IsFunction (info_at info 1)) then
      ThrowError (Error "Argument 'callback' must be a function")
    else
    (* Listener* logCallback = new Listener *)
    Atomic (λ g, (next_resource g, set_next_resource (S (next_resource g)) g))
    (λ logCallback,
    Get (λ g, default 0%nat (connectedDevices g !! id)) (λ deviceObj,
    Get (λ g, hostConnected (deref g deviceObj)) (λ host,
    if negb host then
      ThrowError (Error "iOS device must be connected to host")
    else
    (* the statements after the try block are the continuation of
       startService, which hands them [connection]; none of them throws *)
    try_catch
      (connect deviceObj ;;
       startService deviceObj AMSVC_SYSLOG_RELAY (λ connection,
       disconnect deviceObj false ;;
       Atomic (λ g, if CFSocketCreateWithNative (trace g) connection
                    then (Some (next_resource g),
                          set_next_resource (S (next_resource g)) g)
                    else (None, g))
       (λ socket,
       match socket with
       | None => ThrowError (Error "Failed to create socket")
       | Some socket =>
         Atomic (λ g, if CFSocketCreateRunLoopSource (trace g) socket
                      then (Some (next_resource g),
                            set_next_resource (S (next_resource g)) g)
                      else (None, g))
         (λ source,
         match source with
         | None =>
             ThrowError (Error "Failed to create socket run loop source")
         | Some source =>
           Upd (observe (EvAddSource source)) (
           Upd (λ g, release_log (deref g deviceObj) g) (
           Upd (update deviceObj
                  (set_log connection socket source logCallback))
           ReturnUndefined))
         end)
       end)))
      (λ e, ThrowError (Error_what e))))))
  | _ => ThrowError (Error "Argument 'udid' must be a string")
  end.

(** [cleanup], run when Node shuts down *)
Definition cleanup : Prog :=
  Get (λ g, (map_to_list (connectedDevices g)).*1) (λ keys,
  foldr (λ key rest,
          Get (λ g, default 0%nat (connectedDevices g !! key)) (λ device,
          Upd (λ g, set_connectedDevices
                      (delete key (connectedDevices g)) g) (
          delete_device device ;; rest)))
        Ret keys).

End Source.

(** ** Threads, locks and the two ways to run the source *)

(** A thread is at an instruction sequence, or blocked in
    [pendingCond.wait] with the sequence it returns to. *)
Inductive Thread :=
| Running (p : Prog)
| Waiting (k : Prog).

(** [deviceMutex] is the number of shared holders, the holder of the
    upgrade lock and the exclusive holder; [pendingMutex] is its holder.
    Thread 0 is Node's main thread; the others are the detached threads in
    the order in which they were started. *)
Record Sys := mkSys {
  globals : Globals;
  shared_count : nat;
  upgrade : option tid;
  exclusive : option tid;
  pendingMutex : option tid;
  threads : list Thread
}.

Definition set_globals (g : Globals) (s : Sys) :=
  mkSys g (shared_count s) (upgrade s) (exclusive s) (pendingMutex s)
    (threads s).
Definition set_threads (l : list Thread) (s : Sys) :=
  mkSys (globals s) (shared_count s) (upgrade s) (exclusive s)
    (pendingMutex s) l.
Definition set_thread (t : tid) (th : Thread) (s : Sys) :=
  set_threads (<[t := th]> (threads s)) s.

Definition is_free (owner : option tid) : bool :=
  match owner with None => true | Some _ => false end.
Definition held_by (t : tid) (owner : option tid) : bool :=
  match owner with Some t' => (t' =? t)%nat | None => false end.

(** [notify_one]: the first thread blocked in [wait] leaves it and has to
    take [pendingMutex] again before it goes on. *)
Fixpoint wake_one (l : list Thread) : list Thread :=
  match l with
  | [] => []
  | Waiting k :: l => Running (Sync lock_pending k) :: l
  | Running p :: l => Running p :: wake_one l
  end.

(** The lock operations; [None] when the thread has to wait. *)
Definition sync_step (t : tid) (op : SyncOp) (s : Sys) : option Sys :=
  match op with
  | lock_shared =>
      if is_free (exclusive s)
      then Some (mkSys (globals s) (S (shared_count s)) (upgrade s)
                   (exclusive s) (pendingMutex s) (threads s))
      else None
  | unlock_shared =>
      Some (mkSys (globals s) (pred (shared_count s)) (upgrade s)
              (exclusive s) (pendingMutex s) (threads s))
  | lock_upgrade =>
      if is_free (exclusive s) && is_free (upgrade s)
      then Some (mkSys (globals s) (shared_count s) (Some t) (exclusive s)
                   (pendingMutex s) (threads s))
      else None
  | unlock_upgrade_and_lock =>
      if held_by t (upgrade s) && is_free (exclusive s)
         && (shared_count s =? 0)%nat
      then Some (mkSys (globals s) (shared_count s) None (Some t)
                   (pendingMutex s) (threads s))
      else None
  | unlock_and_lock_upgrade =>
      if held_by t (exclusive s)
      then Some (mkSys (globals s) (shared_count s) (Some t) None
                   (pendingMutex s) (threads s))
      else None
  | unlock_upgrade =>
      if held_by t (upgrade s)
      then Some (mkSys (globals s) (shared_count s) None (exclusive s)
                   (pendingMutex s) (threads s))
      else None
  | lock_pending =>
      if is_free (pendingMutex s)
      then Some (mkSys (globals s) (shared_count s) (upgrade s)
                   (exclusive s) (Some t) (threads s))
      else None
  | unlock_pending =>
      if held_by t (pendingMutex s)
      then Some (mkSys (globals s) (shared_count s) (upgrade s)
                   (exclusive s) None (threads s))
      else None
  | wait_pending => None
  | notify_one => Some (set_threads (wake_one (threads s)) s)
  end.

Section Semantics.
Context `{MobileDevice}.

(** One instruction of thread [t]: the thread afterwards and the system
    afterwards ([None]: the thread cannot move). *)
Definition instr_step (t : tid) (p : Prog) (s : Sys)
    : option (Thread * Sys) :=
  match p with
  | Ret => None
  | Throw _ => None
  | Atomic f k =>
      let '(a, g) := f (globals s) in Some (Running (k a), set_globals g s)
  | Call c k =>
      let g := globals s in
      Some (Running (k (am_result (trace g) c)),
            set_globals (observe (EvCall c) g) s)
  | CopyString h key k =>
      let g := globals s in
      Some (Running (k (am_string (trace g) h key)),
            set_globals (observe (EvCall (AMDeviceCopyValue h key)) g) s)
  | CopyNumber h key k =>
      let g := globals s in
      Some (Running (k (am_number (trace g) h key)),
            set_globals (observe (EvCall (AMDeviceCopyValue h key)) g) s)
  | Sync wait_pending k =>
      if held_by t (pendingMutex s)
      then Some (Waiting k,
                 mkSys (globals s) (shared_count s) (upgrade s)
                   (exclusive s) None (threads s))
      else None
  | Sync op k =>
      match sync_step t op s with
      | Some s => Some (Running k, s)
      | None => None
      end
  | Spawn p k => Some (Running k, set_threads (threads s ++ [Running p]) s)
  end.

(** The scheduler lets a thread do its next instruction, or lets a thread
    that is blocked in [pendingCond.wait] wake up without a notification,
    as [std::condition_variable::wait] may. *)
Inductive Action :=
| Run (t : tid)
| Spurious (t : tid).

Definition step (a : Action) (s : Sys) : option Sys :=
  match a with
  | Run t =>
      match threads s !! t with
      | Some (Running p) =>
          match instr_step t p s with
          | Some (th, s) => Some (set_thread t th s)
          | None => None
          end
      | _ => None
      end
  | Spurious t =>
      match threads s !! t with
      | Some (Waiting k) => Some (set_thread t (Running (Sync lock_pending k)) s)
      | _ => None
      end
  end.

Fixpoint run (schedule : list Action) (s : Sys) : option Sys :=
  match schedule with
  | [] => Some s
  | a :: schedule =>
      match step a s with
      | Some s => run schedule s
      | None => None
      end
  end.

(** [exec t p s]: thread [t] runs [p] to its end with no other thread in
    between.  [None] when it would have to wait for another thread, or
    when an exception leaves [p]. *)
Fixpoint exec (t : tid) (p : Prog) (s : Sys) : option Sys :=
  match p with
  | Ret => Some s
  | Throw _ => None
  | Atomic f k =>
      let '(a, g) := f (globals s) in exec t (k a) (set_globals g s)
  | Call c k =>
      let g := globals s in
      exec t (k (am_result (trace g) c)) (set_globals (observe (EvCall c) g) s)
  | CopyString h key k =>
      let g := globals s in
      exec t (k (am_string (trace g) h key))
        (set_globals (observe (EvCall (AMDeviceCopyValue h key)) g) s)
  | CopyNumber h key k =>
      let g := globals s in
      exec t (k (am_number (trace g) h key))
        (set_globals (observe (EvCall (AMDeviceCopyValue h key)) g) s)
  | Sync op k =>
      match sync_step t op s with
      | Some s => exec t k s
      | None => None
      end
  | Spawn p k => exec t k (set_threads (threads s ++ [Running p]) s)
  end.

(** What the host does: the exported functions it calls, in order. *)
Inductive HostCall :=
| call_setEmitter (info : list JsValue)
| call_pumpRunLoop (fired : list (am_device * Z))
| call_devices
| call_log (info : list JsValue)
| at_exit.

Definition host_call (c : HostCall) : Prog :=
  match c with
  | call_setEmitter info => setEmitter info
  | call_pumpRunLoop fired => pump_run_loop fired
  | call_devices => devices
  | call_log info => log info
  | at_exit => cleanup
  end.

Definition host_program (calls : list HostCall) : Prog :=
  foldr (λ c rest, host_call c ;; rest) Ret calls.

(** The module after [init]: an empty dictionary, no emitter, nothing
    pending, and the main thread about to make the host's calls. *)
Definition init_globals : Globals :=
  mkGlobals ∅ None 0 false ∅ 1%nat 1%nat [].
Definition init (calls : list HostCall) : Sys :=
  mkSys init_globals 0 None None None [Running (host_program calls)].

End Semantics.

(** ** Notions used to state the properties *)

Section Notions.
Context `{MobileDevice}.

(** [eval t p s] is [exec t p s] that also tells how [p] ended: at its
    end ([None]) or by an exception that left it ([Some e]). *)
Fixpoint eval (t : tid) (p : Prog) (s : Sys)
    : option (Sys * option runtime_error) :=
  match p with
  | Ret => Some (s, None)
  | Throw e => Some (s, Some e)
  | Atomic f k =>
      let '(a, g) := f (globals s) in eval t (k a) (set_globals g s)
  | Call c k =>
      let g := globals s in
      eval t (k (am_result (trace g) c)) (set_globals (observe (EvCall c) g) s)
  | CopyString h key k =>
      let g := globals s in
      eval t (k (am_string (trace g) h key))
        (set_globals (observe (EvCall (AMDeviceCopyValue h key)) g) s)
  | CopyNumber h key k =>
      let g := globals s in
      eval t (k (am_number (trace g) h key))
        (set_globals (observe (EvCall (AMDeviceCopyValue h key)) g) s)
  | Sync op k =>
      match sync_step t op s with
      | Some s => eval t k s
      | None => None
      end
  | Spawn p k => eval t k (set_threads (threads s ++ [Running p]) s)
  end.

(** The globals after the dispatcher has handled the attachment of a new
    device: the object is made, ["debug"] is emitted, the counter of
    pending events is raised. *)
Definition attached_globals (dev : am_device) (g : Globals) : Globals :=
  let g1 := (new_Device dev g).2 in
  let g2 := debug_udid "Device connected, getting device info: %s"
              (next_ptr g) g1 in
  set_pendingEvents (Z.max 0 (pendingEvents g) + 1) g2.

(** The globals after [delete device]. *)
Definition deleted_globals (device : ptr) (g : Globals) : Globals :=
  let d := deref g device in
  let g1 := update device (set_connected 0) g in
  let g2 := observe (EvCall (AMDeviceDisconnect (handle d)))
              (observe (EvCall (AMDeviceStopSession (handle d))) g1) in
  let g3 := release_log (deref g2 device) g2 in
  observe (EvRelease (delete_Device device))
    (set_heap (delete device (heap g3)) g3).

(** The globals after the dispatcher has handled the detachment of the
    device registered as [id] at [device]. *)
Definition detached_globals (id : string) (device : ptr) (g : Globals)
    : Globals :=
  let g1 := debug_udid "Device disconnected: %s" device g in
  let g2 := set_connectedDevices (delete id (connectedDevices g1)) g1 in
  let g3 := release_log (deref g2 device) g2 in
  set_devicesChanged true (deleted_globals device g3).

(** The globals along [getDeviceInfo]: when its [try] block starts, after
    [disconnect()], and after the counter of pending events is lowered. *)
Definition worker_start_globals (device : ptr) (g : Globals) : Globals :=
  let g := set_devicesChanged true g in
  let id := udid (deref g device) in
  if negb (CFDictionaryContainsKey (connectedDevices g) id)
  then set_connectedDevices (<[id := device]> (connectedDevices g)) g
  else g.

Definition disconnected_globals (device : ptr) (g : Globals) : Globals :=
  let d := deref g device in
  if connected d - 1 <=? 0 then
    observe (EvCall (AMDeviceDisconnect (handle d)))
      (observe (EvCall (AMDeviceStopSession (handle d)))
         (update device (set_connected 0)
            (update device (set_connected (connected d - 1)) g)))
  else update device (set_connected (connected d - 1)) g.

Definition barrier_globals (g : Globals) : Globals :=
  if 0 <? pendingEvents g then set_pendingEvents (pendingEvents g - 1) g
  else g.

(** No thread holds or waits for a lock. *)
Definition quiescent (s : Sys) : Prop :=
  shared_count s = 0%nat ∧ upgrade s = None ∧ exclusive s = None ∧
  pendingMutex s = None.

(** A thread is about to go to the device. *)
Definition at_io (th : Thread) : Prop :=
  match th with
  | Running (Call _ _) | Running (CopyString _ _ _)
  | Running (CopyNumber _ _ _) => True
  | _ => False
  end.

(** [local R p]: [p] takes no lock and starts no thread, and each of its
    statements on the globals stays within [R]. *)
Fixpoint local (R : Globals → Globals → Prop) (p : Prog) : Prop :=
  match p with
  | Ret | Throw _ => True
  | Atomic f k => ∀ g, R g (f g).2 ∧ local R (k (f g).1)
  | Call _ k => ∀ r, local R (k r)
  | CopyString _ _ k => ∀ r, local R (k r)
  | CopyNumber _ _ k => ∀ r, local R (k r)
  | Sync _ _ | Spawn _ _ => False
  end.

(** The keys that [getDeviceInfo] fills in. *)
Definition enriched_keys : list string :=
  ["name"; "buildVersion"; "cpuArchitecture"; "deviceClass"; "deviceColor";
   "hardwareModel"; "modelNumber"; "productType"; "productVersion";
   "serialNumber"]%string.

(** [d'] is [d] after some enrichment and [n] more calls of [connect]. *)
Definition enriched_device (n : Z) (d d' : Device) : Prop :=
  handle d' = handle d ∧ udid d' = udid d ∧
  connected d' = connected d + n ∧
  logConnection d' = logConnection d ∧ logSocket d' = logSocket d ∧
  logSource d' = logSource d ∧ logCallback d' = logCallback d ∧
  ∀ key, key ∉ enriched_keys → props d' !! key = props d !! key.

(** [g'] is [g] after calls into MobileDevice that touched no object but
    the one at [device]. *)
Definition enriched (device : ptr) (n : Z) (g g' : Globals) : Prop :=
  connectedDevices g' = connectedDevices g ∧
  emitter g' = emitter g ∧
  pendingEvents g' = pendingEvents g ∧
  devicesChanged g' = devicesChanged g ∧
  next_ptr g' = next_ptr g ∧
  next_resource g' = next_resource g ∧
  (∃ calls, trace g' = trace g ++ map EvCall calls) ∧
  (∀ p, p ≠ device → heap g' !! p = heap g !! p) ∧
  match heap g !! device with
  | Some d => ∃ d', heap g' !! device = Some d' ∧ enriched_device n d d'
  | None => heap g' !! device = None
  end.

(** [straight p]: [p] takes no lock and starts no thread, whatever its
    statements and its calls give it. *)
Fixpoint straight (p : Prog) : Prop :=
  match p with
  | Ret | Throw _ => True
  | Atomic _ k => ∀ a, straight (k a)
  | Call _ k => ∀ r, straight (k r)
  | CopyString _ _ k => ∀ r, straight (k r)
  | CopyNumber _ _ k => ∀ r, straight (k r)
  | Sync _ _ | Spawn _ _ => False
  end.

(** [io_locked held p]: a thread at [p] that holds the exclusive lock on
    [deviceMutex] ([held = true]) or does not hold it ([held = false])
    goes to the device only while it holds it; so does every thread it
    starts. *)
Fixpoint io_locked (held : bool) (p : Prog) : Prop :=
  match p with
  | Ret | Throw _ => True
  | Atomic _ k => ∀ a, io_locked held (k a)
  | Call _ k => held = true ∧ ∀ r, io_locked held (k r)
  | CopyString _ _ k => held = true ∧ ∀ r, io_locked held (k r)
  | CopyNumber _ _ k => held = true ∧ ∀ r, io_locked held (k r)
  | Sync unlock_upgrade_and_lock k => io_locked true k
  | Sync unlock_and_lock_upgrade k => io_locked false k
  | Sync _ k => io_locked held k
  | Spawn q k => io_locked false q ∧ io_locked held k
  end.

(** [spawns_locked p]: every thread that [p] starts is as above. *)
Fixpoint spawns_locked (p : Prog) : Prop :=
  match p with
  | Ret | Throw _ => True
  | Atomic _ k => ∀ a, spawns_locked (k a)
  | Call _ k => ∀ r, spawns_locked (k r)
  | CopyString _ _ k => ∀ r, spawns_locked (k r)
  | CopyNumber _ _ k => ∀ r, spawns_locked (k r)
  | Sync _ k => spawns_locked k
  | Spawn q k => io_locked false q ∧ spawns_locked k
  end.

Definition prog_of (th : Thread) : Prog :=
  match th with Running p => p | Waiting k => k end.

(** The invariant behind the lock discipline of the threads: the main
    thread starts only threads that keep the discipline, and every other
    thread keeps it. *)
Definition thread_ok (s : Sys) (t : tid) (th : Thread) : Prop :=
  match t with
  | O => spawns_locked (prog_of th)
  | S _ => io_locked (held_by t (exclusive s)) (prog_of th)
  end.

Definition lock_discipline (s : Sys) : Prop :=
  (∀ t, exclusive s = Some t → (t < length (threads s))%nat) ∧
  ∀ t th, threads s !! t = Some th → thread_ok s t th.

(** Notifications handled one at a time: the dispatcher handles the
    notification and the thread that it has started, if any, runs to its
    end before the next notification arrives. *)
Definition deliver (ev : am_device * Z) (s : Sys) : option Sys :=
  s1 ← exec 0 (on_device_notification ev.1 ev.2) s;
  match drop (length (threads s)) (threads s1) with
  | Running p :: _ =>
      set_thread (length (threads s)) (Running Ret)
        <$> exec (length (threads s)) p s1
  | _ => Some s1
  end.

Fixpoint deliver_all (evs : list (am_device * Z)) (s : Sys) : option Sys :=
  match evs with
  | [] => Some s
  | ev :: evs => s' ← deliver ev s; deliver_all evs s'
  end.

(** The identifiers that are attached after a sequence of notifications,
    when [ids] were attached before it. *)
Definition attached (evs : list (am_device * Z)) (ids : gset string)
    : gset string :=
  foldl (λ ids ev,
           let id := AMDeviceCopyDeviceIdentifier ev.1 in
           if ev.2 =? ADNCI_MSG_CONNECTED then ids ∪ {[id]}
           else if ev.2 =? ADNCI_MSG_DISCONNECTED then ids ∖ {[id]}
           else ids)
        ids evs.

End Notions.

Section Teardown_notions.
Context `{MobileDevice}.

(** The releases of the log resources that an object holds: the
    listener, the run loop source and the socket, in the order of the
    source. *)
Definition log_releases (d : Device) : list Event :=
  match logCallback d with
  | Some l => [EvRelease (delete_Listener l)] | None => [] end
  ++ match logSource d with
     | Some s => [EvRelease (CFRelease s)] | None => [] end
  ++ match logSocket d with
     | Some s => [EvRelease (CFRelease s)] | None => [] end.

(** The events of the detach branch of [on_device_notification] for the
    object [d] at [device], after its ["debug"]. *)
Definition detach_events (device : ptr) (d : Device) : list Event :=
  log_releases d
  ++ [EvCall (AMDeviceStopSession (handle d));
      EvCall (AMDeviceDisconnect (handle d))]
  ++ log_releases d
  ++ [EvRelease (delete_Device device)].

End Teardown_notions.

(** ** A sample of MobileDevice, for the examples

    Pairwise distinct codes, devices that are named after their handle
    and paired already, and a library of which every call succeeds, but
    for [AMDeviceConnect], which answers [rval], and for ["HostAttached"],
    which answers [host]. *)
Definition sample (rval host : Z) : MobileDevice := {|
  MDERR_OK := 0;
  MDERR_SYSCALL := 1;
  MDERR_QUERY_FAILED := 4;
  MDERR_INVALID_ARGUMENT := 11;
  MDERR_DICT_NOT_LOADED := 37;
  ADNCI_MSG_CONNECTED := 1;
  ADNCI_MSG_DISCONNECTED := 2;
  AMSVC_SYSLOG_RELAY := "com.apple.syslog_relay";
  AMDeviceCopyDeviceIdentifier :=
    λ h, match h with 1%nat => "A" | 2%nat => "B" | _ => "Z" end%string;
  am_result := λ _ c, match c with
                      | AMDeviceConnect _ => rval
                      | AMDeviceIsPaired _ => 1
                      | _ => 0
                      end;
  am_string := λ _ _ key,
    if String.eqb key "DeviceName" then Some "phone"%string else None;
  am_number := λ _ _ _, host;
  am_service_conn := λ _ _ _, 42;
  CFSocketCreateWithNative := λ _ _, true;
  CFSocketCreateRunLoopSource := λ _ _, true
|}.

(** The notifications of the examples: device 1 is attached, device 1 is
    detached. *)
Definition attach_1 : nat * Z := (1%nat, 1).
Definition detach_1 : nat * Z := (1%nat, 2).

(** How often an event occurs among the events so far. *)
Definition is_release (r : Released) (e : Event) : bool :=
  match e, r with
  | EvRelease (delete_Listener a), delete_Listener b => (a =? b)%nat
  | EvRelease (CFRelease a), CFRelease b => (a =? b)%nat
  | EvRelease (delete_Device a), delete_Device b => (a =? b)%nat
  | _, _ => false
  end.
Definition releases (r : Released) (tr : list Event) : nat :=
  length (List.filter (is_release r) tr).

Definition is_devicesChanged (e : Event) : bool :=
  match e with EvEmit devicesChanged_event => true | _ => false end.
Definition devicesChanged_events (tr : list Event) : nat :=
  length (List.filter is_devicesChanged tr).

Definition outcomes (tr : list Event) : list Outcome :=
  omap (λ e, match e with EvOutcome o => Some o | _ => None end) tr.

(** The sample in which everything succeeds and the device is attached to
    the host, and the one in which [AMDeviceConnect] fails. *)
Definition sample_ok : MobileDevice := sample 0 1.
Definition sample_failing : MobileDevice := sample 1 1.

(** The host of the examples: it pumps while device 1 is attached, asks
    for the log of the device, and pumps while the device is detached, or
    leaves instead. *)
Definition log_A : HostCall := call_log [JsString "A"; JsFunction 5].
Definition host_detach : list HostCall :=
  [call_pumpRunLoop [attach_1]; log_A; call_pumpRunLoop [detach_1]].
Definition host_exit : list HostCall :=
  [call_pumpRunLoop [attach_1]; log_A; at_exit].
Definition host_devices : list HostCall :=
  [call_pumpRunLoop [attach_1]; call_devices].

(** [n] steps of thread [t]. *)
Definition steps (n : nat) (t : tid) : list Action := replicate n (Run t).

(** The call into MobileDevice that a thread is about to make. *)
Definition next_call (th : Thread) : option AMCall :=
  match th with
  | Running (Call c _) => Some c
  | Running (CopyString h key _) | Running (CopyNumber h key _) =>
      Some (AMDeviceCopyValue h key)
  | _ => None
  end.

(** What the examples look at in a state: the locks, the counter of
    pending events, the flag, the identifiers in the dictionary, the
    releases of the log resources of the first listener, and what the
    host's calls returned. *)
Record Seen := mkSeen {
  seen_exclusive : option tid;
  seen_pendingEvents : Z;
  seen_devicesChanged : bool;
  seen_registry : list string;
  seen_releases : list (Released * nat);
  seen_outcomes : list Outcome
}.

Definition count_releases (tr : list Event) : list (Released * nat) :=
  map (λ r, (r, releases r tr))
    [delete_Listener 1; CFRelease 2; CFRelease 3; delete_Device 1].

Definition see (s : Sys) : Seen :=
  let g := globals s in
  mkSeen (exclusive s) (pendingEvents g) (devicesChanged g)
    (map_to_list (connectedDevices g)).*1
    (count_releases (trace g)) (outcomes (trace g)).

Definition waiting (th : Thread) : bool :=
  match th with Waiting _ => true | Running _ => false end.

Definition host_attach : list HostCall := [call_pumpRunLoop [attach_1]].
Definition host_attach_detach : list HostCall :=
  [call_pumpRunLoop [attach_1; detach_1]].
Definition host_pump_twice : list HostCall :=
  [call_pumpRunLoop [attach_1]; call_pumpRunLoop []].

(** States of the sample: the worker of device 1 has been started and the
    host calls [devices]; the worker of device 1 is alone; device 1 is
    registered and the host has subscribed to its log. *)
Definition pending_globals : Globals :=
  attached_globals (H := sample_ok) 1 init_globals.
Definition devices_state : Sys :=
  mkSys pending_globals 0 None None None
    [Running devices;
     Running (getDeviceInfo (H := sample_ok) 1)].
Definition worker_state : Sys :=
  mkSys (attached_globals (H := sample_failing) 1 init_globals)
    0 None None None [].
Definition subscribed_Device : Device :=
  set_log 42 2%nat 3%nat 1%nat (Device_new (H := sample_ok) 1).
Definition subscribed_globals : Globals :=
  mkGlobals {[ "A"%string := 1%nat ]} None 0 false
    {[ 1%nat := subscribed_Device ]} 2%nat 4%nat [].

(* ===================================================================== *)
(** * Part II, continued: definitions for the rest of the file            *)
(* ===================================================================== *)

(** ** The splitter with the bounds of its arrays checked

    [str] has [length + 1] bytes.  The loops below are the loops of
    [LogSocketCallback] again, with [None] for a write outside of [str]
    and for a string handed to [Nan::New] that has no ['\0'] inside of
    [str]. *)

(** [Nan::New(str)] reads [str] up to its first ['\0']. *)
Fixpoint c_str_checked (str : list byte) : option (list byte) :=
  match str with
  | [] => None
  | c :: rest => if is_nul c then Some [] else cons c <$> c_str_checked rest
  end.

Fixpoint scan_checked (rest : list byte) (i j : nat) (str : list byte)
    (calls : list (list byte))
    : option (nat * list byte * list (list byte)) :=
  match rest with
  | [] => Some (i, str, calls)
  | c :: rest' =>
      if (j <? length str)%nat then
        let str := <[j := c]> str in
        let i := S i in
        if is_terminator c then
          let str := <[j := NUL]> str in
          match (if (0 <? j)%nat
                 then (λ l, calls ++ [l]) <$> c_str_checked str
                 else Some calls) with
          | Some calls =>
              if is_nul c then Some (i, str, calls)
              else scan_checked rest' i 0%nat str calls
          | None => None
          end
        else scan_checked rest' i (S j) str calls
      else None
  end.

Fixpoint split_loop_checked (fuel : nat) (buffer : list byte)
    (str : list byte) (calls : list (list byte))
    : option (list (list byte)) :=
  match fuel with
  | O => None
  | S fuel =>
      match buffer with
      | [] => Some calls
      | _ :: _ =>
          match skip_nul buffer with
          | None => Some calls
          | Some buffer =>
              match scan_checked buffer 0 0 str calls with
              | Some (i, str, calls) =>
                  split_loop_checked fuel (drop i buffer) str calls
              | None => None
              end
          end
      end
  end.

Definition LogSocketCallback_checked (junk : nat → byte) (data : list byte)
    : option (list (list byte)) :=
  let length := length data in
  let str := new_char_array junk (length + 1) in
  split_loop_checked (S length) data str [].

(** ** The splitter and its array

    [str] is made by [new char[length + 1]] and freed by the last
    statement of the function, [delete[] str]; the [return] inside the
    leading loop leaves the function before it.  The loop below is the
    outer loop again; with the calls it tells whether [delete[] str] was
    reached. *)
Fixpoint split_loop_delete (fuel : nat) (buffer : list byte)
    (str : list byte) (calls : list (list byte))
    : option (list (list byte) * bool) :=
  match fuel with
  | O => None
  | S fuel =>
      match buffer with
      | [] => Some (calls, true)
      | _ :: _ =>
          match skip_nul buffer with
          | None => Some (calls, false)
          | Some buffer =>
              let '(i, str, calls) := scan buffer 0 0 str calls in
              split_loop_delete fuel (drop i buffer) str calls
          end
      end
  end.

Definition LogSocketCallback_delete (junk : nat → byte) (data : list byte)
    : option (list (list byte) * bool) :=
  let length := length data in
  let str := new_char_array junk (length + 1) in
  split_loop_delete (S length) data str [].

(** The last byte of the chunk is a null byte, and so is the byte before
    it when there is one. *)
Definition stray_nul (reversed : list byte) : bool :=
  match reversed with
  | [] => false
  | [c] => is_nul c
  | c :: c' :: _ => is_nul c && is_nul c'
  end.
Definition ends_in_stray_nul (data : list byte) : bool :=
  stray_nul (rev data).

(** ** A library that answers well

    The codes of [mobiledevice.h] are distinct, and for the handle [h]
    MobileDevice connects, finds the device paired, validates the pairing
    and starts the session, whatever has happened before. *)
Section Cooperative.
Context `{MobileDevice}.

Definition codes_distinct : Prop :=
  MDERR_OK ≠ MDERR_SYSCALL ∧ MDERR_OK ≠ MDERR_QUERY_FAILED ∧
  MDERR_OK ≠ MDERR_INVALID_ARGUMENT ∧ MDERR_OK ≠ MDERR_DICT_NOT_LOADED.

Definition session_starts (h : am_device) : Prop :=
  ∀ tr, am_result tr (AMDeviceConnect h) = MDERR_OK ∧
        am_result tr (AMDeviceIsPaired h) = 1 ∧
        am_result tr (AMDeviceValidatePairing h) = MDERR_OK ∧
        am_result tr (AMDeviceStartSession h) = MDERR_OK.

(** The calls of a [connect] that starts the session. *)
Definition session_calls (h : am_device) : list AMCall :=
  [AMDeviceConnect h; AMDeviceIsPaired h; AMDeviceValidatePairing h;
   AMDeviceStartSession h].

(** The properties that [getDeviceInfo] asks for: the key in [props] and
    the key of MobileDevice, in the order of the source. *)
Definition enrichment : list (string * string) :=
  [("name", "DeviceName"); ("buildVersion", "BuildVersion");
   ("cpuArchitecture", "CPUArchitecture"); ("deviceClass", "DeviceClass");
   ("deviceColor", "DeviceColor"); ("hardwareModel", "HardwareModel");
   ("modelNumber", "ModelNumber"); ("productType", "ProductType");
   ("productVersion", "ProductVersion"); ("serialNumber", "SerialNumber")
  ]%string.

(** [props] after the properties that the device answers have been
    stored. *)
Definition enrich (answers : string → option string)
    (m : gmap string string) : gmap string string :=
  foldl (λ m kv, match answers kv.2 with
                 | Some value => <[kv.1 := value]> m
                 | None => m
                 end) m enrichment.

(** The globals after [device->set(key, id)] and after the lines of
    [getDeviceInfo] that read ["HostAttached"]. *)
Definition after_set (device : ptr) (key id : string) (g : Globals)
    : Globals :=
  let h := handle (deref g device) in
  let g1 := observe (EvCall (AMDeviceCopyValue h id)) g in
  match am_string (trace g) h id with
  | Some value =>
      update device (λ d, set_props (<[key := value]> (props d)) d) g1
  | None => g1
  end.

Definition after_host_attached (device : ptr) (g : Globals) : Globals :=
  let h := handle (deref g device) in
  update device
    (set_hostConnected (am_number (trace g) h "HostAttached" =? 1))
    (observe (EvCall (AMDeviceCopyValue h "HostAttached")) g).

(** The events of [delete device] for the object [d] at [device]. *)
Definition delete_events (device : ptr) (d : Device) : list Event :=
  [EvCall (AMDeviceStopSession (handle d));
   EvCall (AMDeviceDisconnect (handle d))]
  ++ log_releases d ++ [EvRelease (delete_Device device)].

End Cooperative.

(** ** More states of the sample

    Device 1 is registered, attached to the host, and holds a log
    subscription. *)
Definition host_Device : Device := set_hostConnected true subscribed_Device.
Definition host_globals : Globals :=
  mkGlobals {[ "A"%string := 1%nat ]} None 0 false
    {[ 1%nat := host_Device ]} 2%nat 4%nat [].
Definition host_state : Sys := mkSys host_globals 0 None None None [].

(** The library [M] with a [CFSocketCreateWithNative] that fails. *)
Definition without_socket (M : MobileDevice) : MobileDevice := {|
  MDERR_OK := @MDERR_OK M;
  MDERR_SYSCALL := @MDERR_SYSCALL M;
  MDERR_QUERY_FAILED := @MDERR_QUERY_FAILED M;
  MDERR_INVALID_ARGUMENT := @MDERR_INVALID_ARGUMENT M;
  MDERR_DICT_NOT_LOADED := @MDERR_DICT_NOT_LOADED M;
  ADNCI_MSG_CONNECTED := @ADNCI_MSG_CONNECTED M;
  ADNCI_MSG_DISCONNECTED := @ADNCI_MSG_DISCONNECTED M;
  AMSVC_SYSLOG_RELAY := @AMSVC_SYSLOG_RELAY M;
  AMDeviceCopyDeviceIdentifier := @AMDeviceCopyDeviceIdentifier M;
  am_result := @am_result M;
  am_string := @am_string M;
  am_number := @am_number M;
  am_service_conn := @am_service_conn M;
  CFSocketCreateWithNative := λ _ _, false;
  CFSocketCreateRunLoopSource := @CFSocketCreateRunLoopSource M
|}.

(** ** [installApp]

    The two calls of MobileDevice that copy and install the application,
    and [::access], are parameters like the rest of the library; what the
    two calls answer may depend on what has happened so far.  They leave
    no event of their own in [trace].  The messages that the source
    formats with [snprintf] are kept as the format and its argument
    ([what_code] for a result code). *)
Class Installer := {
  (* ::access(appPath, F_OK) == 0 *)
  access : string → bool;
  AMDeviceSecureTransferPath : list Event → am_device → string → Z;
  AMDeviceSecureInstallApplication : list Event → am_device → string → Z
}.

Section Install.
Context `{MobileDevice} `{Installer}.

(** The lines of the two [if (rval != MDERR_OK)] blocks. *)
Definition abort_install (deviceObj : ptr) (h : am_device) (e : js_error)
    : Prog :=
  Call (AMDeviceStopSession h) (λ _,
  Call (AMDeviceDisconnect h) (λ _,
  Upd (update deviceObj (λ d, set_connected (connected d - 1) d)) (
  ThrowError e))).

Definition copy_error (rval : Z) : js_error :=
  if rval =? -402653177 then
    Error "Failed to copy app to device: can't install app that contains symlinks"
  else Error_what (what_code "Failed to copy app to device (0x%x)" rval).

Definition install_error (rval : Z) : js_error :=
  if rval =? -402620395 then
    Error "Failed to install app on device: most likely a provisioning profile issue"
  else Error_what (what_code "Failed to install app on device (0x%x)" rval).

(** [installApp] after [connect]. *)
Definition install_steps (deviceObj : ptr) (appPath : string) : Prog :=
  Get (λ g, handle (deref g deviceObj)) (λ h,
  (* copy .app to device *)
  Get (λ g, AMDeviceSecureTransferPath (trace g) h appPath) (λ rval,
  if negb (rval =? MDERR_OK) then abort_install deviceObj h (copy_error rval)
  else
  (* install package on device *)
  Get (λ g, AMDeviceSecureInstallApplication (trace g) h appPath) (λ rval,
  if negb (rval =? MDERR_OK) then
    abort_install deviceObj h (install_error rval)
  else
  (* cleanup *)
  disconnect deviceObj false ;; ReturnUndefined))).

(** [installApp] *)
Definition installApp (info : list JsValue) : Prog :=
  if (length info <? 2)%nat || IsUndefined (info_at info 0)
     || IsUndefined (info_at info 1) then
    ThrowError (Error "Missing required arguments 'udid' and 'appPath'")
  else
  match info_at info 0 with
  | JsString id =>
    if (String.length id =? 0)%nat then
      ThrowError (Error "The 'udid' must not be an empty string")
    else
    Get (λ g, CFDictionaryContainsKey (connectedDevices g) id) (λ found,
    if negb found then
      ThrowError (Error_printf "Device '%s' not connected" id)
    else
    Get (λ g, default 0%nat (connectedDevices g !! id)) (λ deviceObj,
    (* validate the 'appPath' *)
    match info_at info 1 with
    | JsString appPath =>
      if (String.length appPath =? 0)%nat then
        ThrowError (Error "The 'appPath' must not be an empty string")
      else
      (* check the file exists *)
      if negb (access appPath) then
        ThrowError (Error_printf "The app path '%s' does not exist" appPath)
      else
      (* the statements after the try block are the continuation of
         connect; none of them throws *)
      try_catch (connect deviceObj ;; install_steps deviceObj appPath)
        (λ e, ThrowError (Error_what e))
    | _ => ThrowError (Error "Argument 'appPath' must be a string")
    end))
  | _ => ThrowError (Error "Argument 'udid' must be a string")
  end.

End Install.

(** An installer for the sample: the file [app] exists, the copy answers
    [copy] and the installation [install]. *)
Definition sample_installer (copy install : Z) : Installer := {|
  access := λ path, String.eqb path "app";
  AMDeviceSecureTransferPath := λ _ _ _, copy;
  AMDeviceSecureInstallApplication := λ _ _ _, install
|}.

(** ** How the threads treat the globals

    [obeys Rm Rw main p]: every statement of [p] on the globals is a step
    of [Rm] when the thread is the main thread and a step of [Rw] when it
    is not, and the same holds of the threads that [p] starts (none of
    which is the main thread). *)
Fixpoint obeys (Rm Rw : Globals → Globals → Prop) (main : bool) (p : Prog)
    : Prop :=
  match p with
  | Ret | Throw _ => True
  | Atomic f k =>
      ∀ g, (if main then Rm else Rw) g (f g).2 ∧ obeys Rm Rw main (k (f g).1)
  | Call _ k => ∀ r, obeys Rm Rw main (k r)
  | CopyString _ _ k => ∀ r, obeys Rm Rw main (k r)
  | CopyNumber _ _ k => ∀ r, obeys Rm Rw main (k r)
  | Sync _ k => obeys Rm Rw main k
  | Spawn q k => obeys Rm Rw false q ∧ obeys Rm Rw main k
  end.

Definition conduct (Rm Rw : Globals → Globals → Prop) (s : Sys) : Prop :=
  ∀ t th, threads s !! t = Some th → obeys Rm Rw (t =? 0)%nat (prog_of th).

(** What reaches V8: the calls of [emit] and what the functions of the
    host return or throw. *)
Definition is_v8 (e : Event) : bool :=
  match e with EvEmit _ | EvOutcome _ => true | _ => false end.
Definition v8_events (tr : list Event) : list Event := List.filter is_v8 tr.

(** A step of the main thread keeps an emitter that is set and a counter
    that is not negative; a step of another thread moreover leaves V8 and
    the emitter alone. *)
Definition main_step (g g' : Globals) : Prop :=
  (is_Some (emitter g) → is_Some (emitter g')) ∧
  (0 ≤ pendingEvents g → 0 ≤ pendingEvents g').
Definition worker_step (g g' : Globals) : Prop :=
  v8_events (trace g') = v8_events (trace g) ∧
  emitter g' = emitter g ∧
  (0 ≤ pendingEvents g → 0 ≤ pendingEvents g').

(** The relation that an action of the scheduler has to respect. *)
Definition step_of (Rm Rw : Globals → Globals → Prop) (a : Action)
    : Globals → Globals → Prop :=
  match a with
  | Run O => Rm
  | Run (S _) => Rw
  | Spurious _ => eq
  end.

(** A host that registers an emitter, pumps while device 1 is attached,
    calls [setEmitter] with no argument and pumps again. *)
Definition host_emitter : list HostCall :=
  [call_setEmitter [JsObject 7%nat]; call_pumpRunLoop [attach_1];
   call_setEmitter []; call_pumpRunLoop []].

(* ===================================================================== *)
(** * Part III: properties of the splitter *)
(* ===================================================================== *)

Example LogSocketCallback_abc_def :
  LogSocketCallback ff_junk chunk_abc_def
  = Some [[x61; x62; x63]; [x64; x65; x66]].
Proof. reflexivity. Qed.

Example LogSocketCallback_unterminated :
  LogSocketCallback ff_junk [x61; x62] = Some [].
Proof. reflexivity. Qed.

(** ** Properties of the pieces *)

Lemma is_nul_terminator c : is_nul c = true → is_terminator c = true.
Proof. unfold is_nul, is_terminator. intros ->. apply orb_true_r. Qed.

Lemma is_nul_true c : is_nul c = true → c = NUL.
Proof. apply byte_dec_bl. Qed.

Lemma length_new_char_array junk n : length (new_char_array junk n) = n.
Proof. unfold new_char_array. by rewrite length_map, length_seq. Qed.

Lemma c_str_terminated (l str : list byte) :
  Forall (λ c, is_nul c = false) l → c_str (l ++ NUL :: str) = l.
Proof.
  induction 1 as [|c l Hc _ IH]; simpl; [done|]. by rewrite Hc, IH.
Qed.

(** Writing the terminator at [j] makes the C string the first [j] bytes. *)
Lemma c_str_insert_nul (str : list byte) (j : nat) :
  (j < length str)%nat →
  Forall (λ c, is_nul c = false) (take j str) →
  c_str (<[j := NUL]> str) = take j str.
Proof.
  intros Hj Hnn.
  rewrite <- (take_drop j str) at 1.
  rewrite insert_app_r_alt by (rewrite length_take; lia).
  rewrite length_take, Nat.min_l, Nat.sub_diag by lia.
  destruct (drop j str) as [|d ds] eqn:Hd.
  - apply (f_equal length) in Hd. rewrite length_drop in Hd. simpl in Hd. lia.
  - simpl. by apply c_str_terminated.
Qed.

Lemma take_S_insert (str : list byte) (j : nat) (c : byte) :
  (j < length str)%nat → take (S j) (<[j := c]> str) = take j str ++ [c].
Proof.
  intros Hj. rewrite (take_S_r _ _ c) by (by apply list_lookup_insert_eq).
  by rewrite take_insert_ge by lia.
Qed.

Lemma complete_lines_from_all_nul cur (data : list byte) :
  Forall (λ c, is_nul c = true) data →
  cur = [] → complete_lines_from cur data = [].
Proof.
  intros H ->. induction H as [|c l Hc _ IH]; simpl; [done|].
  by rewrite (is_nul_terminator _ Hc).
Qed.

Lemma skip_nul_spec (buffer : list byte) :
  match skip_nul buffer with
  | None => buffer ≠ [] ∧ complete_lines buffer = []
  | Some b =>
      complete_lines b = complete_lines buffer ∧
      (length b ≤ length buffer)%nat ∧ (buffer ≠ [] → b ≠ []) ∧
      (∀ c l, b = c :: l → is_nul c = false)
  end.
Proof.
  induction buffer as [|c rest IH]; simpl.
  - repeat split; try done.
  - destruct (is_nul c) eqn:Hc.
    + destruct rest as [|c' rest'].
      * split; [done|]. unfold complete_lines. simpl.
        by rewrite (is_nul_terminator _ Hc).
      * destruct (skip_nul (c' :: rest')) as [b|].
        -- destruct IH as (IH1 & IH2 & IH3 & IH4). repeat split.
           ++ rewrite IH1. unfold complete_lines at 2. simpl.
              by rewrite (is_nul_terminator _ Hc).
           ++ simpl in *. lia.
           ++ intros _. by apply IH3.
           ++ done.
        -- destruct IH as [_ IH]. split; [done|].
           unfold complete_lines. simpl complete_lines_from at 1.
           by rewrite (is_nul_terminator _ Hc).
    + repeat split; try done. intros c0 l [= <- <-]. done.
Qed.

(** The inner loop: [k] bytes are consumed, [str] is written inside its
    bounds only, and the callback has received the complete lines of the
    consumed bytes. *)
Lemma scan_spec (rest : list byte) : ∀ (i j : nat) str calls cur,
  take j str = rev cur →
  Forall (λ c, is_nul c = false) cur →
  (j + length rest < length str)%nat →
  ∃ k str' calls',
    scan rest i j str calls = ((i + k)%nat, str', calls') ∧
    (k ≤ length rest)%nat ∧ (rest ≠ [] → 0 < k)%nat ∧
    length str' = length str ∧
    calls' ++ complete_lines (drop k rest)
    = calls ++ complete_lines_from cur rest.
Proof.
  induction rest as [|c rest IH]; intros i j str calls cur Hstr Hcur Hlen.
  - exists 0%nat, str, calls. simpl. rewrite Nat.add_0_r.
    repeat split; try done.
  - simpl in Hlen. simpl scan.
    assert (Hj : (j < length str)%nat) by lia.
    assert (Hjc : length cur = j).
    { apply (f_equal length) in Hstr.
      rewrite length_take, length_rev in Hstr. lia. }
    destruct (is_terminator c) eqn:Hterm.
    + (* a terminator: the line str[0 .. j) is complete *)
      assert (Hline : c_str (<[j:=NUL]> (<[j:=c]> str)) = rev cur).
      { rewrite list_insert_insert_eq. rewrite c_str_insert_nul; [done|done|].
        rewrite Hstr. by apply Forall_rev. }
      rewrite Hline.
      assert (Hcalls : (if (0 <? j)%nat then calls ++ [rev cur] else calls)
                = calls ++ match cur with [] => [] | _ :: _ => [rev cur] end).
      { destruct cur; simpl in Hjc; subst j; simpl; [by rewrite app_nil_r|done]. }
      rewrite Hcalls.
      destruct (is_nul c) eqn:Hnul.
      * exists 1%nat. eexists _, _. split; [by rewrite Nat.add_1_r|].
        repeat split; [simpl; lia | intros; lia | by rewrite !length_insert |].
        simpl drop. simpl complete_lines_from. rewrite Hterm.
        rewrite <- app_assoc. unfold complete_lines. by destruct cur.
      * destruct (IH (S i) 0%nat (<[j:=NUL]> (<[j:=c]> str))
                    (calls ++ match cur with [] => [] | _ :: _ => [rev cur] end) [])
          as (k & str' & calls' & Hscan & Hk & _ & Hl & Heq).
        { by rewrite take_0. }
        { done. }
        { rewrite !length_insert. lia. }
        exists (S k), str', calls'. split.
        { rewrite Hscan. f_equal. f_equal. lia. }
        repeat split; [simpl; lia | intros; lia
                       | by rewrite Hl, !length_insert |].
        simpl drop. rewrite Heq. simpl complete_lines_from. rewrite Hterm.
        rewrite <- app_assoc. by destruct cur.
    + (* an ordinary byte joins the line *)
      assert (Hnul : is_nul c = false).
      { destruct (is_nul c) eqn:E; [|done].
        by rewrite (is_nul_terminator _ E) in Hterm. }
      destruct (IH (S i) (S j) (<[j:=c]> str) calls (c :: cur))
        as (k & str' & calls' & Hscan & Hk & _ & Hl & Heq).
      { rewrite take_S_insert by done. by rewrite Hstr. }
      { by constructor. }
      { rewrite length_insert. lia. }
      exists (S k), str', calls'. split.
      { rewrite Hscan. f_equal. f_equal. lia. }
      repeat split; [simpl; lia | intros; lia | by rewrite Hl, length_insert |].
      simpl drop. rewrite Heq. simpl complete_lines_from. by rewrite Hterm.
Qed.

(** The outer loop returns, and returns the complete lines. *)
Lemma split_loop_spec (fuel : nat) : ∀ (buffer str : list byte) calls,
  (length buffer < fuel)%nat →
  (length buffer < length str)%nat →
  split_loop fuel buffer str calls = Some (calls ++ complete_lines buffer).
Proof.
  induction fuel as [|fuel IH]; intros buffer str calls Hfuel Hstr; [lia|].
  destruct buffer as [|c0 buffer0]; [by rewrite app_nil_r|].
  assert (Hne0 : c0 :: buffer0 ≠ []) by done.
  revert Hfuel Hstr Hne0. generalize (c0 :: buffer0) as buffer.
  intros buffer Hfuel Hstr Hne0.
  assert (Hunf : split_loop (S fuel) buffer str calls
    = match skip_nul buffer with
      | None => Some calls
      | Some b => let '(i, str, calls) := scan b 0 0 str calls in
                  split_loop fuel (drop i b) str calls
      end) by (destruct buffer; done).
  rewrite Hunf. clear Hunf.
  pose proof (skip_nul_spec buffer) as Hskip.
  destruct (skip_nul buffer) as [b|].
  - destruct Hskip as (Hl & Hlen & Hne & _).
    destruct (scan_spec b 0 0 str calls [])
      as (k & str' & calls' & Hs & Hk & Hpos & Hl' & Heq).
    { by rewrite take_0. } { done. } { simpl. lia. }
    rewrite Hs. simpl.
    specialize (Hpos (Hne Hne0)).
    rewrite IH.
    + f_equal. rewrite Heq. by rewrite <- Hl.
    + rewrite length_drop. lia.
    + rewrite length_drop. lia.
  - destruct Hskip as [_ ->]. by rewrite app_nil_r.
Qed.

Theorem LogSocketCallback_complete_lines junk data :
  LogSocketCallback junk data = Some (complete_lines data).
Proof.
  unfold LogSocketCallback.
  rewrite split_loop_spec; [done | lia |].
  rewrite length_new_char_array. lia.
Qed.

(** ** Complete lines, segment by segment *)

Lemma complete_lines_from_plain cur (l : list byte) :
  plain l → complete_lines_from cur l = [].
Proof.
  intros H. revert cur. induction H as [|c l Hc _ IH]; intros cur; simpl;
    [done|]. by rewrite Hc.
Qed.

Lemma complete_lines_from_segment cur (l : list byte) t rest :
  plain l → is_terminator t = true →
  complete_lines_from cur (l ++ t :: rest)
  = match rev l ++ cur with
    | [] => complete_lines rest
    | _ :: _ => rev (rev l ++ cur) :: complete_lines rest
    end.
Proof.
  intros H Ht. revert cur. induction H as [|c l Hc _ IH]; intros cur; simpl.
  - rewrite Ht. by destruct cur.
  - rewrite Hc, IH. by rewrite <- app_assoc.
Qed.

Lemma complete_lines_segment (l : list byte) t rest :
  plain l → is_terminator t = true →
  complete_lines (l ++ t :: rest)
  = match l with [] => [] | _ :: _ => [l] end ++ complete_lines rest.
Proof.
  intros H Ht. unfold complete_lines at 1.
  rewrite complete_lines_from_segment, app_nil_r by done.
  destruct l as [|c l]; [done|].
  destruct (rev (c :: l)) eqn:E.
  - apply (f_equal length) in E. rewrite length_rev in E. done.
  - by rewrite <- E, rev_involutive.
Qed.

Lemma complete_lines_segments segs (tail : list byte) :
  Forall segment_ok segs → plain tail →
  complete_lines (flatten segs ++ tail) = nonempty_lines segs.
Proof.
  intros Hsegs Htail.
  induction Hsegs as [|[l t] segs [Hl Ht] _ IH]; simpl.
  - by apply complete_lines_from_plain.
  - rewrite <- !app_assoc. simpl.
    rewrite complete_lines_segment by done. by rewrite IH.
Qed.

(** Every chunk is a sequence of segments followed by a tail. *)
Lemma segments_exist (data : list byte) :
  ∃ segs tail, Forall segment_ok segs ∧ plain tail ∧
               data = flatten segs ++ tail.
Proof.
  induction data as [|c data (segs & tail & Hs & Ht & ->)].
  - exists [], []. by repeat split; constructor.
  - destruct (is_terminator c) eqn:Hc.
    + exists (([], c) :: segs), tail. repeat split; try done.
      constructor; [|done]. split; [constructor|done].
    + destruct segs as [|[l t] segs].
      * exists [], (c :: tail). repeat split; try done. by constructor.
      * exists ((c :: l, t) :: segs), tail.
        apply Forall_cons in Hs as [[Hl Ht'] Hs].
        repeat split; try done.
        constructor; [|done]. split; [by constructor|done].
Qed.

Lemma nonempty_lines_ok segs :
  Forall segment_ok segs →
  Forall (λ l, l ≠ [] ∧ plain l) (nonempty_lines segs).
Proof.
  induction 1 as [|[l t] segs [Hl Ht] _ IH]; simpl; [done|].
  destruct l; simpl in *; [done|]. by constructor.
Qed.

(** ** The properties of the splitter *)




(** C10.  The bytes after the last terminator of a chunk are dropped: the
    chunk gives the same calls as the chunk without them, and when a line
    [l1 ++ l2] arrives split over two chunks, the callback never sees
    [l1]; the first call of the second chunk carries [l2] alone. *)
Theorem LogSocketCallback_drops_unterminated_tail
    (junk : nat → byte) (segs : list (list byte * byte))
    (l1 l2 : list byte) (t : byte) (post : list byte) :
  Forall segment_ok segs → plain l1 → plain l2 → l1 ≠ [] →
  is_terminator t = true →
  LogSocketCallback junk (flatten segs ++ l1)
    = LogSocketCallback junk (flatten segs) ∧
  deliver_chunks junk [flatten segs ++ l1; l2 ++ t :: post]
    = Some (nonempty_lines segs
            ++ match l2 with [] => [] | _ :: _ => [l2] end
            ++ complete_lines post) ∧
  l1 ++ l2 ∉ match l2 with [] => [] | _ :: _ => [l2] end.
Proof.
  intros Hsegs Hl1 Hl2 Hne Ht. split; [|split].
  - rewrite !LogSocketCallback_complete_lines.
    rewrite complete_lines_segments by done.
    rewrite <- (app_nil_r (flatten segs)).
    rewrite complete_lines_segments; [done..|constructor].
  - simpl. rewrite !LogSocketCallback_complete_lines.
    rewrite complete_lines_segments by done.
    rewrite complete_lines_segment by done. by rewrite app_nil_r.
  - destruct l2 as [|c l2]; [apply not_elem_of_nil|].
    rewrite list_elem_of_singleton. intros E.
    apply (f_equal length) in E. rewrite length_app in E.
    destruct l1; [done|]. simpl in E. lia.
Qed.

Lemma LogSocketCallback_drops_unterminated_tail_witness :
  deliver_chunks ff_junk [[x61; LF; x62]; [x63; LF; x64; NUL]]
  = Some [[x61]; [x63]; [x64]].
Proof.
  assert (Hs : Forall segment_ok [([x61], LF)]) by repeat constructor.
  assert (H1 : plain [x62]) by repeat constructor.
  assert (H2 : plain [x63]) by repeat constructor.
  assert (Hne : [x62] ≠ []) by discriminate.
  assert (Ht : is_terminator LF = true) by reflexivity.
  exact (proj1 (proj2 (LogSocketCallback_drops_unterminated_tail
    ff_junk _ _ _ _ [x64; NUL] Hs H1 H2 Hne Ht))).
Defined.

(* ===================================================================== *)
(** * Part IV: properties of the registry and of its threads *)
(* ===================================================================== *)

Section Generic.
Context `{MobileDevice}.

Lemma exec_eval t p : ∀ s,
  exec t p s = match eval t p s with Some (s', None) => Some s' | _ => None end.
Proof.
  induction p as [|e|A f k IH|c k IH|h key k IH|h key k IH|op k IH|q _ k IH];
    intros s; simpl; try done.
  - destruct (f (globals s)) as [a g]. apply IH.
  - destruct (sync_step t op s); [apply IH|done].
Qed.

Lemma eval_seq t p q : ∀ s,
  eval t (p ;; q) s
  = match eval t p s with
    | Some (s', None) => eval t q s'
    | r => r
    end.
Proof.
  induction p as [|e|A f k IH|c k IH|h key k IH|h key k IH|op k IH|q' _ k IH];
    intros s; simpl; try done.
  - destruct (f (globals s)) as [a g]. apply IH.
  - destruct (sync_step t op s); [apply IH|done].
Qed.

Lemma eval_try_catch t p handler : ∀ s,
  eval t (try_catch p handler) s
  = match eval t p s with
    | Some (s', Some e) => eval t (handler e) s'
    | r => r
    end.
Proof.
  induction p as [|e|A f k IH|c k IH|h key k IH|h key k IH|op k IH|q' _ k IH];
    intros s; simpl; try done.
  - destruct (f (globals s)) as [a g]. apply IH.
  - destruct (sync_step t op s); [apply IH|done].
Qed.

Lemma exec_seq t p q s :
  exec t (p ;; q) s = exec t p s ≫= exec t q.
Proof.
  rewrite !exec_eval, eval_seq.
  destruct (eval t p s) as [[s' [e|]]|]; simpl; try done.
  by rewrite exec_eval.
Qed.

End Generic.

Section Frame.
Context `{MobileDevice}.

Lemma local_eval (R : Globals → Globals → Prop) t p :
  (∀ g, R g g) →
  (∀ g1 g2 g3, R g1 g2 → R g2 g3 → R g1 g3) →
  (∀ g c, R g (observe (EvCall c) g)) →
  ∀ s, local R p →
  ∃ g' r, eval t p s = Some (set_globals g' s, r) ∧ R (globals s) g'.
Proof.
  intros Hrefl Htrans Hcall.
  induction p as [|e|A f k IH|c k IH|h key k IH|h key k IH|op k IH|q _ k IH];
    intros s Hp; simpl in *; try done.
  - exists (globals s), None. by destruct s.
  - exists (globals s), (Some e). by destruct s.
  - destruct (Hp (globals s)) as [HR Hk].
    destruct (f (globals s)) as [a g]. simpl in *.
    destruct (IH a (set_globals g s) Hk) as (g' & r & -> & HR').
    exists g', r. split; [done|]. eapply Htrans; [exact HR|exact HR'].
  - destruct (IH (am_result (trace (globals s)) c)
                (set_globals (observe (EvCall c) (globals s)) s) (Hp _))
      as (g' & r & -> & HR').
    exists g', r. split; [done|]. eapply Htrans; [apply Hcall|exact HR'].
  - destruct (IH (am_string (trace (globals s)) h key)
                (set_globals (observe (EvCall (AMDeviceCopyValue h key))
                                  (globals s)) s) (Hp _))
      as (g' & r & -> & HR').
    exists g', r. split; [done|]. eapply Htrans; [apply Hcall|exact HR'].
  - destruct (IH (am_number (trace (globals s)) h key)
                (set_globals (observe (EvCall (AMDeviceCopyValue h key))
                                  (globals s)) s) (Hp _))
      as (g' & r & -> & HR').
    exists g', r. split; [done|]. eapply Htrans; [apply Hcall|exact HR'].
Qed.

Lemma local_seq R p q : local R p → local R q → local R (p ;; q).
Proof.
  induction p as [|e|A f k IH|c k IH|h key k IH|h key k IH|op k IH|q' _ k IH];
    simpl; intros Hp Hq; try done.
  - intros g. destruct (Hp g). split; [done|]. by apply IH.
  - intros r. by apply IH.
  - intros r. by apply IH.
  - intros r. by apply IH.
Qed.

Lemma local_try_catch R p handler :
  local R p → (∀ e, local R (handler e)) → local R (try_catch p handler).
Proof.
  induction p as [|e|A f k IH|c k IH|h key k IH|h key k IH|op k IH|q' _ k IH];
    simpl; intros Hp Hq; try done.
  - intros g. destruct (Hp g). split; [done|]. by apply IH.
  - intros r. by apply IH.
  - intros r. by apply IH.
  - intros r. by apply IH.
Qed.

Lemma enriched_device_refl d : enriched_device 0 d d.
Proof. unfold enriched_device. repeat split; try done. lia. Qed.

Lemma enriched_device_trans n m d1 d2 d3 :
  enriched_device n d1 d2 → enriched_device m d2 d3 →
  enriched_device (n + m) d1 d3.
Proof.
  unfold enriched_device.
  intros (?&?&?&?&?&?&?&Hk1) (?&?&?&?&?&?&?&Hk2).
  repeat split; try congruence; [lia|].
  intros key Hkey. rewrite Hk2, Hk1; done.
Qed.

Lemma enriched_refl device g : enriched device 0 g g.
Proof.
  unfold enriched. repeat split; try done.
  - exists []. by rewrite app_nil_r.
  - destruct (heap g !! device) as [d|] eqn:E; [|done].
    exists d. split; [done|]. apply enriched_device_refl.
Qed.

Lemma enriched_trans device n m g1 g2 g3 :
  enriched device n g1 g2 → enriched device m g2 g3 →
  enriched device (n + m) g1 g3.
Proof.
  unfold enriched.
  intros (?&?&?&?&?&?&[c1 Hc1]&Hh1&Hd1) (?&?&?&?&?&?&[c2 Hc2]&Hh2&Hd2).
  repeat split; try congruence.
  - exists (c1 ++ c2). by rewrite Hc2, Hc1, map_app, app_assoc.
  - intros p Hp. by rewrite Hh2, Hh1.
  - destruct (heap g1 !! device) as [d|].
    + destruct Hd1 as (d' & Hd' & He). rewrite Hd' in Hd2.
      destruct Hd2 as (d'' & Hd'' & He').
      exists d''. split; [done|]. by eapply enriched_device_trans.
    + by rewrite Hd1 in Hd2.
Qed.

Lemma enriched_call device g c : enriched device 0 g (observe (EvCall c) g).
Proof.
  unfold enriched. simpl. repeat split; try done.
  - by exists [c].
  - destruct (heap g !! device) as [d|] eqn:E; [|done].
    exists d. split; [done|]. apply enriched_device_refl.
Qed.

Lemma enriched_update device n f g :
  (∀ d, heap g !! device = Some d → enriched_device n d (f d)) →
  enriched device n g (update device f g).
Proof.
  intros Hf. unfold enriched, update. simpl. repeat split; try done.
  - exists []. by rewrite app_nil_r.
  - intros p Hp. by rewrite lookup_alter_ne.
  - rewrite lookup_alter_eq.
    destruct (heap g !! device) as [d|] eqn:E; simpl; [|done].
    exists (f d). split; [done|]. by apply Hf.
Qed.

Lemma deref_lookup g device d :
  heap g !! device = Some d → deref g device = d.
Proof. unfold deref. by intros ->. Qed.

End Frame.

Section Worker.
Context `{MobileDevice}.

Lemma set_globals_id s : set_globals (globals s) s = s.
Proof. by destruct s. Qed.

Lemma eval_Sync t op k s :
  eval t (Sync op k) s
  = match sync_step t op s with Some s' => eval t k s' | None => None end.
Proof. done. Qed.

Lemma eval_Upd t f k s :
  eval t (Upd f k) s = eval t k (set_globals (f (globals s)) s).
Proof. done. Qed.

Lemma eval_Get {A} t (f : Globals → A) k s :
  eval t (Get f k) s = eval t (k (f (globals s))) s.
Proof. simpl. by rewrite set_globals_id. Qed.

Lemma local_eval_enriched t device p s :
  local (enriched device 0) p →
  ∃ g' r, eval t p s = Some (set_globals g' s, r) ∧
          enriched device 0 (globals s) g'.
Proof.
  apply local_eval.
  - apply enriched_refl.
  - intros g1 g2 g3. apply (enriched_trans device 0 0).
  - apply enriched_call.
Qed.

Lemma enriched_device_props key value d :
  key ∈ enriched_keys →
  enriched_device 0 d (set_props (<[key := value]> (props d)) d).
Proof.
  intros Hkey. unfold enriched_device. simpl. repeat split; try done; [lia|].
  intros key' Hkey'. rewrite lookup_insert_ne; [done|]. by intros ->.
Qed.

Lemma local_set device key id :
  key ∈ enriched_keys → local (enriched device 0) (set device key id).
Proof.
  intros Hkey. simpl. intros g. split; [apply enriched_refl|].
  intros [value|]; simpl; [|done].
  intros g'. split; [|done].
  apply enriched_update. intros d _. by apply enriched_device_props.
Qed.

Lemma local_connect_session device h :
  local (enriched device 0) (connect_session h).
Proof.
  unfold connect_session.
  repeat apply local_seq; repeat (simpl; intros; try case_match); done.
Qed.

Lemma local_host_attached device :
  local (enriched device 0)
    (Get (λ g, handle (deref g device)) (λ h,
     CopyNumber h "HostAttached" (λ value,
       Upd (update device (set_hostConnected (value =? 1))) Ret))).
Proof.
  simpl. intros g. split; [apply enriched_refl|]. intros value g'.
  split; [|done]. apply enriched_update. intros d _.
  unfold enriched_device. simpl. repeat split; try done. lia.
Qed.

Lemma eval_Atomic {A} t (f : Globals → A * Globals) k s :
  eval t (Atomic f k) s
  = eval t (k (f (globals s)).1) (set_globals (f (globals s)).2 s).
Proof. simpl. by destruct (f (globals s)). Qed.

Lemma eval_connect t device s :
  ∃ g' r, eval t (connect device) s = Some (set_globals g' s, r) ∧
          enriched device 1 (globals s) g'.
Proof.
  unfold connect. rewrite eval_Atomic. cbv beta zeta.
  match goal with |- context [eval t ?p ?s0] =>
    destruct (local_eval_enriched t device p s0) as (g' & r & Heq & HR)
  end.
  { case_match; [done|apply local_connect_session]. }
  exists g', r. split; [exact Heq|].
  change 1 with (1 + 0). eapply enriched_trans; [|exact HR].
  apply enriched_update. intros d Hd. rewrite (deref_lookup _ _ _ Hd).
  unfold enriched_device. simpl. repeat split; try done.
Qed.

Lemma local_fetch_rest device :
  local (enriched device 0)
    (set device "name" "DeviceName" ;;
     set device "buildVersion" "BuildVersion" ;;
     set device "cpuArchitecture" "CPUArchitecture" ;;
     set device "deviceClass" "DeviceClass" ;;
     set device "deviceColor" "DeviceColor" ;;
     set device "hardwareModel" "HardwareModel" ;;
     set device "modelNumber" "ModelNumber" ;;
     set device "productType" "ProductType" ;;
     set device "productVersion" "ProductVersion" ;;
     set device "serialNumber" "SerialNumber" ;;
     Get (λ g, handle (deref g device)) (λ h,
     CopyNumber h "HostAttached" (λ value,
       Upd (update device (set_hostConnected (value =? 1))) Ret))).
Proof.
  repeat (apply local_seq;
           [apply local_set; unfold enriched_keys; set_solver|]).
  apply local_host_attached.
Qed.

(** The [try] block of [getDeviceInfo] with its [catch (...)]: it always
    comes to its end, and all it does is call MobileDevice and enrich the
    object. *)
Lemma eval_fetch_info t device s :
  ∃ g', eval t (try_catch (fetch_info device) (λ _, Ret)) s
        = Some (set_globals g' s, None) ∧
        enriched device 1 (globals s) g'.
Proof.
  rewrite eval_try_catch. unfold fetch_info. rewrite eval_seq.
  destruct (eval_connect t device s) as (g1 & r1 & -> & H1).
  destruct r1 as [e|].
  { exists g1. done. }
  destruct (local_eval_enriched t device _ (set_globals g1 s)
              (local_fetch_rest device)) as (g2 & r2 & -> & H2).
  exists g2. split; [by destruct r2|].
  change 1 with (1 + 0). by eapply enriched_trans.
Qed.

Lemma eval_disconnect t device s :
  eval t (disconnect device false) s
  = Some (set_globals (disconnected_globals device (globals s)) s, None).
Proof.
  unfold disconnect, disconnected_globals. rewrite eval_Atomic.
  cbv beta zeta. cbn [fst snd].
  by destruct (connected (deref (globals s) device) - 1 <=? 0).
Qed.

Lemma eval_release_barrier t g sc ths :
  eval t release_barrier (mkSys g sc None (Some t) None ths)
  = Some (mkSys (barrier_globals g) sc None None None
            (if pendingEvents (barrier_globals g) =? 0
             then wake_one ths else ths), None).
Proof.
  unfold release_barrier, barrier_globals. simpl.
  destruct (pendingEvents _ =? 0); simpl;
    repeat (rewrite Nat.eqb_refl; simpl); done.
Qed.

(** The run of the worker, state by state. *)
Lemma exec_getDeviceInfo t device g ths :
  ∃ g1,
    eval t (try_catch (fetch_info device) (λ _, Ret))
      (mkSys (worker_start_globals device g) 0 None (Some t) None ths)
    = Some (mkSys g1 0 None (Some t) None ths, None) ∧
    enriched device 1 (worker_start_globals device g) g1 ∧
    exec t (getDeviceInfo device) (mkSys g 0 None None None ths)
    = let g3 := barrier_globals (disconnected_globals device g1) in
      Some (mkSys g3 0 None None None
              (if pendingEvents g3 =? 0 then wake_one ths else ths)).
Proof.
  destruct (eval_fetch_info t device
              (mkSys (worker_start_globals device g) 0 None (Some t) None ths))
    as (g1 & Hev1 & H1).
  exists g1. split; [exact Hev1|]. split; [exact H1|].
  rewrite exec_eval. unfold getDeviceInfo.
  rewrite eval_Sync. cbn [sync_step exclusive upgrade is_free andb].
  cbn [globals shared_count pendingMutex threads].
  rewrite eval_Sync.
  cbn [sync_step exclusive upgrade is_free held_by andb shared_count].
  rewrite Nat.eqb_refl. cbn [andb Nat.eqb].
  cbn [globals shared_count pendingMutex threads].
  rewrite !eval_Upd.
  unfold set_globals.
  cbn [globals shared_count upgrade exclusive pendingMutex threads].
  rewrite eval_seq.
  change (eval t (try_catch (fetch_info device) (λ _ : runtime_error, Ret)) ?s0)
    with (eval t (try_catch (fetch_info device) (λ _ : runtime_error, Ret))
            (mkSys (worker_start_globals device g) 0 None (Some t) None ths)).
  rewrite Hev1. rewrite eval_seq, eval_disconnect.
  unfold set_globals.
  cbn [globals shared_count upgrade exclusive pendingMutex threads].
  by rewrite eval_release_barrier.
Qed.

(** *** What the worker leaves in the globals *)

Lemma worker_start_globals_frame device d g :
  heap g !! device = Some d →
  heap (worker_start_globals device g) = heap g ∧
  trace (worker_start_globals device g) = trace g ∧
  pendingEvents (worker_start_globals device g) = pendingEvents g ∧
  devicesChanged (worker_start_globals device g) = true ∧
  connectedDevices (worker_start_globals device g)
  = if CFDictionaryContainsKey (connectedDevices g) (udid d)
    then connectedDevices g
    else <[udid d := device]> (connectedDevices g).
Proof.
  intros Hd. unfold worker_start_globals. cbv zeta.
  assert (deref (set_devicesChanged true g) device = d) as ->.
  { by apply deref_lookup. }
  cbn [connectedDevices set_devicesChanged].
  by destruct (CFDictionaryContainsKey (connectedDevices g) (udid d)).
Qed.

Lemma disconnected_globals_frame device d g :
  heap g !! device = Some d →
  connectedDevices (disconnected_globals device g) = connectedDevices g ∧
  pendingEvents (disconnected_globals device g) = pendingEvents g ∧
  devicesChanged (disconnected_globals device g) = devicesChanged g ∧
  heap (disconnected_globals device g) !! device
  = Some (set_connected (Z.max 0 (connected d - 1)) d) ∧
  trace (disconnected_globals device g)
  = trace g ++ (if connected d - 1 <=? 0
                then [EvCall (AMDeviceStopSession (handle d));
                      EvCall (AMDeviceDisconnect (handle d))]
                else []).
Proof.
  intros Hd. unfold disconnected_globals. cbv zeta.
  rewrite (deref_lookup _ _ _ Hd).
  destruct (connected d - 1 <=? 0) eqn:E.
  - apply Z.leb_le in E. repeat split.
    + cbn. rewrite !lookup_alter_eq, Hd. cbn. by rewrite Z.max_l by lia.
    + cbn. by rewrite <- app_assoc.
  - apply Z.leb_gt in E. repeat split.
    + cbn. rewrite lookup_alter_eq, Hd. cbn. by rewrite Z.max_r by lia.
    + cbn. by rewrite app_nil_r.
Qed.

Lemma barrier_globals_frame g :
  connectedDevices (barrier_globals g) = connectedDevices g ∧
  heap (barrier_globals g) = heap g ∧
  trace (barrier_globals g) = trace g ∧
  devicesChanged (barrier_globals g) = devicesChanged g ∧
  pendingEvents (barrier_globals g)
  = if 0 <? pendingEvents g then pendingEvents g - 1 else pendingEvents g.
Proof. unfold barrier_globals. by destruct (0 <? pendingEvents g). Qed.

(** The worker comes to its end and the device is registered. *)
Lemma getDeviceInfo_registers t device d (s : Sys) :
  quiescent s →
  heap (globals s) !! device = Some d →
  ∃ s', exec t (getDeviceInfo device) s = Some s' ∧
        quiescent s' ∧
        connectedDevices (globals s')
        = (if CFDictionaryContainsKey (connectedDevices (globals s)) (udid d)
           then connectedDevices (globals s)
           else <[udid d := device]> (connectedDevices (globals s))).
Proof.
  intros (Hsc & Hup & Hex & Hpm) Hd.
  destruct s as [g sc up ex pm ths]. cbn in Hsc, Hup, Hex, Hpm, Hd. subst.
  destruct (exec_getDeviceInfo t device g ths) as (g1 & _ & H1 & Hexec).
  rewrite Hexec. cbv zeta. eexists. split; [reflexivity|].
  split; [done|]. cbn [globals].
  destruct (worker_start_globals_frame device d g Hd)
    as (Hh0 & _ & _ & _ & Hreg0).
  destruct H1 as (Hreg & _ & _ & _ & _ & _ & _ & _ & Hdev).
  rewrite Hh0, Hd in Hdev. destruct Hdev as (d1 & Hd1 & _).
  rewrite (proj1 (barrier_globals_frame _)).
  rewrite (proj1 (disconnected_globals_frame device d1 g1 Hd1)).
  by rewrite Hreg, Hreg0.
Qed.

(** When [AMDeviceConnect] fails, the [try] block ends there. *)
Lemma eval_fetch_info_connect_fails t device d (s : Sys) :
  heap (globals s) !! device = Some d →
  connected d ≤ 0 →
  am_result (trace (globals s)) (AMDeviceConnect (handle d)) ≠ MDERR_OK →
  eval t (try_catch (fetch_info device) (λ _, Ret)) s
  = Some (set_globals
            (observe (EvCall (AMDeviceConnect (handle d)))
               (update device (set_connected (connected d + 1)) (globals s)))
            s, None).
Proof.
  intros Hd Hc Hrval.
  rewrite eval_try_catch. unfold fetch_info. rewrite eval_seq.
  unfold connect. rewrite eval_Atomic. cbv beta zeta. cbn [fst snd].
  rewrite (deref_lookup _ _ _ Hd).
  assert ((0 <? connected d) = false) as -> by (apply Z.ltb_ge; lia).
  unfold connect_session. rewrite eval_seq.
  cbn [eval globals set_globals trace update set_heap].
  set (rval := am_result (trace (globals s)) (AMDeviceConnect (handle d))) in *.
  destruct (rval =? MDERR_SYSCALL); [reflexivity|].
  destruct (rval =? MDERR_QUERY_FAILED); [reflexivity|].
  destruct (rval =? MDERR_INVALID_ARGUMENT); [reflexivity|].
  assert ((rval =? MDERR_OK) = false) as -> by (by apply Z.eqb_neq).
  reflexivity.
Qed.


End Worker.

Section Discipline.
Context `{MobileDevice}.

Ltac prog_induction p :=
  induction p as [|?e|?A ?f ?k IH|?c ?k IH|?h ?key ?k IH|?h ?key ?k IH
                 |?op ?k IH|?q _ ?k IH].

Lemma straight_seq p q : straight p → straight q → straight (p ;; q).
Proof. prog_induction p; simpl; intros Hp Hq; try done; intros; by apply IH. Qed.

Lemma straight_try_catch p handler :
  straight p → (∀ e, straight (handler e)) → straight (try_catch p handler).
Proof. prog_induction p; simpl; intros Hp Hq; try done; intros; by apply IH. Qed.

Lemma io_locked_seq p q :
  straight p → io_locked true q → io_locked true (p ;; q).
Proof.
  prog_induction p; simpl; intros Hp Hq; try done;
    try (split; [done|]); intros; by apply IH.
Qed.

Lemma spawns_locked_seq p q :
  spawns_locked p → spawns_locked q → spawns_locked (p ;; q).
Proof.
  prog_induction p; simpl; intros Hp Hq; try done; try (intros; by apply IH).
  destruct Hp. split; [done|]. by apply IH.
Qed.

Lemma spawns_locked_try_catch p handler :
  spawns_locked p → (∀ e, spawns_locked (handler e)) →
  spawns_locked (try_catch p handler).
Proof.
  prog_induction p; simpl; intros Hp Hq; try done; try (intros; by apply IH).
  destruct Hp. split; [done|]. by apply IH.
Qed.

Lemma straight_spawns_locked p : straight p → spawns_locked p.
Proof. prog_induction p; simpl; intros Hp; try done; intros; by apply IH. Qed.

Ltac straight_tac :=
  repeat first
    [ done
    | apply straight_seq
    | apply straight_try_catch
    | progress (simpl; intros)
    | case_match ].

Lemma straight_connect_session h : straight (connect_session h).
Proof. unfold connect_session. straight_tac. Qed.

Lemma straight_connect device : straight (connect device).
Proof.
  unfold connect. simpl. intros a. case_match; [done|].
  apply straight_connect_session.
Qed.

Lemma straight_disconnect device force : straight (disconnect device force).
Proof. unfold disconnect. straight_tac. Qed.

Lemma straight_set device key id : straight (set device key id).
Proof. unfold set. straight_tac. Qed.

Lemma straight_fetch_info device : straight (fetch_info device).
Proof.
  unfold fetch_info.
  repeat (apply straight_seq;
           [first [apply straight_connect | apply straight_set]|]).
  straight_tac.
Qed.

Lemma straight_delete_device device : straight (delete_device device).
Proof.
  unfold delete_device. apply straight_seq; [apply straight_disconnect|].
  straight_tac.
Qed.

(** The worker goes to the device with the exclusive lock in its hands. *)
Lemma io_locked_getDeviceInfo device : io_locked false (getDeviceInfo device).
Proof.
  unfold getDeviceInfo. cbn [io_locked Upd Get]. intros _ _.
  apply io_locked_seq.
  { apply straight_try_catch; [apply straight_fetch_info|done]. }
  apply io_locked_seq; [apply straight_disconnect|].
  unfold release_barrier. simpl. intros _ []; simpl; done.
Qed.

Lemma spawns_locked_on_device_notification dev msg :
  spawns_locked (on_device_notification dev msg).
Proof.
  unfold on_device_notification. cbn [spawns_locked Upd Get]. intros exists_.
  repeat case_match; cbn [spawns_locked Upd Get]; try done.
  - intros device _ _ _. split; [apply io_locked_getDeviceInfo|done].
  - intros device _ _ _. apply spawns_locked_seq.
    + apply straight_spawns_locked, straight_delete_device.
    + cbn [spawns_locked Upd Get]. done.
Qed.

Lemma spawns_locked_host_call c : spawns_locked (host_call c).
Proof.
  destruct c as [info|fired| |info|]; cbn [host_call].
  - apply straight_spawns_locked. unfold setEmitter. straight_tac.
  - unfold pump_run_loop. apply spawns_locked_seq.
    + induction fired as [|[dev msg] fired IH]; [done|].
      unfold run_loop. cbn [foldr]. fold (run_loop fired).
      apply spawns_locked_seq; [|done].
      apply spawns_locked_on_device_notification.
    + apply straight_spawns_locked. unfold pump_check. straight_tac.
  - unfold devices. simpl. intros []; simpl; done.
  - apply straight_spawns_locked. unfold log.
    repeat first [ done | case_match | progress (simpl; intros) ].
  - apply straight_spawns_locked. unfold cleanup.
    cbn [straight Upd Get]. intros keys.
    induction keys as [|key keys IH]; [done|].
    cbn [foldr straight Upd Get].
    intros device _. apply straight_seq; [apply straight_delete_device|done].
Qed.

Lemma spawns_locked_host_program calls : spawns_locked (host_program calls).
Proof.
  induction calls as [|c calls IH]; [done|].
  unfold host_program. cbn [foldr]. fold (host_program calls).
  apply spawns_locked_seq; [apply spawns_locked_host_call|done].
Qed.

(** *** The discipline is kept by every step *)

Lemma thread_ok_frame (s s' : Sys) (t : tid) (th : Thread) :
  held_by t (exclusive s') = held_by t (exclusive s) →
  thread_ok s t th → thread_ok s' t th.
Proof. unfold thread_ok. destruct t; [done|]. by intros ->. Qed.

Lemma held_by_true t o : held_by t o = true → o = Some t.
Proof.
  destruct o as [t'|]; simpl; [|done].
  intros E. apply Nat.eqb_eq in E. by subst.
Qed.

Lemma held_by_other t t0 : t ≠ t0 → held_by t (Some t0) = false.
Proof. intros Hne. simpl. apply Nat.eqb_neq. congruence. Qed.

Lemma is_free_true (o : option nat) : is_free o = true → o = None.
Proof. by destruct o. Qed.

Lemma sync_step_exclusive t0 op s s' :
  sync_step t0 op s = Some s' →
  (∀ t, t ≠ t0 → held_by t (exclusive s') = held_by t (exclusive s)) ∧
  (∀ t, exclusive s' = Some t → exclusive s = Some t ∨ t = t0) ∧
  match op with
  | unlock_upgrade_and_lock => held_by t0 (exclusive s') = true
  | unlock_and_lock_upgrade => held_by t0 (exclusive s') = false
  | _ => exclusive s' = exclusive s
  end ∧
  match op with
  | notify_one => threads s' = wake_one (threads s)
  | _ => threads s' = threads s
  end.
Proof.
  destruct op; simpl; intros Hs;
    repeat match type of Hs with
           | (if ?b then _ else _) = _ => destruct b eqn:?; [|done]
           end;
    inversion Hs; subst; simpl; try (repeat split; by auto).
  - (* unlock_upgrade_and_lock *)
    apply andb_prop in Heqb as [Heqb _]. apply andb_prop in Heqb as [_ Hf].
    apply is_free_true in Hf. rewrite Hf. repeat split; try done.
    + intros t Hne. apply Nat.eqb_neq. congruence.
    + intros t [= ->]. by right.
    + apply Nat.eqb_refl.
  - (* unlock_and_lock_upgrade *)
    apply held_by_true in Heqb. rewrite Heqb. repeat split; try done.
    intros t Hne. symmetry. apply Nat.eqb_neq. congruence.
Qed.

Lemma wake_one_length l : length (wake_one l) = length l.
Proof. induction l as [|[p|k] l IH]; simpl; by rewrite ?IH. Qed.

Lemma wake_one_lookup l t th :
  wake_one l !! t = Some th →
  ∃ th0, l !! t = Some th0 ∧
         (th = th0 ∨ ∃ k, th0 = Waiting k ∧ th = Running (Sync lock_pending k)).
Proof.
  revert t. induction l as [|[p|k] l IH]; intros [|t]; simpl; try done.
  - intros [= <-]. eauto.
  - apply IH.
  - intros [= <-]. eexists. split; [done|]. right. eauto.
  - intros E. eauto.
Qed.

Lemma thread_ok_woken (s : Sys) (t : tid) (k : Prog) :
  thread_ok s t (Waiting k) → thread_ok s t (Running (Sync lock_pending k)).
Proof. by destruct t. Qed.

Lemma lock_discipline_init calls : lock_discipline (init calls).
Proof.
  split; [done|]. intros [|t] th; simpl; [|done].
  intros [= <-]. apply spawns_locked_host_program.
Qed.

(** What a thread has to satisfy after its own step. *)
Lemma lock_discipline_set_thread (s' : Sys) (t : tid) (th : Thread) :
  (t < length (threads s'))%nat →
  (∀ t', exclusive s' = Some t' → (t' < length (threads s'))%nat) →
  (∀ t' th', t' ≠ t → threads s' !! t' = Some th' → thread_ok s' t' th') →
  thread_ok s' t th →
  lock_discipline (set_thread t th s').
Proof.
  intros Ht Hex Hoth Hown. split; simpl.
  - intros t' E. rewrite length_insert. by apply Hex.
  - intros t' th' Hl.
    apply (thread_ok_frame s'); [done|].
    destruct (decide (t' = t)) as [->|Hne].
    + rewrite list_lookup_insert_eq in Hl by done.
      inversion Hl; subst. exact Hown.
    + rewrite list_lookup_insert_ne in Hl by done. by apply Hoth.
Qed.

Lemma lock_discipline_step a s s' :
  lock_discipline s → step a s = Some s' → lock_discipline s'.
Proof.
  intros [Hex Hths] Hstep.
  assert (Hok : ∀ t th, threads s !! t = Some th → thread_ok s t th)
    by exact Hths.
  destruct a as [t|t]; simpl in Hstep.
  - destruct (threads s !! t) as [[p|k]|] eqn:Ht; try done.
    pose proof (lookup_lt_Some _ _ _ Ht) as Hlt.
    pose proof (Hok _ _ Ht) as Hp.
    destruct p as [|e|A f k|c k|h key k|h key k|op k|q k];
      simpl in Hstep; try done.
    + (* Atomic *)
      destruct (f (globals s)) as [a g]. inversion Hstep; subst.
      apply lock_discipline_set_thread; simpl; try done.
      all: try (intros t' th' _ Hl;
                apply (thread_ok_frame s); [done|by apply Hok]).
      all: try (destruct t; simpl in *; apply Hp).
    + inversion Hstep; subst.
      apply lock_discipline_set_thread; simpl; try done.
      all: try (intros t' th' _ Hl;
                apply (thread_ok_frame s); [done|by apply Hok]).
      all: try (destruct t; simpl in *; apply Hp).
    + inversion Hstep; subst.
      apply lock_discipline_set_thread; simpl; try done.
      all: try (intros t' th' _ Hl;
                apply (thread_ok_frame s); [done|by apply Hok]).
      all: try (destruct t; simpl in *; apply Hp).
    + inversion Hstep; subst.
      apply lock_discipline_set_thread; simpl; try done.
      all: try (intros t' th' _ Hl;
                apply (thread_ok_frame s); [done|by apply Hok]).
      all: try (destruct t; simpl in *; apply Hp).
    + (* Sync *)
      assert (op = wait_pending ∨ op ≠ wait_pending) as [->|Hop]
        by (destruct op; auto).
      { destruct (held_by t (pendingMutex s)); [|done].
        inversion Hstep; subst.
        apply lock_discipline_set_thread; simpl; try done.
        all: try (intros t' th' _ Hl;
                  apply (thread_ok_frame s); [done|by apply Hok]).
        all: try (destruct t; simpl in *; apply Hp). }
      assert (Hstep' : match sync_step t op s with
                       | Some s0 => Some (set_thread t (Running k) s0)
                       | None => None end = Some s').
      { destruct op; try done;
          destruct (sync_step t _ s); done. }
      clear Hstep. destruct (sync_step t op s) as [s0|] eqn:Hs; [|done].
      inversion Hstep'; subst. clear Hstep'.
      destruct (sync_step_exclusive _ _ _ _ Hs) as (Hoth & Hown & Hme & Hthr).
      assert (Hlen : length (threads s0) = length (threads s)).
      { destruct op; rewrite Hthr; try done. apply wake_one_length. }
      apply lock_discipline_set_thread.
      * lia.
      * intros t' E. rewrite Hlen. destruct (Hown _ E) as [E'| ->]; auto.
      * intros t' th' Hne Hl.
        assert (∃ th0, threads s !! t' = Some th0 ∧
                  (th' = th0 ∨ ∃ k0, th0 = Waiting k0 ∧
                             th' = Running (Sync lock_pending k0)))
          as (th0 & Hl0 & Hth0).
        { destruct op; rewrite Hthr in Hl; eauto using wake_one_lookup. }
        apply (thread_ok_frame s); [by apply Hoth|].
        destruct Hth0 as [->|(k0 & -> & ->)]; [by apply Hok|].
        apply thread_ok_woken. by apply Hok.
      * unfold thread_ok in *. destruct t as [|t]; [exact Hp|].
        simpl prog_of in *.
        destruct op; simpl in Hp; try (rewrite Hme; exact Hp); try done.
    + (* Spawn *)
      inversion Hstep; subst.
      assert (Hq : io_locked false q ∧ thread_ok s t (Running k)).
      { destruct t; simpl in *; destruct Hp; done. }
      destruct Hq as [Hq Hk].
      apply lock_discipline_set_thread; simpl.
      * rewrite length_app. simpl. lia.
      * intros t' E. rewrite length_app. simpl. apply Hex in E. lia.
      * intros t' th' Hne Hl.
        apply lookup_app_Some in Hl as [Hl|[Hge Hl]].
        -- apply (thread_ok_frame s); [done|by apply Hok].
        -- apply list_lookup_singleton_Some in Hl as [Hz <-].
           assert (t' = length (threads s)) as -> by lia.
           assert (Hfree : held_by (length (threads s)) (exclusive s) = false).
           { destruct (exclusive s) as [t0|] eqn:E0; [|done].
             apply held_by_other. specialize (Hex t0 eq_refl). lia. }
           unfold thread_ok. simpl exclusive. rewrite Hfree.
           by destruct (length (threads s)); [lia|].
      * exact Hk.
  - destruct (threads s !! t) as [[p|k]|] eqn:Ht; try done.
    inversion Hstep; subst.
    apply lock_discipline_set_thread; simpl; try done.
    + by eapply lookup_lt_Some.
    + intros t' th' _ Hl. apply (thread_ok_frame s); [done|by apply Hok].
    + apply thread_ok_woken. by apply Hok.
Qed.

Lemma lock_discipline_run schedule : ∀ s s',
  lock_discipline s → run schedule s = Some s' → lock_discipline s'.
Proof.
  induction schedule as [|a schedule IH]; intros s s' Hs; simpl.
  - by intros [= <-].
  - destruct (step a s) as [s1|] eqn:E; [|done].
    apply IH. by eapply lock_discipline_step.
Qed.

(** C3, corrected.  In every state that the module reaches from [init],
    under every schedule and for every sequence of calls of the host, a
    thread other than the main thread that is about to go to the device
    (to connect, pair, start the session, read a property, stop the
    session, disconnect) holds the exclusive lock on [deviceMutex]: the
    worker takes the lock when it starts and keeps it for all of its
    device I/O. *)
Theorem worker_holds_lock_during_io (calls : list HostCall)
    (schedule : list Action) (s : Sys) (t : tid) (th : Thread) :
  run schedule (init calls) = Some s →
  threads s !! t = Some th → t ≠ 0%nat → at_io th →
  exclusive s = Some t.
Proof.
  intros Hrun Ht Hne Hio.
  destruct (lock_discipline_run _ _ _ (lock_discipline_init calls) Hrun)
    as [_ Hths].
  specialize (Hths _ _ Ht). destruct t as [|t]; [done|].
  apply held_by_true.
  destruct th as [[]|]; simpl in *; try done; by destruct Hths.
Qed.

End Discipline.

Section Pump.
Context `{MobileDevice}.

Lemma pump_tail_unchanged (s : Sys) :
  devicesChanged (globals s) = false →
  exec 0 (pump_check ;; ReturnUndefined) s
  = Some (set_globals (observe (EvOutcome returned_undefined) (globals s)) s).
Proof.
  intros Hc. unfold pump_check, ReturnUndefined. simpl.
  rewrite Hc. simpl. by destruct s.
Qed.

Lemma pump_tail_changed (s : Sys) :
  devicesChanged (globals s) = true →
  exec 0 (pump_check ;; ReturnUndefined) s
  = Some (set_globals
            (observe (EvOutcome returned_undefined)
               (emit_devicesChanged
                  (set_devicesChanged false
                     (debug "Devices changed, emitting event" [] (globals s)))))
            s).
Proof.
  intros Hc. unfold pump_check, ReturnUndefined. simpl.
  rewrite Hc. simpl. by destruct s.
Qed.


End Pump.

Section Log.
Context `{MobileDevice}.

Lemma length_nonempty (id : string) :
  id ≠ ""%string → (String.length id =? 0)%nat = false.
Proof. by destruct id. Qed.

(** [log] up to the test of [hostConnected], for well-formed arguments and
    a registered identifier. *)
Lemma eval_log_registered id f device (s : Sys) :
  id ≠ ""%string →
  connectedDevices (globals s) !! id = Some device →
  eval 0 (log [JsString id; JsFunction f]) s
  = let s1 := set_globals
                (set_next_resource (S (next_resource (globals s))) (globals s))
                s in
    if negb (hostConnected (deref (globals s) device)) then
      eval 0 (ThrowError (Error "iOS device must be connected to host")) s1
    else
      eval 0
        (try_catch
           (connect device ;;
            startService device AMSVC_SYSLOG_RELAY (λ connection,
            disconnect device false ;;
            Atomic (λ g, if CFSocketCreateWithNative (trace g) connection
                         then (Some (next_resource g),
                               set_next_resource (S (next_resource g)) g)
                         else (None, g))
            (λ socket,
            match socket with
            | None => ThrowError (Error "Failed to create socket")
            | Some socket =>
              Atomic (λ g, if CFSocketCreateRunLoopSource (trace g) socket
                           then (Some (next_resource g),
                                 set_next_resource (S (next_resource g)) g)
                           else (None, g))
              (λ source,
              match source with
              | None =>
                  ThrowError (Error "Failed to create socket run loop source")
              | Some source =>
                Upd (observe (EvAddSource source)) (
                Upd (λ g, release_log (deref g device) g) (
                Upd (update device
                       (set_log connection socket source
                          (next_resource (globals s))))
                ReturnUndefined))
              end)
            end)))
           (λ e, ThrowError (Error_what e))) s1.
Proof.
  intros Hid Hreg. unfold log.
  cbn [length Nat.ltb Nat.leb info_at nth IsUndefined IsFunction orb negb].
  rewrite (length_nonempty _ Hid).
  rewrite eval_Get. unfold CFDictionaryContainsKey. rewrite Hreg.
  cbn [negb]. rewrite eval_Atomic. cbn [fst snd].
  rewrite eval_Get. cbn [globals set_globals connectedDevices set_next_resource].
  rewrite Hreg. simpl default.
  rewrite eval_Get.
  by destruct (hostConnected _).
Qed.

Lemma exec_ThrowError e (s : Sys) :
  exec 0 (ThrowError e) s
  = Some (set_globals (observe (EvOutcome (threw e)) (globals s)) s).
Proof. done. Qed.


End Log.

Section Dispatcher.
Context `{MobileDevice}.

Lemma exec_Sync t op k s :
  exec t (Sync op k) s
  = match sync_step t op s with Some s' => exec t k s' | None => None end.
Proof. done. Qed.

Lemma exec_Upd t f k s :
  exec t (Upd f k) s = exec t k (set_globals (f (globals s)) s).
Proof. done. Qed.

Lemma exec_Get {A} t (f : Globals → A) k s :
  exec t (Get f k) s = exec t (k (f (globals s))) s.
Proof. simpl. by rewrite set_globals_id. Qed.

Lemma exec_Atomic {A} t (f : Globals → A * Globals) k s :
  exec t (Atomic f k) s
  = exec t (k (f (globals s)).1) (set_globals (f (globals s)).2 s).
Proof. simpl. by destruct (f (globals s)). Qed.

Lemma exec_Upd_mk t f k g sc up ex pm ths :
  exec t (Upd f k) (mkSys g sc up ex pm ths)
  = exec t k (mkSys (f g) sc up ex pm ths).
Proof. done. Qed.

Lemma exec_Get_mk {A} t (f : Globals → A) k g sc up ex pm ths :
  exec t (Get f k) (mkSys g sc up ex pm ths)
  = exec t (k (f g)) (mkSys g sc up ex pm ths).
Proof. done. Qed.

Lemma exec_Atomic_mk {A} t (f : Globals → A * Globals) k g sc up ex pm ths :
  exec t (Atomic f k) (mkSys g sc up ex pm ths)
  = exec t (k (f g).1) (mkSys (f g).2 sc up ex pm ths).
Proof. simpl. by destruct (f g). Qed.

Lemma eval_Upd_mk t f k g sc up ex pm ths :
  eval t (Upd f k) (mkSys g sc up ex pm ths)
  = eval t k (mkSys (f g) sc up ex pm ths).
Proof. done. Qed.

(** *** What the statements leave alone *)

Lemma frame_observe e g :
  connectedDevices (observe e g) = connectedDevices g ∧
  pendingEvents (observe e g) = pendingEvents g ∧
  devicesChanged (observe e g) = devicesChanged g ∧
  heap (observe e g) = heap g ∧ emitter (observe e g) = emitter g.
Proof. done. Qed.

Lemma frame_debug format args g :
  connectedDevices (debug format args g) = connectedDevices g ∧
  pendingEvents (debug format args g) = pendingEvents g ∧
  devicesChanged (debug format args g) = devicesChanged g ∧
  heap (debug format args g) = heap g ∧
  emitter (debug format args g) = emitter g.
Proof. unfold debug. destruct (emitter g) eqn:E; simpl; by rewrite ?E. Qed.

Lemma frame_update device f g :
  connectedDevices (update device f g) = connectedDevices g ∧
  pendingEvents (update device f g) = pendingEvents g ∧
  devicesChanged (update device f g) = devicesChanged g ∧
  emitter (update device f g) = emitter g ∧
  trace (update device f g) = trace g.
Proof. done. Qed.

Lemma frame_debug_udid format device g :
  connectedDevices (debug_udid format device g) = connectedDevices g ∧
  pendingEvents (debug_udid format device g) = pendingEvents g ∧
  devicesChanged (debug_udid format device g) = devicesChanged g ∧
  emitter (debug_udid format device g) = emitter g.
Proof.
  unfold debug_udid. destruct (index_props _ _) as [s d].
  by destruct (frame_debug format [arg_s s] (update device (λ _, d) g))
    as (-> & -> & -> & _ & ->).
Qed.

Lemma frame_release_log d g :
  connectedDevices (release_log d g) = connectedDevices g ∧
  pendingEvents (release_log d g) = pendingEvents g ∧
  devicesChanged (release_log d g) = devicesChanged g ∧
  heap (release_log d g) = heap g ∧ emitter (release_log d g) = emitter g.
Proof.
  unfold release_log.
  by destruct (logCallback d), (logSource d), (logSocket d).
Qed.

Lemma frame_deleted_globals device g :
  connectedDevices (deleted_globals device g) = connectedDevices g ∧
  pendingEvents (deleted_globals device g) = pendingEvents g ∧
  devicesChanged (deleted_globals device g) = devicesChanged g ∧
  emitter (deleted_globals device g) = emitter g.
Proof.
  unfold deleted_globals. cbv zeta.
  cbn [connectedDevices pendingEvents devicesChanged emitter observe set_heap].
  by destruct (frame_release_log
       (deref (observe (EvCall (AMDeviceDisconnect (handle (deref g device))))
                 (observe (EvCall (AMDeviceStopSession (handle (deref g device))))
                    (update device (set_connected 0) g))) device)
       (observe (EvCall (AMDeviceDisconnect (handle (deref g device))))
          (observe (EvCall (AMDeviceStopSession (handle (deref g device))))
             (update device (set_connected 0) g)))) as (-> & -> & -> & _ & ->).
Qed.

Ltac sync_tac :=
  rewrite exec_Sync;
  cbn [sync_step exclusive is_free held_by globals shared_count upgrade
       pendingMutex threads Nat.pred Nat.eqb andb negb set_threads].

Lemma exec_on_attach dev msg g sc up ths :
  msg = ADNCI_MSG_CONNECTED →
  connectedDevices g !! AMDeviceCopyDeviceIdentifier dev = None →
  exec 0 (on_device_notification dev msg) (mkSys g sc up None None ths)
  = Some (mkSys (attached_globals dev g) sc up None None
            (ths ++ [Running (getDeviceInfo (next_ptr g))])).
Proof.
  intros -> Hreg. unfold on_device_notification.
  sync_tac. rewrite exec_Get_mk. unfold CFDictionaryContainsKey.
  rewrite Hreg. sync_tac. rewrite Z.eqb_refl. cbn [andb].
  rewrite exec_Atomic_mk. cbn [fst snd new_Device].
  rewrite exec_Upd_mk. sync_tac. rewrite !exec_Upd_mk.
  cbn [exec sync_step exclusive is_free held_by globals shared_count upgrade
       pendingMutex threads Nat.eqb set_threads].
  f_equal. f_equal.
  unfold attached_globals. cbv zeta.
  assert (Hpe : pendingEvents (debug_udid
                  "Device connected, getting device info: %s" (next_ptr g)
                  (new_Device dev g).2) = pendingEvents g).
  { by rewrite (proj1 (proj2 (frame_debug_udid _ _ _))). }
  cbn [new_Device snd] in Hpe |- *.
  rewrite Hpe.
  destruct (pendingEvents g <? 0) eqn:E.
  - apply Z.ltb_lt in E. rewrite Z.max_l by lia. done.
  - apply Z.ltb_ge in E. rewrite Z.max_r by lia. rewrite Hpe. done.
Qed.

Lemma eval_delete_device t device s :
  eval t (delete_device device) s
  = Some (set_globals (deleted_globals device (globals s)) s, None).
Proof. done. Qed.

Lemma exec_on_detach dev msg device g pm ths :
  msg = ADNCI_MSG_DISCONNECTED →
  connectedDevices g !! AMDeviceCopyDeviceIdentifier dev = Some device →
  exec 0 (on_device_notification dev msg) (mkSys g 0 None None pm ths)
  = Some (mkSys (detached_globals (AMDeviceCopyDeviceIdentifier dev) device g)
            0 None None pm ths).
Proof.
  intros -> Hreg. unfold on_device_notification.
  sync_tac. rewrite exec_Get_mk. unfold CFDictionaryContainsKey.
  rewrite Hreg. sync_tac. rewrite Z.eqb_refl. cbn [andb].
  sync_tac. sync_tac. rewrite exec_Get_mk. rewrite Hreg. simpl default.
  rewrite !exec_Upd_mk.
  rewrite exec_eval, eval_seq, eval_delete_device.
  unfold set_globals.
  cbn [globals shared_count upgrade exclusive pendingMutex threads].
  rewrite eval_Upd_mk. rewrite !eval_Sync.
  cbn [sync_step exclusive is_free held_by globals shared_count upgrade
       pendingMutex threads Nat.eqb eval].
  reflexivity.
Qed.

Lemma frame_set_devicesChanged b g :
  connectedDevices (set_devicesChanged b g) = connectedDevices g ∧
  pendingEvents (set_devicesChanged b g) = pendingEvents g ∧
  devicesChanged (set_devicesChanged b g) = b.
Proof. done. Qed.

Lemma frame_set_connectedDevices m g :
  connectedDevices (set_connectedDevices m g) = m ∧
  pendingEvents (set_connectedDevices m g) = pendingEvents g.
Proof. done. Qed.

Lemma frame_detached_globals id device g :
  connectedDevices (detached_globals id device g)
    = delete id (connectedDevices g) ∧
  pendingEvents (detached_globals id device g) = pendingEvents g ∧
  devicesChanged (detached_globals id device g) = true.
Proof.
  unfold detached_globals. cbv zeta. split; [|split].
  - rewrite (proj1 (frame_set_devicesChanged _ _)).
    rewrite (proj1 (frame_deleted_globals _ _)).
    rewrite (proj1 (frame_release_log _ _)).
    rewrite (proj1 (frame_set_connectedDevices _ _)).
    by rewrite (proj1 (frame_debug_udid _ _ _)).
  - rewrite (proj1 (proj2 (frame_set_devicesChanged _ _))).
    rewrite (proj1 (proj2 (frame_deleted_globals _ _))).
    rewrite (proj1 (proj2 (frame_release_log _ _))).
    rewrite (proj2 (frame_set_connectedDevices _ _)).
    by rewrite (proj1 (proj2 (frame_debug_udid _ _ _))).
  - by rewrite (proj2 (proj2 (frame_set_devicesChanged _ _))).
Qed.

Lemma exec_on_noop dev msg g sc up pm ths :
  (if CFDictionaryContainsKey (connectedDevices g)
        (AMDeviceCopyDeviceIdentifier dev)
   then (msg =? ADNCI_MSG_DISCONNECTED) = false
   else (msg =? ADNCI_MSG_CONNECTED) = false) →
  exec 0 (on_device_notification dev msg) (mkSys g sc up None pm ths)
  = Some (mkSys g sc up None pm ths).
Proof.
  intros Hmsg. unfold on_device_notification.
  sync_tac. rewrite exec_Get_mk. sync_tac.
  destruct (CFDictionaryContainsKey _ _); rewrite Hmsg; cbn [negb andb];
    rewrite ?andb_false_r; reflexivity.
Qed.

End Dispatcher.

Section Attach.
Context `{MobileDevice}.

Lemma Device_new_udid dev : udid (Device_new dev) = AMDeviceCopyDeviceIdentifier dev.
Proof. done. Qed.

Lemma debug_udid_new format dev g :
  let g1 := (new_Device dev g).2 in
  heap (debug_udid format (next_ptr g) g1) !! next_ptr g
    = Some (Device_new dev) ∧
  connectedDevices (debug_udid format (next_ptr g) g1) = connectedDevices g ∧
  pendingEvents (debug_udid format (next_ptr g) g1) = pendingEvents g.
Proof.
  cbv zeta. split.
  - unfold debug_udid, index_props, deref, new_Device, debug, update.
    simpl. rewrite lookup_insert_eq. simpl. rewrite lookup_singleton_eq.
    destruct (emitter g); simpl; by rewrite lookup_alter_eq, lookup_insert_eq.
  - destruct (frame_debug_udid format (next_ptr g) (new_Device dev g).2)
      as (-> & -> & _). done.
Qed.

Lemma attached_globals_frame dev g :
  heap (attached_globals dev g) !! next_ptr g = Some (Device_new dev) ∧
  connectedDevices (attached_globals dev g) = connectedDevices g ∧
  pendingEvents (attached_globals dev g) = Z.max 0 (pendingEvents g) + 1.
Proof.
  unfold attached_globals. cbv zeta.
  destruct (debug_udid_new "Device connected, getting device info: %s" dev g)
    as (Hh & Hreg & _).
  split; [exact Hh|]. split; [exact Hreg|]. done.
Qed.

(** The dispatcher step by step: whenever the thread of the worker
    exists, the object has been made, the counter has been raised, and the
    dictionary is as it was. *)
Lemma on_attach_stepwise dev msg g sc up rest k (s' : Sys) :
  msg = ADNCI_MSG_CONNECTED →
  connectedDevices g !! AMDeviceCopyDeviceIdentifier dev = None →
  run (replicate k (Run 0))
    (mkSys g sc up None None (Running (on_device_notification dev msg) :: rest))
  = Some s' →
  (S (length rest) < length (threads s'))%nat →
  globals s' = attached_globals dev g ∧
  threads s' !! S (length rest) = Some (Running (getDeviceInfo (next_ptr g))).
Proof.
  intros -> Hreg Hrun Hlen.
  assert (Hpe : pendingEvents (debug_udid
                  "Device connected, getting device info: %s" (next_ptr g)
                  (new_Device dev g).2) = pendingEvents g).
  { by rewrite (proj1 (proj2 (frame_debug_udid _ _ _))). }
  unfold on_device_notification in Hrun.
  Local Opaque getDeviceInfo debug_udid.
  repeat match type of Hrun with
  | run (replicate ?n _) _ = Some _ =>
      destruct n as [|?];
        [ apply (inj Some) in Hrun; subst s'; simpl in Hlen; try lia
        | simpl in Hrun; unfold CFDictionaryContainsKey in Hrun;
          rewrite ?Hreg, ?Z.eqb_refl, ?Nat.eqb_refl in Hrun;
          simpl in Hrun; try discriminate Hrun ]
  end.
  all: simpl; split;
    [ unfold attached_globals; cbv zeta; simpl in Hpe |- *;
      rewrite ?Hpe;
      destruct (pendingEvents g <? 0) eqn:E;
        [ apply Z.ltb_lt in E; rewrite Z.max_l by lia; done
        | apply Z.ltb_ge in E; rewrite Z.max_r by lia; by rewrite Hpe ]
    | rewrite lookup_app_r by lia; by rewrite Nat.sub_diag ].
Qed.

Local Transparent getDeviceInfo debug_udid.


End Attach.

Section Registry.
Context `{MobileDevice}.

Lemma CFDictionaryContainsKey_dom (dict : gmap string nat) key :
  CFDictionaryContainsKey dict key = true ↔ key ∈ dom dict.
Proof.
  unfold CFDictionaryContainsKey. rewrite elem_of_dom.
  destruct (dict !! key); split; try done; by intros [? ?].
Qed.

Lemma CFDictionaryContainsKey_false (dict : gmap string nat) key :
  CFDictionaryContainsKey dict key = false ↔ dict !! key = None.
Proof. unfold CFDictionaryContainsKey. by destruct (dict !! key). Qed.

(** One notification, and the worker it starts. *)
Lemma deliver_spec (ev : am_device * Z) (s : Sys) :
  ADNCI_MSG_CONNECTED ≠ ADNCI_MSG_DISCONNECTED →
  quiescent s →
  ∃ s', deliver ev s = Some s' ∧ quiescent s' ∧
        dom (connectedDevices (globals s'))
        = attached [ev] (dom (connectedDevices (globals s))).
Proof.
  intros Hne (Hsc & Hup & Hex & Hpm).
  destruct s as [g sc up ex pm ths]. cbn in Hsc, Hup, Hex, Hpm. subst.
  destruct ev as [dev msg]. unfold deliver, attached.
  cbn [fst snd foldl globals threads].
  set (id := AMDeviceCopyDeviceIdentifier dev).
  destruct (connectedDevices g !! id) as [device|] eqn:Hreg.
  - (* registered *)
    assert (Hin : id ∈ dom (connectedDevices g)) by (by apply elem_of_dom).
    destruct (msg =? ADNCI_MSG_DISCONNECTED) eqn:Hd.
    + apply Z.eqb_eq in Hd. subst msg.
      rewrite (exec_on_detach dev _ device) by done.
      cbn [mbind option_bind threads]. rewrite drop_all.
      eexists. split; [reflexivity|]. split; [done|]. cbn [globals].
      rewrite (proj1 (frame_detached_globals _ _ _)), dom_delete_L.
      assert ((ADNCI_MSG_DISCONNECTED =? ADNCI_MSG_CONNECTED) = false) as ->
        by (apply Z.eqb_neq; congruence).
      done.
    + rewrite exec_on_noop.
      2:{ fold id. unfold CFDictionaryContainsKey. by rewrite Hreg. }
      cbn [mbind option_bind threads]. rewrite drop_all.
      eexists. split; [reflexivity|]. split; [done|]. cbn [globals].
      destruct (msg =? ADNCI_MSG_CONNECTED); [|done].
      symmetry. rewrite union_comm_L.
      by apply subseteq_union_1_L, singleton_subseteq_l.
  - (* not registered *)
    assert (Hin : id ∉ dom (connectedDevices g)) by (by apply not_elem_of_dom).
    destruct (msg =? ADNCI_MSG_CONNECTED) eqn:Hc.
    + apply Z.eqb_eq in Hc. subst msg.
      rewrite exec_on_attach by done.
      cbn [mbind option_bind threads]. rewrite drop_app_length.
      destruct (attached_globals_frame dev g) as (Hheap & Hreg' & _).
      destruct (getDeviceInfo_registers (length ths) (next_ptr g)
                  (Device_new dev)
                  (mkSys (attached_globals dev g) 0 None None None
                     (ths ++ [Running (getDeviceInfo (next_ptr g))])))
        as (s'' & Hexec & Hq & Hreg''); [done|exact Hheap|].
      rewrite Hexec. cbn [fmap option_fmap option_map].
      eexists. split; [reflexivity|]. split; [exact Hq|].
      cbn [globals set_thread set_threads]. rewrite Hreg''. cbn [globals].
      rewrite Hreg', Device_new_udid. fold id.
      unfold CFDictionaryContainsKey. rewrite Hreg.
      rewrite dom_insert_L. apply union_comm_L.
    + rewrite exec_on_noop.
      2:{ fold id. unfold CFDictionaryContainsKey. by rewrite Hreg. }
      cbn [mbind option_bind threads]. rewrite drop_all.
      eexists. split; [reflexivity|]. split; [done|]. cbn [globals].
      destruct (msg =? ADNCI_MSG_DISCONNECTED); [|done].
      symmetry. by apply difference_disjoint_L, disjoint_singleton_r.
Qed.

Lemma attached_cons ev evs ids :
  attached (ev :: evs) ids = attached evs (attached [ev] ids).
Proof. done. Qed.


End Registry.

Section Adequacy.
Context `{MobileDevice}.

Lemma wake_one_insert_running l t p q :
  l !! t = Some (Running q) →
  wake_one (<[t := Running p]> l) = <[t := Running p]> (wake_one l).
Proof.
  revert t. induction l as [|[p0|k0] l IH]; intros [|t]; simpl; try done.
  - intros Hl. by rewrite (IH _ Hl).
Qed.

Lemma wake_one_lookup_running l t q :
  l !! t = Some (Running q) → wake_one l !! t = Some (Running q).
Proof.
  revert t. induction l as [|[p0|k0] l IH]; intros [|t]; simpl; try done.
  apply IH.
Qed.

Lemma set_thread_twice t th th' (s : Sys) :
  set_thread t th' (set_thread t th s) = set_thread t th' s.
Proof. unfold set_thread, set_threads. simpl. by rewrite list_insert_insert_eq. Qed.

(** The lock operations do not look at the instruction a running thread
    is at. *)
Lemma sync_step_set_thread t op (s s1 : Sys) p q :
  threads s !! t = Some (Running q) →
  sync_step t op s = Some s1 →
  sync_step t op (set_thread t (Running p) s)
  = Some (set_thread t (Running p) s1) ∧
  threads s1 !! t = Some (Running q).
Proof.
  intros Ht. destruct op; simpl; intros Hs;
    repeat match type of Hs with
           | (if ?b then _ else _) = _ => destruct b; [|done]
           end;
    inversion Hs; subst; clear Hs; simpl; try done.
  split.
  - unfold set_thread, set_threads. simpl.
    by rewrite (wake_one_insert_running _ _ _ q).
  - by apply wake_one_lookup_running.
Qed.

(** [exec] is a run of the scheduler in which only thread [t] moves. *)
Lemma exec_is_a_run t p : ∀ (s s' : Sys) q,
  threads s !! t = Some (Running q) →
  exec t p s = Some s' →
  ∃ n, run (replicate n (Run t)) (set_thread t (Running p) s)
       = Some (set_thread t (Running Ret) s').
Proof.
  induction p as [|e|A f k IH|c k IH|h key k IH|h key k IH|op k IH|p' _ k IH];
    intros s s' q Ht Hexec.
  - exists 0%nat. simpl in *. by inversion Hexec.
  - done.
  - simpl in Hexec. destruct (f (globals s)) as [a g] eqn:Hf.
    destruct (IH a (set_globals g s) s' q Ht Hexec) as [n Hn].
    exists (S n). simpl.
    rewrite list_lookup_insert_eq by (by eapply lookup_lt_Some).
    simpl. rewrite Hf.
    change (set_globals g (set_thread t (Running (Atomic f k)) s))
      with (set_thread t (Running (Atomic f k)) (set_globals g s)).
    by rewrite set_thread_twice.
  - simpl in Hexec.
    match type of Hexec with exec t _ ?s0 = _ =>
      destruct (IH _ s0 s' q Ht Hexec) as [n Hn] end.
    exists (S n). simpl.
    rewrite list_lookup_insert_eq by (by eapply lookup_lt_Some).
    simpl.
    change (set_globals ?g (set_thread t ?th s))
      with (set_thread t th (set_globals g s)).
    by rewrite set_thread_twice.
  - simpl in Hexec.
    match type of Hexec with exec t _ ?s0 = _ =>
      destruct (IH _ s0 s' q Ht Hexec) as [n Hn] end.
    exists (S n). simpl.
    rewrite list_lookup_insert_eq by (by eapply lookup_lt_Some).
    simpl.
    change (set_globals ?g (set_thread t ?th s))
      with (set_thread t th (set_globals g s)).
    by rewrite set_thread_twice.
  - simpl in Hexec.
    match type of Hexec with exec t _ ?s0 = _ =>
      destruct (IH _ s0 s' q Ht Hexec) as [n Hn] end.
    exists (S n). simpl.
    rewrite list_lookup_insert_eq by (by eapply lookup_lt_Some).
    simpl.
    change (set_globals ?g (set_thread t ?th s))
      with (set_thread t th (set_globals g s)).
    by rewrite set_thread_twice.
  - simpl in Hexec. destruct (sync_step t op s) as [s1|] eqn:Hs; [|done].
    destruct (sync_step_set_thread t op s s1 (Sync op k) q Ht Hs)
      as [Hs' Ht1].
    destruct (IH s1 s' q Ht1 Hexec) as [n Hn].
    exists (S n). simpl.
    rewrite list_lookup_insert_eq by (by eapply lookup_lt_Some).
    assert (op ≠ wait_pending) as Hop by (by intros ->).
    assert (instr_step t (Sync op k) (set_thread t (Running (Sync op k)) s)
            = Some (Running k, set_thread t (Running (Sync op k)) s1)) as ->.
    { destruct op; try done; unfold instr_step; by rewrite Hs'. }
    by rewrite set_thread_twice.
  - simpl in Hexec.
    assert (Ht' : (threads s ++ [Running p']) !! t = Some (Running q))
      by (by apply lookup_app_l_Some).
    destruct (IH (set_threads (threads s ++ [Running p']) s) s' q Ht' Hexec)
      as [n Hn].
    exists (S n). simpl.
    rewrite list_lookup_insert_eq by (by eapply lookup_lt_Some).
    simpl.
    assert (set_thread t (Running k)
              (set_threads (<[t:=Running (Spawn p' k)]> (threads s) ++ [Running p'])
                 (set_thread t (Running (Spawn p' k)) s))
            = set_thread t (Running k)
                (set_threads (threads s ++ [Running p']) s)) as ->; [|done].
    unfold set_thread, set_threads. simpl. f_equal.
    rewrite insert_app_l by (rewrite length_insert; by eapply lookup_lt_Some).
    by rewrite list_insert_insert_eq, <- insert_app_l
      by (by eapply lookup_lt_Some).
Qed.

End Adequacy.

Section Barrier.
Context `{MobileDevice}.

Lemma step_Run_main p others g sc up ex pm :
  step (Run 0) (mkSys g sc up ex pm (Running p :: others))
  = match instr_step 0 p (mkSys g sc up ex pm (Running p :: others)) with
    | Some (th, s) => Some (set_thread 0 th s)
    | None => None
    end.
Proof. done. Qed.

Lemma step_Spurious_main k others g sc up ex pm :
  step (Spurious 0) (mkSys g sc up ex pm (Waiting k :: others))
  = Some (mkSys g sc up ex pm (Running (Sync lock_pending k) :: others)).
Proof. done. Qed.

Ltac main_step :=
  rewrite step_Run_main;
  cbn [instr_step sync_step is_free held_by Nat.eqb Nat.pred globals
       shared_count upgrade exclusive pendingMutex threads];
  unfold set_thread, set_threads, set_globals;
  cbn [globals shared_count upgrade exclusive pendingMutex threads];
  change (<[0%nat:=?th]> (?x :: ?l)) with (th :: l).

Lemma outcomes_app tr1 tr2 : outcomes (tr1 ++ tr2) = outcomes tr1 ++ outcomes tr2.
Proof. apply omap_app. Qed.

Lemma outcomes_debug format args g :
  outcomes (trace (debug format args g)) = outcomes (trace g).
Proof.
  unfold debug. destruct (emitter g); [|done].
  simpl. rewrite outcomes_app. simpl.
  by rewrite app_nil_r.
Qed.

(** C2 (the code departs from the specification).  [devices] tests the
    counter of pending events with [if], once.  From every state with pending
    events in which no lock is held, the main thread, calling [devices], is
    blocked in [pendingCond.wait] after three steps and cannot go on by
    itself.  When the condition variable wakes it up without a notification,
    it goes on without a second look at the counter: six steps later
    [devices] has returned the snapshot of the dictionary as it was, the
    other threads have not moved, and the counter still has its positive
    value. *)
Theorem devices_returns_on_spurious_wakeup (g : Globals)
    (others : list Thread) :
  0 < pendingEvents g →
  let s := mkSys g 0 None None None (Running devices :: others) in
  ∃ s1 s2 k,
    run (steps 3 0) s = Some s1 ∧
    s1 = mkSys g 0 None None None (Waiting k :: others) ∧
    step (Run 0) s1 = None ∧
    run (Spurious 0%nat :: steps 6 0) s1 = Some s2 ∧
    threads s2 = Running Ret :: others ∧
    pendingEvents (globals s2) = pendingEvents g ∧
    connectedDevices (globals s2) = connectedDevices g ∧
    outcomes (trace (globals s2))
    = outcomes (trace g) ++ [returned_array (snapshot g)].
Proof.
  intros Hpos s. apply Z.ltb_lt in Hpos.
  unfold steps. cbn [replicate run]. subst s.
  unfold devices.
  main_step. unfold Get at 1. main_step. rewrite Hpos. cbn [seq]. main_step.
  eexists _, _, _. split; [reflexivity|]. split; [reflexivity|].
  split; [reflexivity|].
  rewrite step_Spurious_main.
  main_step. main_step. unfold Upd at 1. main_step. unfold Upd at 1.
  main_step. main_step. main_step.
  split; [reflexivity|]. cbn [threads globals]. split; [reflexivity|].
  set (g' := debug _ _ g).
  destruct (frame_debug "Found %d device%s"
              [arg_d (Z.of_nat (size (connectedDevices g)));
               arg_s (if (size (connectedDevices g) =? 1)%nat then "" else "s")]
              g) as (Hreg & Hpe & _ & Hheap & _).
  fold g' in Hreg, Hpe, Hheap.
  assert (snapshot g' = snapshot g) as ->.
  { unfold snapshot, deref. by rewrite Hreg, Hheap. }
  split; [exact Hpe|]. split; [exact Hreg|].
  change (trace (observe ?e g')) with (trace g' ++ [e]).
  rewrite outcomes_app. unfold g'. by rewrite outcomes_debug.
Qed.
End Barrier.

Section Teardown.
Context `{MobileDevice}.

Lemma trace_release_log d g :
  trace (release_log d g) = trace g ++ log_releases d.
Proof.
  unfold release_log, log_releases.
  destruct (logCallback d), (logSource d), (logSocket d); simpl;
    by rewrite <- ?app_assoc, ?app_nil_r.
Qed.

Lemma trace_debug format args g :
  ∃ dbg, trace (debug format args g) = trace g ++ map EvEmit dbg.
Proof.
  unfold debug. destruct (emitter g).
  - by exists [debug_event format args].
  - exists []. by rewrite app_nil_r.
Qed.

Lemma index_props_log key d :
  handle (index_props key d).2 = handle d ∧
  logCallback (index_props key d).2 = logCallback d ∧
  logSource (index_props key d).2 = logSource d ∧
  logSocket (index_props key d).2 = logSocket d.
Proof. unfold index_props. by destruct (props d !! key). Qed.

Lemma log_releases_ext d d' :
  logCallback d' = logCallback d → logSource d' = logSource d →
  logSocket d' = logSocket d → log_releases d' = log_releases d.
Proof. unfold log_releases. by intros -> -> ->. Qed.

Lemma debug_udid_spec format device d g :
  heap g !! device = Some d →
  heap (debug_udid format device g) !! device
    = Some (index_props "udid" d).2 ∧
  ∃ dbg, trace (debug_udid format device g) = trace g ++ map EvEmit dbg.
Proof.
  intros Hd. unfold debug_udid. rewrite (deref_lookup _ _ _ Hd).
  destruct (index_props "udid" d) as [v d'] eqn:E. cbn [snd].
  destruct (frame_debug format [arg_s v] (update device (λ _, d') g))
    as (_ & _ & _ & -> & _).
  split.
  - unfold update. cbn [heap set_heap]. rewrite lookup_alter_eq. by rewrite Hd.
  - destruct (trace_debug format [arg_s v] (update device (λ _, d') g))
      as [dbg ->].
    by exists dbg.
Qed.

Lemma trace_deleted_globals device d g :
  heap g !! device = Some d →
  trace (deleted_globals device g)
  = trace g
    ++ [EvCall (AMDeviceStopSession (handle d));
        EvCall (AMDeviceDisconnect (handle d))]
    ++ log_releases d ++ [EvRelease (delete_Device device)].
Proof.
  intros Hd. unfold deleted_globals. cbv zeta.
  rewrite (deref_lookup _ _ _ Hd).
  set (g2 := observe _ (observe _ (update device (set_connected 0) g))).
  assert (heap g2 !! device = Some (set_connected 0 d)) as Hd2.
  { unfold g2, update. cbn [heap observe set_heap].
    rewrite lookup_alter_eq. by rewrite Hd. }
  rewrite (deref_lookup _ _ _ Hd2).
  change (trace (observe ?e ?x)) with (trace x ++ [e]).
  change (trace (set_heap ?h ?x)) with (trace x).
  rewrite trace_release_log.
  rewrite (log_releases_ext d (set_connected 0 d)) by done.
  unfold g2.
  repeat change (trace (observe ?e ?x)) with (trace x ++ [e]).
  change (trace (update ?a ?b ?x)) with (trace x).
  by rewrite <- !app_assoc.
Qed.

Lemma trace_detached_globals id device d g :
  heap g !! device = Some d →
  ∃ dbg, trace (detached_globals id device g)
         = trace g ++ map EvEmit dbg ++ detach_events device d.
Proof.
  intros Hd. unfold detached_globals. cbv zeta.
  destruct (debug_udid_spec "Device disconnected: %s" device d g Hd)
    as (Hd1 & dbg & Htr).
  set (g1 := debug_udid _ device g) in *.
  set (g2 := set_connectedDevices _ g1).
  assert (heap g2 !! device = Some (index_props "udid" d).2) as Hd2
    by exact Hd1.
  rewrite (deref_lookup _ _ _ Hd2).
  set (d1 := (index_props "udid" d).2) in *.
  destruct (index_props_log "udid" d) as (Hh & Hcb & Hsrc & Hsock).
  fold d1 in Hh, Hcb, Hsrc, Hsock.
  set (g3 := release_log d1 g2).
  assert (heap g3 !! device = Some d1) as Hd3.
  { unfold g3. destruct (frame_release_log d1 g2) as (_ & _ & _ & -> & _).
    exact Hd2. }
  change (trace (set_devicesChanged ?b ?x)) with (trace x).
  rewrite (trace_deleted_globals device d1 g3 Hd3).
  unfold g3. rewrite trace_release_log.
  change (trace g2) with (trace g1). rewrite Htr.
  exists dbg. unfold detach_events.
  rewrite (log_releases_ext d d1), Hh by done.
  by rewrite <- !app_assoc.
Qed.

(** C5 (the code departs from the specification).  On the detachment of a
    registered device, the detach branch of
    [on_device_notification] releases the listener, the run loop source
    and the socket of the log subscription of the object, and the
    destructor that [delete device] runs releases them again: the events
    of the branch hold [log_releases d] twice, before and after the end of
    the session. *)
Theorem detach_releases_log_resources_twice (dev : am_device) (msg : Z)
    (device : ptr) (d : Device) (g : Globals) (pm : option tid)
    (ths : list Thread) :
  msg = ADNCI_MSG_DISCONNECTED →
  connectedDevices g !! AMDeviceCopyDeviceIdentifier dev = Some device →
  heap g !! device = Some d →
  ∃ g' dbg,
    exec 0 (on_device_notification dev msg) (mkSys g 0 None None pm ths)
    = Some (mkSys g' 0 None None pm ths) ∧
    trace g'
    = trace g ++ map EvEmit dbg
      ++ log_releases d
      ++ [EvCall (AMDeviceStopSession (handle d));
          EvCall (AMDeviceDisconnect (handle d))]
      ++ log_releases d
      ++ [EvRelease (delete_Device device)] ∧
    (∀ r, In (EvRelease r) (log_releases d) →
          (releases r (trace g) + 2 ≤ releases r (trace g'))%nat).
Proof.
  intros Hmsg Hreg Hd.
  destruct (trace_detached_globals (AMDeviceCopyDeviceIdentifier dev)
              device d g Hd) as [dbg Htr].
  eexists _, dbg. split; [by apply exec_on_detach|]. split; [exact Htr|].
  intros r Hin. rewrite Htr. unfold detach_events, releases.
  rewrite !List.filter_app, !length_app.
  assert (1 ≤ length (List.filter (is_release r) (log_releases d)))%nat.
  { assert (In (EvRelease r) (List.filter (is_release r) (log_releases d))) as Hf.
    { apply List.filter_In. split; [done|].
      destruct r; simpl; apply Nat.eqb_refl. }
    destruct (List.filter _ _); [done|simpl; lia]. }
  lia.
Qed.

End Teardown.

(* ===================================================================== *)
(** * Part V: the module at work on the sample                            *)
(* ===================================================================== *)

Lemma next_call_at_io (th : Thread) (c : AMCall) :
  next_call th = Some c → at_io th.
Proof. by destruct th as [[]|]. Qed.

Lemma quiescent_init `{MobileDevice} (calls : list HostCall) :
  quiescent (init calls).
Proof. done. Qed.

Section Examples.
#[local] Existing Instance sample_ok.

(** The main thread needs twelve steps for the pump during which device 1
    is attached; the worker, once started, needs forty-four. *)
Example attach_then_worker :
  see <$> run (steps 12 0 ++ steps 44 1) (init host_attach)
  = Some (mkSeen None 0 true ["A"%string]
            [(delete_Listener 1, 0); (CFRelease 2, 0); (CFRelease 3, 0);
             (delete_Device 1, 0)]%nat
            [returned_undefined]).
Proof. vm_compute. reflexivity. Qed.

(** The host pumps while device 1 is attached and asks for the devices.
    After fifteen steps the main thread is blocked in [pendingCond.wait]
    with one event pending; it cannot go on by itself.  The condition
    variable wakes it up spuriously: [devices] does not look at the
    counter again, takes the snapshot and returns an empty array, while
    the counter is still 1 and the worker has not made a step. *)
Example devices_returns_early :
  (λ s, (waiting <$> threads s !! 0%nat, pendingEvents (globals s)))
    <$> run (steps 15 0) (init host_devices)
  = Some (Some true, 1) ∧
  run (steps 16 0) (init host_devices) = None ∧
  (λ s, (pendingEvents (globals s), length (threads s),
         next_call <$> threads s !! 1%nat,
         (map_to_list (connectedDevices (globals s))).*1,
         outcomes (trace (globals s))))
    <$> run (steps 15 0 ++ [Spurious 0%nat] ++ steps 6 0) (init host_devices)
  = Some (1, 2%nat, Some None, [],
          [returned_undefined; returned_array []]).
Proof. split; [|split]; vm_compute; reflexivity. Qed.

Lemma devices_returns_on_spurious_wakeup_witness :
  ∃ s1 s2,
    run (steps 3 0) devices_state = Some s1 ∧
    step (Run 0) s1 = None ∧
    run (Spurious 0%nat :: steps 6 0) s1 = Some s2 ∧
    threads s2 = [Running Ret; Running (getDeviceInfo 1)] ∧
    pendingEvents (globals s2) = 1.
Proof.
  destruct (devices_returns_on_spurious_wakeup (H := sample_ok)
              pending_globals [Running (getDeviceInfo 1)] ltac:(done))
    as (s1 & s2 & k & Hrun1 & _ & Hblocked & Hrun2 & Hths & Hpe & _).
  exists s1, s2. split; [exact Hrun1|]. split; [exact Hblocked|].
  split; [exact Hrun2|]. split; [exact Hths|]. rewrite Hpe. reflexivity.
Defined.

(** Without the spurious wakeup the main thread goes on only after the
    worker has lowered the counter to 0, and the array holds the device. *)
Example devices_waits_for_worker :
  (λ s, (pendingEvents (globals s),
         (map_to_list (connectedDevices (globals s))).*1,
         match outcomes (trace (globals s)) with
         | [returned_undefined; returned_array [m]] => m !! "name"%string
         | _ => None
         end))
    <$> run (steps 15 0 ++ steps 44 1 ++ steps 6 0) (init host_devices)
  = Some (0, ["A"%string], Some "phone"%string).
Proof. vm_compute. reflexivity. Qed.

(** C3, against the wording of the specification.  The worker of device 1 is
    about to call [AMDeviceConnect], the first of its calls to the device,
    and it holds the exclusive lock on [deviceMutex]. *)
Lemma worker_connects_holding_the_lock :
  (λ s, (next_call <$> threads s !! 1%nat, exclusive s))
    <$> run (steps 9 0 ++ steps 5 1) (init host_attach)
  = Some (Some (Some (AMDeviceConnect 1)), Some 1%nat).
Proof. vm_compute. reflexivity. Qed.

Lemma worker_holds_lock_during_io_witness :
  ∃ s, run (steps 9 0 ++ steps 5 1) (init host_attach) = Some s ∧
       exclusive s = Some 1%nat.
Proof.
  pose proof worker_connects_holding_the_lock as Hseen.
  destruct (run (steps 9 0 ++ steps 5 1) (init host_attach)) as [s|] eqn:Hrun;
    cbn in Hseen; [|discriminate Hseen].
  exists s. split; [reflexivity|].
  destruct (threads s !! 1%nat) as [th|] eqn:Hth;
    cbn in Hseen; [|discriminate Hseen].
  destruct (next_call th) as [c|] eqn:Hc; [|discriminate Hseen].
  exact (worker_holds_lock_during_io host_attach (steps 9 0 ++ steps 5 1)
           s 1%nat th Hrun Hth ltac:(discriminate) (next_call_at_io th c Hc)).
Defined.



(** Device 1 is attached and enriched, the host subscribes to its log,
    and the device is detached: the listener, the run loop source and the
    socket of the subscription are released twice each.  When the host
    leaves instead, [cleanup] runs the destructor only, and each of them
    is released once. *)
Example detach_after_log :
  (λ s, count_releases (trace (globals s)))
    <$> run (steps 12 0 ++ steps 44 1 ++ steps 44 0) (init host_detach)
  = Some [(delete_Listener 1, 2); (CFRelease 2, 2); (CFRelease 3, 2);
          (delete_Device 1, 1)]%nat ∧
  (λ s, count_releases (trace (globals s)))
    <$> run (steps 12 0 ++ steps 44 1 ++ steps 30 0) (init host_exit)
  = Some [(delete_Listener 1, 1); (CFRelease 2, 1); (CFRelease 3, 1);
          (delete_Device 1, 1)]%nat.
Proof. split; vm_compute; reflexivity. Qed.

Lemma detach_releases_log_resources_twice_witness :
  ∃ g', exec 0 (on_device_notification 1 ADNCI_MSG_DISCONNECTED)
          (mkSys subscribed_globals 0 None None None [])
        = Some (mkSys g' 0 None None None []) ∧
        (2 ≤ releases (delete_Listener 1) (trace g'))%nat ∧
        (2 ≤ releases (CFRelease 2) (trace g'))%nat ∧
        (2 ≤ releases (CFRelease 3) (trace g'))%nat.
Proof.
  destruct (detach_releases_log_resources_twice (H := sample_ok) 1%nat
              ADNCI_MSG_DISCONNECTED 1%nat subscribed_Device
              subscribed_globals None [] eq_refl eq_refl eq_refl)
    as (g' & dbg & Hexec & _ & Hrel).
  exists g'. split; [exact Hexec|].
  split; [|split]; apply Hrel; vm_compute; tauto.
Defined.


(** When the detachment is handled before the worker has put the device
    into the dictionary, it finds nothing to remove, and the worker
    registers the device afterwards. *)
Example detach_before_insert_is_lost :
  elements (attached [attach_1; detach_1] ∅) = [] ∧
  (λ s, (map_to_list (connectedDevices (globals s))).*1)
    <$> run (steps 15 0 ++ steps 44 1) (init host_attach_detach)
  = Some ["A"%string].
Proof. split; vm_compute; reflexivity. Qed.





End Examples.


(* ===================================================================== *)
(** * Part VI: more about the splitter                                    *)
(* ===================================================================== *)

Lemma complete_lines_from_app cur (a : list byte) t b :
  is_terminator t = true →
  complete_lines_from cur (a ++ t :: b)
  = complete_lines_from cur (a ++ [t]) ++ complete_lines b.
Proof.
  intros Ht. revert cur. induction a as [|c a IH]; intros cur; simpl.
  - rewrite Ht. by destruct cur.
  - destruct (is_terminator c); [|apply IH].
    destruct cur; [apply IH|]. by rewrite IH.
Qed.

Lemma complete_lines_from_size cur (data : list byte) :
  (length (concat (complete_lines_from cur data))
   + length (complete_lines_from cur data)
   ≤ length cur + length data)%nat.
Proof.
  revert cur. induction data as [|c data IH]; intros cur; simpl; [lia|].
  destruct (is_terminator c).
  - destruct cur as [|c0 cur].
    + specialize (IH []). simpl in IH. lia.
    + specialize (IH []). simpl in *.
      rewrite length_app, length_app, length_rev. simpl. lia.
  - specialize (IH (c :: cur)). simpl in IH. lia.
Qed.

Lemma c_str_checked_insert_nul (str : list byte) : ∀ j,
  (j < length str)%nat →
  c_str_checked (<[j := NUL]> str) = Some (c_str (<[j := NUL]> str)).
Proof.
  induction str as [|c str IH]; intros j Hj; simpl in Hj; [lia|].
  destruct j as [|j]; simpl; [done|].
  destruct (is_nul c); [done|]. rewrite IH by lia. done.
Qed.

Lemma scan_checked_scan (rest : list byte) : ∀ i j str calls,
  (j + length rest < length str)%nat →
  scan_checked rest i j str calls = Some (scan rest i j str calls).
Proof.
  induction rest as [|c rest IH]; intros i j str calls Hlen; [done|].
  simpl in Hlen. simpl.
  assert ((j <? length str)%nat = true) as -> by (apply Nat.ltb_lt; lia).
  destruct (is_terminator c).
  - rewrite c_str_checked_insert_nul by (rewrite length_insert; lia).
    destruct (0 <? j)%nat; simpl; (destruct (is_nul c); [done|]);
      apply IH; rewrite !length_insert; simpl; lia.
  - apply IH. rewrite length_insert. lia.
Qed.

Lemma scan_bounds (rest : list byte) : ∀ i j str calls,
  length (scan rest i j str calls).1.2 = length str ∧
  ((scan rest i j str calls).1.1 ≤ i + length rest)%nat ∧
  (rest ≠ [] → i < (scan rest i j str calls).1.1)%nat.
Proof.
  induction rest as [|c rest IH]; intros i j str calls; simpl.
  - split; [done|]. split; [lia|done].
  - destruct (is_terminator c).
    + destruct (is_nul c); simpl.
      * rewrite !length_insert. split; [done|]. split; [lia|]. intros _. lia.
      * destruct (IH (S i) 0%nat (<[j:=NUL]> (<[j:=c]> str))
                    (if (0 <? j)%nat
                     then calls ++ [c_str (<[j:=NUL]> (<[j:=c]> str))]
                     else calls)) as (H1 & H2 & _).
        rewrite H1, !length_insert. split; [done|]. split; [lia|].
        intros _. 
        destruct rest as [|c' rest'].
        { simpl. lia. }
        destruct (IH (S i) 0%nat (<[j:=NUL]> (<[j:=c]> str))
                    (if (0 <? j)%nat
                     then calls ++ [c_str (<[j:=NUL]> (<[j:=c]> str))]
                     else calls)) as (_ & _ & H3).
        specialize (H3 ltac:(done)). lia.
    + destruct (IH (S i) (S j) (<[j:=c]> str) calls) as (H1 & H2 & H3).
      rewrite H1, length_insert. split; [done|]. split; [lia|].
      intros _. destruct rest as [|c' rest']; [simpl; lia|].
      specialize (H3 ltac:(done)). lia.
Qed.

Lemma skip_nul_length (buffer b : list byte) :
  skip_nul buffer = Some b → (length b ≤ length buffer)%nat.
Proof.
  intros E. pose proof (skip_nul_spec buffer) as H. rewrite E in H.
  by destruct H as (_ & H & _).
Qed.

Lemma split_loop_checked_split_loop (fuel : nat) : ∀ buffer str calls,
  (length buffer < length str)%nat →
  split_loop_checked fuel buffer str calls = split_loop fuel buffer str calls.
Proof.
  induction fuel as [|fuel IH]; intros buffer str calls Hlen; [done|].
  simpl. destruct buffer as [|c0 buffer0]; [done|].
  destruct (skip_nul (c0 :: buffer0)) as [b|] eqn:Hskip; [|done].
  apply skip_nul_length in Hskip.
  rewrite scan_checked_scan by (simpl; lia).
  destruct (scan_bounds b 0 0 str calls) as (Hl & _ & _).
  destruct (scan b 0 0 str calls) as [[i str'] calls']. simpl in Hl.
  apply IH. rewrite length_drop. lia.
Qed.

(** ** What the splitter does and does not do *)

(** X1.  Whatever the allocator left in [str], and for every chunk, the
    callback function comes to its end, and the lines it hands to the
    host are the complete lines of the chunk: nothing of the
    uninitialised array reaches the host. *)
Theorem LogSocketCallback_ignores_uninitialised_memory
    (junk junk' : nat → byte) (data : list byte) :
  LogSocketCallback junk data = LogSocketCallback junk' data ∧
  LogSocketCallback junk data = Some (complete_lines data).
Proof. by rewrite !LogSocketCallback_complete_lines. Qed.

(** X2.  The loops never write outside of [str], and every string they
    hand to [Nan::New] has its ['\0'] inside of [str]: with the bounds
    checked, the function gives the same calls and never fails. *)
Theorem LogSocketCallback_stays_in_bounds (junk : nat → byte)
    (data : list byte) :
  LogSocketCallback_checked junk data = LogSocketCallback junk data ∧
  LogSocketCallback_checked junk data ≠ None.
Proof.
  assert (LogSocketCallback_checked junk data = LogSocketCallback junk data)
    as Heq.
  { unfold LogSocketCallback_checked, LogSocketCallback.
    apply split_loop_checked_split_loop.
    rewrite length_new_char_array. lia. }
  split; [exact Heq|]. by rewrite Heq, LogSocketCallback_complete_lines.
Qed.

(** X3.  A chunk may be cut behind any newline or null byte: the two
    pieces, delivered one after the other, give the calls of the whole. *)
Theorem LogSocketCallback_cut_behind_terminator (junk : nat → byte)
    (a b : list byte) (t : byte) :
  is_terminator t = true →
  deliver_chunks junk [a ++ [t]; b] = LogSocketCallback junk (a ++ t :: b).
Proof.
  intros Ht. simpl. rewrite !LogSocketCallback_complete_lines.
  unfold complete_lines. rewrite (complete_lines_from_app [] a t b Ht).
  by rewrite app_nil_r.
Qed.

Lemma LogSocketCallback_cut_behind_terminator_witness :
  deliver_chunks ff_junk [[x61; x62] ++ [LF]; [x63; NUL; x64]]
  = LogSocketCallback ff_junk ([x61; x62] ++ LF :: [x63; NUL; x64]).
Proof. by apply LogSocketCallback_cut_behind_terminator. Defined.

(** X4.  The lines of a chunk, each counted with the byte that closes it,
    fit into the chunk: a chunk of [n] bytes gives at most [n / 2] calls
    and hands over fewer than [n] bytes in all. *)
Theorem LogSocketCallback_size (junk : nat → byte) (data : list byte)
    (calls : list (list byte)) :
  LogSocketCallback junk data = Some calls →
  (length (concat calls) + length calls ≤ length data)%nat ∧
  (2 * length calls ≤ length data)%nat.
Proof.
  rewrite LogSocketCallback_complete_lines. intros [= <-].
  pose proof (complete_lines_from_size [] data) as H. simpl in H.
  split; [exact H|].
  assert (Forall (λ l : list byte, l ≠ []) (complete_lines data)) as Hne.
  { destruct (segments_exist data) as (segs & tail & Hs & Ht & ->).
    rewrite complete_lines_segments by done.
    eapply Forall_impl; [by apply nonempty_lines_ok|]. by intros l [? _]. }
  assert (length (complete_lines data)
          ≤ length (concat (complete_lines data)))%nat;
    [|unfold complete_lines in *; lia].
  induction Hne as [|l ls Hl _ IH]; simpl; [lia|].
  rewrite length_app. destruct l; [done|]. simpl. lia.
Qed.

Lemma LogSocketCallback_size_witness :
  (length (concat [[x61]; [x62]]) + length [[x61]; [x62]]
   ≤ length [x61; NUL; LF; x62; LF; x63])%nat.
Proof.
  apply (LogSocketCallback_size ff_junk [x61; NUL; LF; x62; LF; x63]).
  reflexivity.
Defined.

(** ** The array [str] *)

Lemma skip_nul_shape (buffer : list byte) :
  match skip_nul buffer with
  | None => buffer ≠ [] ∧ Forall (λ c, is_nul c = true) buffer
  | Some b =>
      ∃ nuls, buffer = nuls ++ b ∧ Forall (λ c, is_nul c = true) nuls ∧
              (buffer ≠ [] → ∃ c l, b = c :: l ∧ is_nul c = false)
  end.
Proof.
  induction buffer as [|c rest IH]; simpl.
  - exists []. by repeat split.
  - destruct (is_nul c) eqn:Hc.
    + destruct rest as [|c' rest'].
      * split; [done|]. by repeat constructor.
      * destruct (skip_nul (c' :: rest')) as [b|].
        -- destruct IH as (nuls & Heq & Hn & Hb).
           exists (c :: nuls). rewrite Heq. split; [done|].
           split; [by constructor|]. intros _. by apply Hb.
        -- destruct IH as [_ IH]. split; [done|]. by constructor.
    + exists []. split; [done|]. split; [done|]. intros _. by exists c, rest.
Qed.

(** The inner loop stops behind the first null byte, or at the end. *)
Lemma scan_stops_at_nul (rest : list byte) : ∀ (i j : nat) str calls,
  ∃ k, (scan rest i j str calls).1.1 = (i + k)%nat ∧
       ((Forall (λ c, is_nul c = false) rest ∧ k = length rest) ∨
        (∃ l post, rest = l ++ NUL :: post ∧
                   Forall (λ c, is_nul c = false) l ∧ k = S (length l))).
Proof.
  induction rest as [|c rest IH]; intros i j str calls.
  - exists 0%nat. simpl. split; [lia|]. by left.
  - simpl scan. destruct (is_terminator c) eqn:Hterm.
    + destruct (is_nul c) eqn:Hnul.
      * exists 1%nat. simpl. split; [lia|]. right. exists [], rest.
        by rewrite (is_nul_true _ Hnul).
      * destruct (IH (S i) 0%nat (<[j:=NUL]> (<[j:=c]> str))
                    (if (0 <? j)%nat
                     then calls ++ [c_str (<[j:=NUL]> (<[j:=c]> str))]
                     else calls)) as (k & Hk & Hshape).
        exists (S k). split; [rewrite Hk; lia|].
        destruct Hshape as [[Hall ->]|(l & post & -> & Hl & ->)].
        -- left. split; [by constructor|done].
        -- right. exists (c :: l), post. split; [done|].
           split; [by constructor|done].
    + assert (Hnul : is_nul c = false).
      { destruct (is_nul c) eqn:E; [|done].
        by rewrite (is_nul_terminator _ E) in Hterm. }
      destruct (IH (S i) (S j) (<[j:=c]> str) calls) as (k & Hk & Hshape).
      exists (S k). split; [rewrite Hk; lia|].
      destruct Hshape as [[Hall ->]|(l & post & -> & Hl & ->)].
      * left. split; [by constructor|done].
      * right. exists (c :: l), post. split; [done|].
        split; [by constructor|done].
Qed.

Lemma stray_nul_app (l m : list byte) :
  (2 ≤ length l)%nat → stray_nul (l ++ m) = stray_nul l.
Proof. destruct l as [|c [|c' l]]; simpl; [lia|lia|done]. Qed.

Lemma ends_in_stray_nul_all_nul (buffer : list byte) :
  buffer ≠ [] → Forall (λ c, is_nul c = true) buffer →
  ends_in_stray_nul buffer = true.
Proof.
  intros Hne Hall. unfold ends_in_stray_nul.
  apply Forall_rev in Hall.
  assert (rev buffer ≠ []) as Hne'.
  { intros E. apply Hne. by rewrite <- (rev_involutive buffer), E. }
  destruct Hall as [|c r Hc Hr]; [done|]. simpl.
  destruct Hr as [|c' r' Hc' _]; [done|]. by rewrite Hc, Hc'.
Qed.

Lemma ends_in_stray_nul_plain_end (pre : list byte) (c : byte) :
  is_nul c = false → ends_in_stray_nul (pre ++ [c]) = false.
Proof.
  intros Hc. unfold ends_in_stray_nul. rewrite rev_app_distr. simpl.
  destruct (rev pre); simpl; by rewrite Hc.
Qed.

(** What comes before a line and its null byte does not matter. *)
Lemma ends_in_stray_nul_behind_line (pre l post : list byte) (c : byte) :
  is_nul c = false →
  ends_in_stray_nul (pre ++ (l ++ [c]) ++ NUL :: post)
  = ends_in_stray_nul post.
Proof.
  intros Hc. unfold ends_in_stray_nul.
  rewrite !rev_app_distr. simpl rev.
  destruct (rev post) as [|p1 [|p2 r]]; simpl.
  - by rewrite Hc.
  - by rewrite andb_true_r.
  - done.
Qed.

Lemma split_loop_delete_spec (fuel : nat) :
  ∀ (buffer str : list byte) calls,
  (length buffer < fuel)%nat →
  (length buffer < length str)%nat →
  split_loop_delete fuel buffer str calls
  = Some (calls ++ complete_lines buffer, negb (ends_in_stray_nul buffer)).
Proof.
  induction fuel as [|fuel IH]; intros buffer str calls Hfuel Hstr; [lia|].
  destruct buffer as [|c0 buffer0]; [by rewrite app_nil_r|].
  assert (Hne0 : c0 :: buffer0 ≠ []) by done.
  revert Hfuel Hstr Hne0. generalize (c0 :: buffer0) as buffer.
  intros buffer Hfuel Hstr Hne0.
  assert (Hunf : split_loop_delete (S fuel) buffer str calls
    = match skip_nul buffer with
      | None => Some (calls, false)
      | Some b => let '(i, str, calls) := scan b 0 0 str calls in
                  split_loop_delete fuel (drop i b) str calls
      end) by (destruct buffer; done).
  rewrite Hunf. clear Hunf.
  pose proof (skip_nul_spec buffer) as Hskip.
  pose proof (skip_nul_shape buffer) as Hshape.
  destruct (skip_nul buffer) as [b|].
  - destruct Hskip as (Hl & Hlen & Hne & _).
    destruct Hshape as (nuls & Hbuf & Hnuls & Hhead).
    destruct (Hhead Hne0) as (c & l0 & Hb & Hc).
    destruct (scan_spec b 0 0 str calls [])
      as (k & str' & calls' & Hs & Hk & Hpos & Hl' & Heq).
    { by rewrite take_0. } { done. } { simpl. lia. }
    destruct (scan_stops_at_nul b 0 0 str calls) as (k' & Hk' & Hstop).
    rewrite Hs in Hk'. simpl in Hk'. subst k'.
    rewrite Hs. simpl.
    specialize (Hpos (Hne Hne0)).
    rewrite IH by (rewrite length_drop; lia).
    f_equal. f_equal; [rewrite Heq; by rewrite <- Hl|]. f_equal.
    destruct Hstop as [[Hall ->]|(l & post & Hbl & Hall & ->)].
    + rewrite drop_all.
      destruct (exists_last (l := b)) as (b' & c' & Hb'); [by rewrite Hb|].
      rewrite Hbuf, Hb', app_assoc.
      rewrite ends_in_stray_nul_plain_end; [done|].
      rewrite Hb' in Hall. apply Forall_app in Hall as [_ Hall].
      by inversion Hall.
    + assert (l ≠ []) as Hlne.
      { intros ->. rewrite Hb in Hbl. injection Hbl as -> _.
        by vm_compute in Hc. }
      destruct (exists_last (l := l)) as (l' & c' & Hl0); [done|].
      assert (drop (S (length l)) b = post) as ->.
      { rewrite Hbl, (cons_middle NUL l post), app_assoc.
        apply drop_app_length'. rewrite length_app. simpl. lia. }
      rewrite Hbuf, Hbl, Hl0.
      apply eq_sym, ends_in_stray_nul_behind_line.
      rewrite Hl0 in Hall. apply Forall_app in Hall as [_ Hall].
      by inversion Hall.
  - destruct Hskip as [_ ->]. destruct Hshape as [Hne Hall].
    rewrite app_nil_r. by rewrite ends_in_stray_nul_all_nul.
Qed.

Lemma ends_in_stray_nul_shape (data : list byte) :
  ends_in_stray_nul data = true
  ↔ data = [NUL] ∨ ∃ pre, data = pre ++ [NUL; NUL].
Proof.
  unfold ends_in_stray_nul. split.
  - intros H. rewrite <- (rev_involutive data).
    destruct (rev data) as [|c [|c' r]]; simpl in *; [done| |].
    + left. by rewrite (is_nul_true _ H).
    + right. apply andb_prop in H as [Hc Hc'].
      rewrite (is_nul_true _ Hc), (is_nul_true _ Hc').
      exists (rev r). by rewrite <- app_assoc.
  - intros [->|[pre ->]]; [done|]. by rewrite rev_app_distr.
Qed.

(** X5.  [str] is freed by the last statement of the function, and the
    [return] of the leading loop leaves before it: the array of
    [length + 1] bytes is lost exactly for the chunks that are a single
    null byte or end in two null bytes.  The calls of the callback are
    the same in both cases. *)
Theorem LogSocketCallback_leaks_str (junk : nat → byte) (data : list byte) :
  ∃ calls freed,
    LogSocketCallback_delete junk data = Some (calls, freed) ∧
    LogSocketCallback junk data = Some calls ∧
    (freed = false ↔ data = [NUL] ∨ ∃ pre, data = pre ++ [NUL; NUL]).
Proof.
  exists (complete_lines data), (negb (ends_in_stray_nul data)).
  split.
  { unfold LogSocketCallback_delete.
    rewrite split_loop_delete_spec; [done | lia |].
    rewrite length_new_char_array. lia. }
  split; [apply LogSocketCallback_complete_lines|].
  rewrite <- ends_in_stray_nul_shape.
  by destruct (ends_in_stray_nul data).
Qed.

(* ===================================================================== *)
(** * Part VII: more about the [Device] objects                           *)
(* ===================================================================== *)

Section Sessions.
Context `{MobileDevice}.

Lemma eval_connect_connected t device d (s : Sys) :
  heap (globals s) !! device = Some d →
  0 < connected d →
  eval t (connect device) s
  = Some (set_globals
            (update device (set_connected (connected d + 1)) (globals s)) s,
          None).
Proof.
  intros Hd Hc. unfold connect. rewrite eval_Atomic. cbv beta zeta.
  cbn [fst snd]. rewrite (deref_lookup _ _ _ Hd).
  by assert ((0 <? connected d) = true) as -> by (by apply Z.ltb_lt).
Qed.

Lemma eval_connect_throws t device d (s s1 : Sys) e :
  heap (globals s) !! device = Some d →
  eval t (connect device) s = Some (s1, Some e) →
  connected d ≤ 0.
Proof.
  intros Hd Hev. destruct (Z.lt_ge_cases 0 (connected d)) as [Hc|Hc]; [|lia].
  rewrite (eval_connect_connected _ _ _ _ Hd Hc) in Hev. done.
Qed.

Lemma heap_update_eq device f g d :
  heap g !! device = Some d → heap (update device f g) !! device = Some (f d).
Proof.
  intros Hd. unfold update. cbn [heap set_heap].
  by rewrite lookup_alter_eq, Hd.
Qed.

(** X6.  [connect] raises the counter before it goes to the device and
    does not lower it when it throws.  So after a failed [connect] on a
    device that was not connected, the counter is 1, and the next
    [connect] returns normally without a single call into MobileDevice:
    the device counts as connected although no session was started. *)
Theorem connect_failure_keeps_counter (t : tid) (device : ptr) (d : Device)
    (s s1 : Sys) (e : runtime_error) :
  heap (globals s) !! device = Some d →
  eval t (connect device) s = Some (s1, Some e) →
  connected d ≤ 0 ∧
  ∃ d1, heap (globals s1) !! device = Some d1 ∧
        connected d1 = connected d + 1 ∧
        (connected d = 0 →
         ∃ s2 d2, eval t (connect device) s1 = Some (s2, None) ∧
                  trace (globals s2) = trace (globals s1) ∧
                  heap (globals s2) !! device = Some d2 ∧
                  connected d2 = 2).
Proof.
  intros Hd Hev. split; [by eapply eval_connect_throws|].
  destruct (eval_connect t device s) as (g' & r & Heq & HR).
  rewrite Hev in Heq. injection Heq as Hs1 Hr. subst s1 r.
  destruct HR as (_ & _ & _ & _ & _ & _ & _ & _ & Hdev).
  rewrite Hd in Hdev. destruct Hdev as (d1 & Hd1 & _ & _ & Hc & _).
  exists d1. cbn [globals set_globals]. split; [exact Hd1|].
  split; [exact Hc|]. intros H0.
  assert (Hd1' : heap (globals (set_globals g' s)) !! device = Some d1)
    by exact Hd1.
  rewrite (eval_connect_connected t device d1 _ Hd1') by lia.
  eexists _, _. split; [reflexivity|]. cbn [globals set_globals].
  split; [done|]. split; [by apply heap_update_eq|]. simpl. lia.
Qed.

(** X7.  [connect] followed by [disconnect] always comes to an end.  When
    [connect] does not throw, the counter is back at its value (at 0 for a
    value below 0), and for a device that is connected already the pair
    makes no call into MobileDevice.  When [connect] throws, [disconnect]
    is not reached and the counter stays raised by one. *)
Theorem connect_disconnect_balanced (t : tid) (device : ptr) (d : Device)
    (s : Sys) :
  heap (globals s) !! device = Some d →
  ∃ s' r d',
    eval t (connect device ;; disconnect device false) s = Some (s', r) ∧
    heap (globals s') !! device = Some d' ∧
    connectedDevices (globals s') = connectedDevices (globals s) ∧
    (r = None → connected d' = Z.max 0 (connected d)) ∧
    (r ≠ None → connected d' = connected d + 1) ∧
    (0 < connected d → r = None ∧ trace (globals s') = trace (globals s)).
Proof.
  intros Hd. rewrite eval_seq.
  destruct (eval_connect t device s) as (g' & r & Heq & HR).
  pose proof HR as (Hreg & _ & _ & _ & _ & _ & _ & _ & Hdev).
  rewrite Hd in Hdev. destruct Hdev as (d1 & Hd1 & _ & _ & Hc & _).
  rewrite Heq. destruct r as [e|].
  - exists (set_globals g' s), (Some e), d1. split; [done|].
    cbn [globals set_globals]. split; [done|]. split; [done|].
    split; [done|]. split; [by intros _|].
    intros Hpos. rewrite (eval_connect_connected _ _ _ _ Hd Hpos) in Heq.
    done.
  - rewrite eval_disconnect. cbn [globals set_globals].
    destruct (disconnected_globals_frame device d1 g' Hd1)
      as (Hreg2 & _ & _ & Hheap2 & Htr2).
    eexists _, None, _. split; [reflexivity|]. cbn [globals set_globals].
    split; [exact Hheap2|]. split; [by rewrite Hreg2|].
    split; [intros _; simpl; rewrite Hc; f_equal; lia|].
    split; [done|]. intros Hpos. split; [done|].
    rewrite Htr2.
    assert ((connected d1 - 1 <=? 0) = false) as ->
      by (apply Z.leb_gt; lia).
    rewrite app_nil_r.
    rewrite (eval_connect_connected _ _ _ _ Hd Hpos) in Heq.
    injection Heq as Heq. by rewrite <- Heq.
Qed.

End Sessions.

Lemma connect_failure_keeps_counter_witness :
  ∃ s1 e d1,
    eval (H := sample_failing) 0 (connect (H := sample_failing) 1)
      worker_state = Some (s1, Some e) ∧
    heap (globals s1) !! 1%nat = Some d1 ∧ connected d1 = 1.
Proof.
  destruct (eval (H := sample_failing) 0 (connect (H := sample_failing) 1)
              worker_state) as [[s1 [e|]]|] eqn:Hev;
    [|vm_compute in Hev; discriminate Hev..].
  destruct (connect_failure_keeps_counter (H := sample_failing) 0%nat 1%nat
              (Device_new (H := sample_failing) 1) worker_state s1 e
              eq_refl Hev) as (_ & d1 & Hd1 & Hc & _).
  exists s1, e, d1. split; [reflexivity|]. split; [exact Hd1|].
  rewrite Hc. reflexivity.
Defined.

Lemma connect_disconnect_balanced_witness :
  ∃ s' r d',
    eval (H := sample_ok) 0
      (connect (H := sample_ok) 1 ;; disconnect 1 false)
      (mkSys pending_globals 0 None None None []) = Some (s', r) ∧
    heap (globals s') !! 1%nat = Some d' ∧
    (r = None → connected d' = 0).
Proof.
  destruct (connect_disconnect_balanced (H := sample_ok) 0%nat 1%nat
              (Device_new (H := sample_ok) 1)
              (mkSys pending_globals 0 None None None []) eq_refl)
    as (s' & r & d' & Hev & Hd' & _ & Hnone & _).
  exists s', r, d'. split; [exact Hev|]. split; [exact Hd'|exact Hnone].
Defined.

(* ===================================================================== *)
(** * Part VIII: more about the functions of the host                     *)
(* ===================================================================== *)

Section Host.
Context `{MobileDevice}.

Lemma snapshot_frame g g' :
  connectedDevices g' = connectedDevices g → heap g' = heap g →
  snapshot g' = snapshot g.
Proof. intros Hreg Hheap. unfold snapshot, deref. by rewrite Hreg, Hheap. Qed.

Lemma exec_devices_idle g ths :
  pendingEvents g ≤ 0 →
  exec 0 devices (mkSys g 0 None None None ths)
  = let g' := debug "Found %d device%s"
                [arg_d (Z.of_nat (size (connectedDevices g)));
                 arg_s (if (size (connectedDevices g) =? 1)%nat
                        then "" else "s")] g in
    Some (mkSys (observe (EvOutcome (returned_array (snapshot g'))) g')
            0 None None None ths).
Proof.
  intros Hpe. unfold devices.
  rewrite exec_Sync.
  cbn [sync_step is_free pendingMutex globals shared_count upgrade exclusive
       threads].
  rewrite exec_Get_mk.
  assert ((0 <? pendingEvents g) = false) as -> by (apply Z.ltb_ge; lia).
  cbn [seq]. rewrite exec_Sync.
  cbn [sync_step is_free pendingMutex globals shared_count upgrade exclusive
       threads].
  rewrite !exec_Upd_mk. rewrite !exec_Sync.
  cbn [sync_step is_free held_by Nat.eqb Nat.pred pendingMutex globals
       shared_count upgrade exclusive threads exec].
  reflexivity.
Qed.

(** X8.  With no event pending and no lock held, [devices] returns at
    once.  The array has one object for every identifier in the
    dictionary, each the properties of the [Device] registered for it;
    the dictionary, the objects, the counter and the threads are as they
    were, and no lock is left held. *)
Theorem devices_returns_snapshot (s : Sys) :
  quiescent s →
  pendingEvents (globals s) ≤ 0 →
  ∃ s',
    exec 0 devices s = Some s' ∧
    quiescent s' ∧ threads s' = threads s ∧
    connectedDevices (globals s') = connectedDevices (globals s) ∧
    heap (globals s') = heap (globals s) ∧
    pendingEvents (globals s') = pendingEvents (globals s) ∧
    devicesChanged (globals s') = devicesChanged (globals s) ∧
    outcomes (trace (globals s'))
    = outcomes (trace (globals s)) ++ [returned_array (snapshot (globals s))] ∧
    length (snapshot (globals s)) = size (connectedDevices (globals s)) ∧
    (∀ m, m ∈ snapshot (globals s) ↔
          ∃ id device, connectedDevices (globals s) !! id = Some device ∧
                       m = props (deref (globals s) device)).
Proof.
  intros (Hsc & Hup & Hex & Hpm) Hpe.
  destruct s as [g sc up ex pm ths]. cbn in Hsc, Hup, Hex, Hpm, Hpe. subst.
  rewrite exec_devices_idle by done. cbv zeta.
  eexists. split; [reflexivity|]. split; [done|].
  cbn [globals threads]. split; [done|].
  set (g' := debug _ _ g).
  destruct (frame_debug "Found %d device%s"
              [arg_d (Z.of_nat (size (connectedDevices g)));
               arg_s (if (size (connectedDevices g) =? 1)%nat
                      then "" else "s")] g)
    as (Hreg & Hpe' & Hch & Hheap & _).
  fold g' in Hreg, Hpe', Hch, Hheap.
  rewrite (snapshot_frame g g') by done.
  split; [exact Hreg|]. split; [exact Hheap|]. split; [exact Hpe'|].
  split; [exact Hch|]. split.
  { change (trace (observe ?e g')) with (trace g' ++ [e]).
    rewrite outcomes_app. unfold g'. by rewrite outcomes_debug. }
  split.
  { unfold snapshot. by rewrite length_map, length_map_to_list. }
  intros m. unfold snapshot.
  change (map ?f ?l) with (f <$> l). rewrite list_elem_of_fmap. split.
  - intros ([id device] & -> & Hin). apply elem_of_map_to_list in Hin.
    by exists id, device.
  - intros (id & device & Hreg' & ->). exists (id, device).
    split; [done|]. by apply elem_of_map_to_list.
Qed.

(** *** Notifications *)

Lemma heap_deleted_globals device g :
  heap (deleted_globals device g) = delete device (heap g).
Proof.
  unfold deleted_globals. cbv zeta.
  cbn [heap observe set_heap].
  rewrite (proj1 (proj2 (proj2 (proj2 (frame_release_log _ _))))).
  cbn [heap observe update set_heap].
  apply map_eq. intros p. destruct (decide (p = device)) as [->|Hne].
  - by rewrite !lookup_delete_eq.
  - by rewrite !lookup_delete_ne, lookup_alter_ne.
Qed.

Lemma heap_debug_udid format device g p :
  p ≠ device → heap (debug_udid format device g) !! p = heap g !! p.
Proof.
  intros Hne. unfold debug_udid. destruct (index_props _ _) as [v d'].
  rewrite (proj1 (proj2 (proj2 (proj2 (frame_debug _ _ _))))).
  unfold update. cbn [heap set_heap]. by rewrite lookup_alter_ne.
Qed.

Lemma heap_set_devicesChanged b g : heap (set_devicesChanged b g) = heap g.
Proof. done. Qed.

Lemma heap_set_connectedDevices m g : heap (set_connectedDevices m g) = heap g.
Proof. done. Qed.

Lemma heap_detached_globals id device g p :
  heap (detached_globals id device g) !! p
  = if decide (p = device) then None else heap g !! p.
Proof.
  unfold detached_globals. cbv zeta.
  rewrite heap_set_devicesChanged, heap_deleted_globals.
  destruct (decide (p = device)) as [->|Hne].
  - by rewrite lookup_delete_eq.
  - rewrite lookup_delete_ne by done.
    rewrite (proj1 (proj2 (proj2 (proj2 (frame_release_log _ _))))).
    rewrite heap_set_connectedDevices.
    by apply heap_debug_udid.
Qed.

(** X9.  The detachment of a registered device, handled with no lock
    held: the identifier leaves the dictionary, the object is deleted,
    the flag is set; every other identifier and every other object, the
    counter of pending events and the threads are as they were, and no
    lock is left held. *)
Theorem detach_removes_the_device (dev : am_device) (msg : Z)
    (device : ptr) (s : Sys) :
  msg = ADNCI_MSG_DISCONNECTED →
  quiescent s →
  connectedDevices (globals s) !! AMDeviceCopyDeviceIdentifier dev
    = Some device →
  ∃ s',
    exec 0 (on_device_notification dev msg) s = Some s' ∧
    quiescent s' ∧ threads s' = threads s ∧
    connectedDevices (globals s')
    = delete (AMDeviceCopyDeviceIdentifier dev) (connectedDevices (globals s)) ∧
    heap (globals s') !! device = None ∧
    (∀ p, p ≠ device → heap (globals s') !! p = heap (globals s) !! p) ∧
    devicesChanged (globals s') = true ∧
    pendingEvents (globals s') = pendingEvents (globals s).
Proof.
  intros Hmsg (Hsc & Hup & Hex & Hpm) Hreg.
  destruct s as [g sc up ex pm ths]. cbn in Hsc, Hup, Hex, Hpm, Hreg. subst.
  rewrite (exec_on_detach dev _ device) by done.
  eexists. split; [reflexivity|]. split; [done|]. cbn [globals threads].
  destruct (frame_detached_globals (AMDeviceCopyDeviceIdentifier dev) device g)
    as (Hreg' & Hpe & Hch).
  split; [done|]. split; [exact Hreg'|]. split.
  { rewrite heap_detached_globals. by rewrite decide_True. }
  split.
  { intros p Hne. rewrite heap_detached_globals. by rewrite decide_False. }
  split; [exact Hch|exact Hpe].
Qed.

(** X10.  A notification that is neither an attachment nor a detachment
    (MobileDevice has other codes) changes nothing, whether the identifier
    is in the dictionary or not: no object is made, no thread is started,
    and the shared lock taken for the lookup is given back. *)
Theorem notification_other_codes_ignored (dev : am_device) (msg : Z)
    (s : Sys) :
  msg ≠ ADNCI_MSG_CONNECTED → msg ≠ ADNCI_MSG_DISCONNECTED →
  exclusive s = None →
  exec 0 (on_device_notification dev msg) s = Some s.
Proof.
  intros Hc Hd Hex. destruct s as [g sc up ex pm ths]. cbn in Hex. subst.
  apply exec_on_noop.
  destruct (CFDictionaryContainsKey _ _); by apply Z.eqb_neq.
Qed.

End Host.

Lemma devices_returns_snapshot_witness :
  ∃ s', exec (H := sample_ok) 0 devices (init (H := sample_ok) []) = Some s' ∧
        outcomes (trace (globals s')) = [returned_array []].
Proof.
  destruct (devices_returns_snapshot (H := sample_ok) (init (H := sample_ok) [])
              (quiescent_init _) ltac:(done))
    as (s' & Hexec & _ & _ & _ & _ & _ & _ & Hout & _).
  exists s'. split; [exact Hexec|]. rewrite Hout. reflexivity.
Defined.

Lemma detach_removes_the_device_witness :
  ∃ s', exec (H := sample_ok) 0
          (on_device_notification (H := sample_ok) 1 2)
          (mkSys subscribed_globals 0 None None None []) = Some s' ∧
        connectedDevices (globals s') !! "A"%string = None ∧
        heap (globals s') !! 1%nat = None.
Proof.
  destruct (detach_removes_the_device (H := sample_ok) 1%nat 2 1%nat
              (mkSys subscribed_globals 0 None None None [])
              eq_refl ltac:(done) eq_refl)
    as (s' & Hexec & _ & _ & Hreg & Hheap & _).
  exists s'. split; [exact Hexec|]. split; [|exact Hheap].
  rewrite Hreg. reflexivity.
Defined.

Lemma notification_other_codes_ignored_witness :
  exec (H := sample_ok) 0 (on_device_notification (H := sample_ok) 1 3)
    (init (H := sample_ok) [])
  = Some (init (H := sample_ok) []).
Proof.
  apply (notification_other_codes_ignored (H := sample_ok));
    [discriminate..|reflexivity].
Defined.

(* ===================================================================== *)
(** * Part IX: the module with a library that answers well                *)
(* ===================================================================== *)

Section Answers.
Context `{MobileDevice}.

Lemma eval_Call t c k (s : Sys) :
  eval t (Call c k) s
  = eval t (k (am_result (trace (globals s)) c))
      (set_globals (observe (EvCall c) (globals s)) s).
Proof. done. Qed.

Lemma set_globals_set_globals g g' (s : Sys) :
  set_globals g' (set_globals g s) = set_globals g' s.
Proof. done. Qed.

Lemma observe_calls g calls :
  trace (foldl (λ g c, observe (EvCall c) g) g calls)
  = trace g ++ map EvCall calls.
Proof.
  revert g. induction calls as [|c calls IH]; intros g; simpl.
  - by rewrite app_nil_r.
  - rewrite IH. simpl. by rewrite <- app_assoc.
Qed.

(** [connect_session] with a library that answers well. *)
Lemma eval_connect_session_ok t h (s : Sys) :
  codes_distinct → session_starts h →
  eval t (connect_session h) s
  = Some (set_globals
            (foldl (λ g c, observe (EvCall c) g) (globals s) (session_calls h))
            s, None).
Proof.
  intros (H1 & H2 & H3 & H4) Hok. unfold connect_session.
  assert (Hne : ∀ x, MDERR_OK ≠ x → (MDERR_OK =? x) = false)
    by (intros x Hx; by apply Z.eqb_neq).
  rewrite eval_seq, eval_Call. rewrite (proj1 (Hok _)).
  rewrite !Hne by done. rewrite Z.eqb_refl. cbn [negb eval].
  rewrite eval_seq, eval_Call. rewrite (proj1 (proj2 (Hok _))).
  cbn [Z.eqb Pos.eqb negb eval].
  rewrite eval_seq, eval_Call. rewrite (proj1 (proj2 (proj2 (Hok _)))).
  rewrite !Hne by done. rewrite Z.eqb_refl. cbn [negb eval].
  rewrite (proj2 (proj2 (proj2 (Hok _)))).
  rewrite !Hne by done. rewrite Z.eqb_refl. cbn [negb eval].
  reflexivity.
Qed.

(** *** The worker *)

Lemma eval_set t device key id (s : Sys) :
  eval t (set device key id) s
  = Some (set_globals (after_set device key id (globals s)) s, None).
Proof.
  unfold set, after_set. rewrite eval_Get. cbn [eval]. cbv zeta.
  cbn [globals set_globals].
  by destruct (am_string _ _ _).
Qed.

Lemma eval_host_attached t device (s : Sys) :
  eval t (Get (λ g, handle (deref g device)) (λ h,
          CopyNumber h "HostAttached" (λ value,
            Upd (update device (set_hostConnected (value =? 1))) Ret))) s
  = Some (set_globals (after_host_attached device (globals s)) s, None).
Proof. rewrite eval_Get. reflexivity. Qed.

Lemma set_props_id d : set_props (props d) d = d.
Proof. by destruct d. Qed.

Lemma after_set_spec device key id d g :
  heap g !! device = Some d →
  heap (after_set device key id g) !! device
  = Some (set_props
            (match am_string (trace g) (handle d) id with
             | Some value => <[key := value]> (props d)
             | None => props d
             end) d) ∧
  trace (after_set device key id g)
  = trace g ++ [EvCall (AMDeviceCopyValue (handle d) id)] ∧
  connectedDevices (after_set device key id g) = connectedDevices g ∧
  pendingEvents (after_set device key id g) = pendingEvents g ∧
  devicesChanged (after_set device key id g) = devicesChanged g ∧
  ∀ p, p ≠ device → heap (after_set device key id g) !! p = heap g !! p.
Proof.
  intros Hd. unfold after_set. cbv zeta. rewrite (deref_lookup _ _ _ Hd).
  destruct (am_string (trace g) (handle d) id) as [value|].
  - split.
    { exact (heap_update_eq device
               (λ d, set_props (<[key := value]> (props d)) d) _ d Hd). }
    repeat split; try done.
    intros p Hne. unfold update. cbn [heap set_heap observe].
    by rewrite lookup_alter_ne.
  - cbn [heap observe trace]. rewrite set_props_id. done.
Qed.

(** The ten calls of [set], for a device whose answers do not depend on
    what has happened before. *)
Lemma after_sets_spec device answers (l : list (string * string)) :
  ∀ d g,
    heap g !! device = Some d →
    (∀ tr id, am_string tr (handle d) id = answers id) →
    let g' := foldl (λ g kv, after_set device kv.1 kv.2 g) g l in
    heap g' !! device
    = Some (set_props
              (foldl (λ m kv, match answers kv.2 with
                              | Some value => <[kv.1 := value]> m
                              | None => m
                              end) (props d) l) d) ∧
    trace g'
    = trace g ++ map (λ kv, EvCall (AMDeviceCopyValue (handle d) kv.2)) l ∧
    connectedDevices g' = connectedDevices g ∧
    pendingEvents g' = pendingEvents g ∧
    devicesChanged g' = devicesChanged g ∧
    ∀ p, p ≠ device → heap g' !! p = heap g !! p.
Proof.
  induction l as [|[key id] l IH]; intros d g Hd Hans; cbv zeta.
  - cbn [foldl map]. rewrite set_props_id, app_nil_r. done.
  - cbn [foldl map fst snd].
    destruct (after_set_spec device key id d g Hd)
      as (Hd1 & Htr1 & Hreg1 & Hpe1 & Hch1 & Hheap1).
    rewrite Hans in Hd1.
    destruct (IH _ _ Hd1 Hans) as (Hd2 & Htr2 & Hreg2 & Hpe2 & Hch2 & Hheap2).
    cbv zeta in Hd2, Htr2, Hreg2, Hpe2, Hch2, Hheap2.
    split; [exact Hd2|].
    split; [rewrite Htr2, Htr1; by rewrite <- app_assoc|].
    split; [congruence|]. split; [congruence|]. split; [congruence|].
    intros p Hp. by rewrite Hheap2, Hheap1.
Qed.

Lemma eval_sets t device (l : list (string * string)) q : ∀ (s : Sys),
  eval t (foldr (λ kv rest, set device kv.1 kv.2 ;; rest) q l) s
  = eval t q
      (set_globals (foldl (λ g kv, after_set device kv.1 kv.2 g) (globals s) l)
         s).
Proof.
  induction l as [|[key id] l IH]; intros s; cbn [foldr foldl fst snd].
  - by rewrite set_globals_id.
  - rewrite eval_seq, eval_set, IH. done.
Qed.

Lemma store_lookup (answers : string → option string)
    (l : list (string * string)) : ∀ (m : gmap string string) (key : string),
  NoDup l.*1 →
  foldl (λ m kv, match answers kv.2 with
                 | Some value => <[kv.1 := value]> m
                 | None => m
                 end) m l !! key
  = match list_find (λ kv, kv.1 = key) l with
    | Some (_, kv) => match answers kv.2 with
                      | Some value => Some value
                      | None => m !! key
                      end
    | None => m !! key
    end.
Proof.
  induction l as [|[k id] l IH]; intros m key Hnd; [done|].
  cbn [foldl fst snd]. rewrite fmap_cons, NoDup_cons in Hnd.
  destruct Hnd as [Hk Hnd]. cbn [fst] in Hk.
  rewrite IH by done. cbn [list_find fst snd].
  destruct (decide (k = key)) as [->|Hne].
  - assert (list_find (λ kv : string * string, kv.1 = key) l = None) as ->.
    { apply list_find_None, Forall_forall. intros [k' id'] Hin Heq.
      simpl in Heq. subst k'.
      apply Hk. apply list_elem_of_fmap. by exists (key, id'). }
    cbn [snd]. destruct (answers id); [by rewrite lookup_insert_eq|done].
  - destruct (list_find _ l) as [[i [k' id']]|] eqn:E; simpl.
    + destruct (answers id'); [done|].
      destruct (answers id); [by rewrite lookup_insert_ne|done].
    + destruct (answers id); [by rewrite lookup_insert_ne|done].
Qed.

Lemma eval_fetch_info_ok t device d answers host (s : Sys) :
  codes_distinct → session_starts (handle d) →
  (∀ tr id, am_string tr (handle d) id = answers id) →
  (∀ tr, am_number tr (handle d) "HostAttached" = host) →
  heap (globals s) !! device = Some d → connected d ≤ 0 →
  ∃ g1,
    eval t (fetch_info device) s = Some (set_globals g1 s, None) ∧
    heap g1 !! device
    = Some (set_hostConnected (host =? 1)
              (set_props (enrich answers (props d))
                 (set_connected (connected d + 1) d))) ∧
    trace g1
    = trace (globals s)
      ++ map EvCall
           (session_calls (handle d)
            ++ map (λ kv, AMDeviceCopyValue (handle d) kv.2) enrichment
            ++ [AMDeviceCopyValue (handle d) "HostAttached"]) ∧
    connectedDevices g1 = connectedDevices (globals s) ∧
    pendingEvents g1 = pendingEvents (globals s) ∧
    devicesChanged g1 = devicesChanged (globals s) ∧
    ∀ p, p ≠ device → heap g1 !! p = heap (globals s) !! p.
Proof.
  intros Hcodes Hok Hans Hhost Hd Hc. unfold fetch_info.
  rewrite eval_seq. unfold connect. rewrite eval_Atomic. cbv beta zeta.
  cbn [fst snd]. rewrite (deref_lookup _ _ _ Hd).
  assert ((0 <? connected d) = false) as -> by (apply Z.ltb_ge; lia).
  rewrite eval_connect_session_ok by done.
  cbn [globals set_globals]. rewrite set_globals_set_globals.
  set (g0 := foldl _ (update device _ (globals s)) (session_calls (handle d))).
  change (set device "name" "DeviceName" ;; ?q)
    with (foldr (λ kv rest, set device kv.1 kv.2 ;; rest)
            (Get (λ g, handle (deref g device)) (λ h,
             CopyNumber h "HostAttached" (λ value,
               Upd (update device (set_hostConnected (value =? 1))) Ret)))
            enrichment).
  rewrite eval_sets, eval_host_attached.
  cbn [globals set_globals]. rewrite set_globals_set_globals.
  set (d0 := set_connected (connected d + 1) d).
  assert (Hd0 : heap g0 !! device = Some d0).
  { unfold g0. cbn [session_calls foldl heap observe].
    by apply heap_update_eq. }
  assert (Htr0 : trace g0
                 = trace (globals s) ++ map EvCall (session_calls (handle d))).
  { unfold g0. by rewrite observe_calls. }
  destruct (after_sets_spec device answers enrichment d0 g0 Hd0 Hans)
    as (Hd1 & Htr1 & Hreg1 & Hpe1 & Hch1 & Hheap1).
  cbv zeta in Hd1, Htr1, Hreg1, Hpe1, Hch1, Hheap1.
  set (g1 := foldl _ g0 enrichment) in *.
  eexists. split; [reflexivity|].
  unfold after_host_attached. cbv zeta. rewrite (deref_lookup _ _ _ Hd1).
  cbn [handle set_props]. change (handle d0) with (handle d). rewrite Hhost.
  split.
  { erewrite heap_update_eq; [reflexivity|]. exact Hd1. }
  split.
  { change (trace (update ?a ?b ?x)) with (trace x).
    change (trace (observe ?e ?x)) with (trace x ++ [e]).
    rewrite Htr1, Htr0. change (handle d0) with (handle d).
    rewrite !map_app, map_map, <- !app_assoc. done. }
  split; [exact Hreg1|]. split; [exact Hpe1|]. split; [exact Hch1|].
  intros p Hp. unfold update. cbn [heap set_heap observe].
  rewrite lookup_alter_ne by done. rewrite Hheap1 by done.
  unfold g0. cbn [session_calls foldl heap observe update set_heap].
  by rewrite lookup_alter_ne.
Qed.

Lemma NoDup_enrichment : NoDup enrichment.*1.
Proof. unfold enrichment. cbn [fmap list_fmap fst]. 
  repeat (apply NoDup_cons; split;
          [intros Hin;
           repeat (apply elem_of_cons in Hin as [Hin|Hin]; [discriminate Hin|]);
           by apply elem_of_nil in Hin|]).
  apply NoDup_nil_2.
Qed.

Lemma enrich_lookup (answers : string → option string)
    (m : gmap string string) key id value :
  (key, id) ∈ enrichment → answers id = Some value →
  enrich answers m !! key = Some value.
Proof.
  intros Hin Hans. unfold enrich. rewrite store_lookup by apply NoDup_enrichment.
  unfold enrichment in Hin.
  repeat (apply elem_of_cons in Hin as [[= -> ->]|Hin];
          [vm_compute list_find; cbn [snd]; by rewrite Hans|]).
  by apply elem_of_nil in Hin.
Qed.

(** X11.  The worker of a device that is not connected, with a library
    that starts the session and whose answers do not depend on what has
    happened before: the worker connects, reads the ten properties and
    ["HostAttached"], and ends the session, in this order and with no
    other call.  Afterwards the object holds every property that the
    device has answered, under the key of the module; where the device
    has no answer, the property is as it was.  The host flag tells
    whether ["HostAttached"] is 1, and the connection counter is 0. *)
Theorem getDeviceInfo_stores_answers (t : tid) (device : ptr) (d : Device)
    (answers : string → option string) (host : Z) (s : Sys) :
  codes_distinct → session_starts (handle d) →
  (∀ tr id, am_string tr (handle d) id = answers id) →
  (∀ tr, am_number tr (handle d) "HostAttached" = host) →
  quiescent s →
  heap (globals s) !! device = Some d →
  connected d = 0 →
  ∃ s' d',
    exec t (getDeviceInfo device) s = Some s' ∧
    quiescent s' ∧
    heap (globals s') !! device = Some d' ∧
    props d' = enrich answers (props d) ∧
    (∀ key id value, (key, id) ∈ enrichment → answers id = Some value →
                     props d' !! key = Some value) ∧
    hostConnected d' = (host =? 1) ∧
    connected d' = 0 ∧
    handle d' = handle d ∧ udid d' = udid d ∧
    trace (globals s')
    = trace (globals s)
      ++ map EvCall
           (session_calls (handle d)
            ++ map (λ kv, AMDeviceCopyValue (handle d) kv.2) enrichment
            ++ [AMDeviceCopyValue (handle d) "HostAttached";
                AMDeviceStopSession (handle d);
                AMDeviceDisconnect (handle d)]).
Proof.
  intros Hcodes Hok Hans Hhost (Hsc & Hup & Hex & Hpm) Hd Hc.
  destruct s as [g sc up ex pm ths]. cbn in Hsc, Hup, Hex, Hpm, Hd. subst.
  cbn [globals].
  destruct (exec_getDeviceInfo t device g ths) as (g1 & Hev & _ & Hexec).
  destruct (worker_start_globals_frame device d g Hd)
    as (Hh0 & Htr0 & _ & _ & _).
  assert (Hd0 : heap (globals (mkSys (worker_start_globals device g) 0 None
                                 (Some t) None ths)) !! device = Some d).
  { cbn [globals]. by rewrite Hh0. }
  destruct (eval_fetch_info_ok t device d answers host _ Hcodes Hok Hans Hhost
              Hd0 ltac:(lia))
    as (G & HevG & HdG & HtrG & _ & _ & _ & _).
  rewrite eval_try_catch, HevG in Hev. unfold set_globals in Hev.
  cbn [globals shared_count upgrade exclusive pendingMutex threads] in Hev.
  injection Hev as ->.
  cbn [globals] in HtrG. rewrite Htr0 in HtrG.
  destruct (disconnected_globals_frame device _ g1 HdG)
    as (_ & _ & _ & Hheap2 & Htr2).
  destruct (barrier_globals_frame (disconnected_globals device g1))
    as (_ & Hheap3 & Htr3 & _ & _).
  rewrite Hexec. cbv zeta. eexists _, _. split; [reflexivity|].
  split; [done|]. cbn [globals].
  rewrite Hheap3, Htr3, Htr2, HtrG.
  split; [exact Hheap2|]. cbn [props set_connected set_hostConnected set_props
    hostConnected connected handle udid].
  split; [done|]. split; [intros key id value; apply enrich_lookup|].
  split; [done|]. split; [rewrite Hc; reflexivity|].
  split; [done|]. split; [done|].
  rewrite Hc. cbn [Z.add Z.sub Z.leb Z.compare Z.pos_sub].
  rewrite !map_app, <- !app_assoc. done.
Qed.

End Answers.

Lemma session_starts_sample_ok h : session_starts (H := sample_ok) h.
Proof. by intros tr. Qed.

Lemma codes_distinct_sample_ok : codes_distinct (H := sample_ok).
Proof. by repeat split. Qed.

Lemma getDeviceInfo_stores_answers_witness :
  ∃ s' d',
    exec (H := sample_ok) 1 (getDeviceInfo (H := sample_ok) 1)
      (mkSys pending_globals 0 None None None []) = Some s' ∧
    heap (globals s') !! 1%nat = Some d' ∧
    props d' !! "name"%string = Some "phone"%string ∧
    hostConnected d' = true.
Proof.
  destruct (getDeviceInfo_stores_answers (H := sample_ok) 1%nat 1%nat
              (Device_new (H := sample_ok) 1)
              (λ key, if String.eqb key "DeviceName"
                      then Some "phone"%string else None) 1
              (mkSys pending_globals 0 None None None [])
              codes_distinct_sample_ok (session_starts_sample_ok _)
              ltac:(done) ltac:(done) ltac:(done) eq_refl eq_refl)
    as (s' & d' & Hexec & _ & Hd' & _ & Hkey & Hhost & _).
  exists s', d'. split; [exact Hexec|]. split; [exact Hd'|].
  split; [|exact Hhost].
  apply (Hkey _ "DeviceName"%string); [|reflexivity].
  apply elem_of_cons. by left.
Defined.

Section Subscription.
Context `{MobileDevice}.

Lemma eval_connect_ok t device d (s : Sys) :
  codes_distinct → session_starts (handle d) →
  heap (globals s) !! device = Some d → connected d ≤ 0 →
  eval t (connect device) s
  = Some (set_globals
            (foldl (λ g c, observe (EvCall c) g)
               (update device (set_connected (connected d + 1)) (globals s))
               (session_calls (handle d))) s, None).
Proof.
  intros Hcodes Hok Hd Hc. unfold connect. rewrite eval_Atomic.
  cbv beta zeta. cbn [fst snd]. rewrite (deref_lookup _ _ _ Hd).
  assert ((0 <? connected d) = false) as -> by (apply Z.ltb_ge; lia).
  rewrite eval_connect_session_ok by done.
  cbn [globals set_globals]. by rewrite set_globals_set_globals.
Qed.

Lemma connected_globals_frame device d g :
  heap g !! device = Some d →
  let g' := foldl (λ g c, observe (EvCall c) g)
              (update device (set_connected (connected d + 1)) g)
              (session_calls (handle d)) in
  heap g' !! device = Some (set_connected (connected d + 1) d) ∧
  trace g' = trace g ++ map EvCall (session_calls (handle d)) ∧
  connectedDevices g' = connectedDevices g ∧
  next_resource g' = next_resource g ∧
  pendingEvents g' = pendingEvents g ∧
  devicesChanged g' = devicesChanged g ∧
  ∀ p, p ≠ device → heap g' !! p = heap g !! p.
Proof.
  intros Hd. cbv zeta. split.
  { cbn [session_calls foldl heap observe]. by apply heap_update_eq. }
  split; [by rewrite observe_calls|]. repeat split; try done.
  intros p Hp. cbn [session_calls foldl heap observe update set_heap].
  by rewrite lookup_alter_ne.
Qed.

Lemma next_resource_disconnected_globals device g :
  next_resource (disconnected_globals device g) = next_resource g.
Proof.
  unfold disconnected_globals. cbv zeta.
  by destruct (connected (deref g device) - 1 <=? 0).
Qed.

(** X12.  [log] for a registered device that is attached to the host and
    not connected, with a library that answers well: the call connects,
    starts the syslog relay and ends the session, makes the socket and
    its run loop source, adds the source to the run loop, releases the
    subscription that the object held before, once, and installs the new
    one.  The listener, the socket and the source are three new
    resources; the connection counter is back at 0 and the properties of
    the object are as they were. *)
Theorem log_installs_subscription (id : string) (f : nat) (device : ptr)
    (d : Device) (s : Sys) :
  id ≠ ""%string →
  codes_distinct → session_starts (handle d) →
  (∀ tr, am_result tr (AMDeviceStartService (handle d) AMSVC_SYSLOG_RELAY)
         = MDERR_OK) →
  (∀ tr conn, CFSocketCreateWithNative tr conn = true) →
  (∀ tr socket, CFSocketCreateRunLoopSource tr socket = true) →
  connectedDevices (globals s) !! id = Some device →
  heap (globals s) !! device = Some d →
  hostConnected d = true → connected d = 0 →
  let r := next_resource (globals s) in
  let h := handle d in
  ∃ s' d' conn,
    exec 0 (log [JsString id; JsFunction f]) s = Some s' ∧
    heap (globals s') !! device = Some d' ∧
    logCallback d' = Some r ∧ logSocket d' = Some (S r) ∧
    logSource d' = Some (S (S r)) ∧ logConnection d' = Some conn ∧
    next_resource (globals s') = S (S (S r)) ∧
    connected d' = 0 ∧ props d' = props d ∧
    hostConnected d' = true ∧
    connectedDevices (globals s') = connectedDevices (globals s) ∧
    trace (globals s')
    = trace (globals s)
      ++ map EvCall (session_calls h
                     ++ [AMDeviceStartService h AMSVC_SYSLOG_RELAY;
                         AMDeviceStopSession h; AMDeviceDisconnect h])
      ++ [EvAddSource (S (S r))]
      ++ log_releases d
      ++ [EvOutcome returned_undefined].
Proof.
  intros Hid Hcodes Hok Hsvc Hsock Hsrc Hreg Hd Hhost Hc r h.
  rewrite exec_eval, (eval_log_registered _ _ device) by done.
  cbv zeta. rewrite (deref_lookup _ _ _ Hd), Hhost. cbn [negb].
  fold r.
  set (s1 := set_globals (set_next_resource (S r) (globals s)) s).
  assert (Hd1 : heap (globals s1) !! device = Some d) by exact Hd.
  rewrite eval_try_catch, eval_seq.
  rewrite (eval_connect_ok 0 device d s1) by (done || lia).
  destruct (connected_globals_frame device d (globals s1) Hd1)
    as (Hd2 & Htr2 & Hreg2 & Hnr2 & _ & _ & _).
  cbv zeta in Hd2, Htr2, Hreg2, Hnr2.
  set (g2 := foldl _ (update device _ (globals s1)) (session_calls (handle d)))
    in *.
  unfold startService. rewrite eval_Get. cbv zeta.
  cbn [fst snd globals set_globals]. rewrite (deref_lookup _ _ _ Hd2).
  change (handle (set_connected (connected d + 1) d)) with h.
  rewrite eval_Call. cbn [globals set_globals]. rewrite Hsvc.
  destruct Hcodes as (C1 & _ & C3 & _).
  assert ((MDERR_OK =? MDERR_SYSCALL) = false) as -> by (by apply Z.eqb_neq).
  assert ((MDERR_OK =? MDERR_INVALID_ARGUMENT) = false) as ->
    by (by apply Z.eqb_neq).
  rewrite Z.eqb_refl. cbn [negb]. rewrite set_globals_set_globals.
  set (conn := am_service_conn (trace g2) h AMSVC_SYSLOG_RELAY).
  set (g3 := observe (EvCall (AMDeviceStartService h AMSVC_SYSLOG_RELAY)) g2).
  assert (Hd3 : heap g3 !! device = Some (set_connected (connected d + 1) d))
    by exact Hd2.
  rewrite eval_seq, eval_disconnect. cbn [globals set_globals].
  rewrite set_globals_set_globals.
  destruct (disconnected_globals_frame device _ g3 Hd3)
    as (Hreg4 & _ & _ & Hd4 & Htr4).
  set (g4 := disconnected_globals device g3) in *.
  assert (Hnr4 : next_resource g4 = S r).
  { unfold g4. rewrite next_resource_disconnected_globals. exact Hnr2. }
  rewrite eval_Atomic. cbn [globals set_globals]. rewrite Hsock.
  cbn [fst snd]. rewrite set_globals_set_globals.
  rewrite eval_Atomic. cbn [globals set_globals]. rewrite Hsrc.
  cbn [fst snd next_resource set_next_resource].
  rewrite set_globals_set_globals. rewrite Hnr4.
  rewrite !eval_Upd. cbn [globals set_globals].
  rewrite !set_globals_set_globals.
  unfold ReturnUndefined. rewrite eval_Upd. cbn [eval globals set_globals].
  rewrite set_globals_set_globals.
  set (g7 := observe (EvAddSource (S (S r)))
               (set_next_resource (S (S (S r))) (set_next_resource (S (S r)) g4))).
  assert (Hd7 : heap g7 !! device
                = Some (set_connected (Z.max 0 (connected d + 1 - 1))
                          (set_connected (connected d + 1) d)))
    by exact Hd4.
  rewrite (deref_lookup _ _ _ Hd7).
  set (d7 := set_connected _ (set_connected _ d)) in *.
  destruct (frame_release_log d7 g7) as (Hreg8 & _ & _ & Hheap8 & _).
  eexists _, (set_log conn (S r) (S (S r)) r d7), conn.
  split; [reflexivity|]. cbn [globals set_globals].
  split.
  { change (heap (observe ?e ?x)) with (heap x).
    erewrite heap_update_eq; [reflexivity|]. by rewrite Hheap8. }
  cbn [logCallback logSocket logSource logConnection set_log connected props
       hostConnected set_connected d7].
  split; [done|]. split; [done|]. split; [done|]. split; [done|].
  split.
  { change (next_resource (observe ?e ?x)) with (next_resource x).
    change (next_resource (update ?a ?b ?x)) with (next_resource x).
    unfold release_log.
    by destruct (logCallback d7), (logSource d7), (logSocket d7). }
  split; [rewrite Hc; reflexivity|]. split; [done|]. split; [done|].
  split.
  { change (connectedDevices (observe ?e ?x)) with (connectedDevices x).
    change (connectedDevices (update ?a ?b ?x)) with (connectedDevices x).
    rewrite Hreg8. change (connectedDevices g7) with (connectedDevices g4).
    rewrite Hreg4. change (connectedDevices g3) with (connectedDevices g2).
    by rewrite Hreg2. }
  change (trace (observe ?e ?x)) with (trace x ++ [e]).
  change (trace (update ?a ?b ?x)) with (trace x).
  rewrite trace_release_log.
  rewrite (log_releases_ext d d7) by done.
  change (trace g7) with (trace g4 ++ [EvAddSource (S (S r))]).
  rewrite Htr4. cbn [connected handle set_connected].
  assert ((connected d + 1 - 1 <=? 0) = true) as ->
    by (apply Z.leb_le; lia).
  change (trace g3)
    with (trace g2 ++ [EvCall (AMDeviceStartService h AMSVC_SYSLOG_RELAY)]).
  rewrite Htr2. change (trace (globals s1)) with (trace (globals s)).
  rewrite !map_app, <- !app_assoc. done.
Qed.

(** X13.  [log] when the socket or its run loop source cannot be made:
    the session has been started and ended and the syslog relay is
    running, the call throws, and the subscription that the object held
    before stays as it was.  Nothing is released: the listener that the
    call has made, and the socket when it is the source that fails, are
    stored nowhere and freed nowhere. *)
Theorem log_failure_keeps_subscription (id : string) (f : nat)
    (device : ptr) (d : Device) (s : Sys) (sock_ok : bool) :
  id ≠ ""%string →
  codes_distinct → session_starts (handle d) →
  (∀ tr, am_result tr (AMDeviceStartService (handle d) AMSVC_SYSLOG_RELAY)
         = MDERR_OK) →
  (∀ tr conn, CFSocketCreateWithNative tr conn = sock_ok) →
  (sock_ok = true →
   ∀ tr socket, CFSocketCreateRunLoopSource tr socket = false) →
  connectedDevices (globals s) !! id = Some device →
  heap (globals s) !! device = Some d →
  hostConnected d = true → connected d = 0 →
  let r := next_resource (globals s) in
  let h := handle d in
  ∃ s' d',
    exec 0 (log [JsString id; JsFunction f]) s = Some s' ∧
    heap (globals s') !! device = Some d' ∧
    logCallback d' = logCallback d ∧ logSocket d' = logSocket d ∧
    logSource d' = logSource d ∧ logConnection d' = logConnection d ∧
    connected d' = 0 ∧
    next_resource (globals s') = (if sock_ok then S (S r) else S r) ∧
    connectedDevices (globals s') = connectedDevices (globals s) ∧
    trace (globals s')
    = trace (globals s)
      ++ map EvCall (session_calls h
                     ++ [AMDeviceStartService h AMSVC_SYSLOG_RELAY;
                         AMDeviceStopSession h; AMDeviceDisconnect h])
      ++ [EvOutcome
            (threw (Error (if sock_ok
                           then "Failed to create socket run loop source"
                           else "Failed to create socket")))].
Proof.
  intros Hid Hcodes Hok Hsvc Hsock Hsrc Hreg Hd Hhost Hc r h.
  rewrite exec_eval, (eval_log_registered _ _ device) by done.
  cbv zeta. rewrite (deref_lookup _ _ _ Hd), Hhost. cbn [negb].
  fold r.
  set (s1 := set_globals (set_next_resource (S r) (globals s)) s).
  assert (Hd1 : heap (globals s1) !! device = Some d) by exact Hd.
  rewrite eval_try_catch, eval_seq.
  rewrite (eval_connect_ok 0 device d s1) by (done || lia).
  destruct (connected_globals_frame device d (globals s1) Hd1)
    as (Hd2 & Htr2 & Hreg2 & Hnr2 & _ & _ & _).
  cbv zeta in Hd2, Htr2, Hreg2, Hnr2.
  set (g2 := foldl _ (update device _ (globals s1)) (session_calls (handle d)))
    in *.
  unfold startService. rewrite eval_Get. cbv zeta.
  cbn [fst snd globals set_globals]. rewrite (deref_lookup _ _ _ Hd2).
  change (handle (set_connected (connected d + 1) d)) with h.
  rewrite eval_Call. cbn [globals set_globals]. rewrite Hsvc.
  destruct Hcodes as (C1 & _ & C3 & _).
  assert ((MDERR_OK =? MDERR_SYSCALL) = false) as -> by (by apply Z.eqb_neq).
  assert ((MDERR_OK =? MDERR_INVALID_ARGUMENT) = false) as ->
    by (by apply Z.eqb_neq).
  rewrite Z.eqb_refl. cbn [negb]. rewrite set_globals_set_globals.
  set (g3 := observe (EvCall (AMDeviceStartService h AMSVC_SYSLOG_RELAY)) g2).
  assert (Hd3 : heap g3 !! device = Some (set_connected (connected d + 1) d))
    by exact Hd2.
  rewrite eval_seq, eval_disconnect. cbn [globals set_globals].
  rewrite set_globals_set_globals.
  destruct (disconnected_globals_frame device _ g3 Hd3)
    as (Hreg4 & _ & _ & Hd4 & Htr4).
  set (g4 := disconnected_globals device g3) in *.
  assert (Hnr4 : next_resource g4 = S r).
  { unfold g4. rewrite next_resource_disconnected_globals. exact Hnr2. }
  assert (Htr : trace g4
                = trace (globals s)
                  ++ map EvCall
                       (session_calls h
                        ++ [AMDeviceStartService h AMSVC_SYSLOG_RELAY;
                            AMDeviceStopSession h; AMDeviceDisconnect h])).
  { rewrite Htr4. cbn [connected handle set_connected].
    assert ((connected d + 1 - 1 <=? 0) = true) as ->
      by (apply Z.leb_le; lia).
    change (trace g3)
      with (trace g2 ++ [EvCall (AMDeviceStartService h AMSVC_SYSLOG_RELAY)]).
    rewrite Htr2. change (trace (globals s1)) with (trace (globals s)).
    by rewrite !map_app, <- !app_assoc. }
  assert (Hreg' : connectedDevices g4 = connectedDevices (globals s)).
  { rewrite Hreg4. change (connectedDevices g3) with (connectedDevices g2).
    by rewrite Hreg2. }
  rewrite eval_Atomic. cbn [globals set_globals]. rewrite Hsock.
  destruct sock_ok; cbn [fst snd]; rewrite set_globals_set_globals.
  - rewrite eval_Atomic. cbn [globals set_globals]. rewrite Hsrc by done.
    cbn [fst snd]. rewrite set_globals_set_globals.
    unfold ThrowError. rewrite eval_Upd. cbn [eval globals set_globals].
    rewrite set_globals_set_globals.
    eexists _, _. split; [reflexivity|]. cbn [globals set_globals].
    split; [exact Hd4|]. cbn [logCallback logSocket logSource logConnection
                              connected set_connected].
    split; [done|]. split; [done|]. split; [done|]. split; [done|].
    split; [rewrite Hc; reflexivity|].
    split; [cbn; by rewrite Hnr4|]. split; [exact Hreg'|].
    change (trace (observe ?e ?x)) with (trace x ++ [e]).
    change (trace (set_next_resource ?n g4)) with (trace g4).
    by rewrite Htr, <- app_assoc.
  - unfold ThrowError. rewrite eval_Upd. cbn [eval globals set_globals].
    rewrite set_globals_set_globals.
    eexists _, _. split; [reflexivity|]. cbn [globals set_globals].
    split; [exact Hd4|]. cbn [logCallback logSocket logSource logConnection
                              connected set_connected].
    split; [done|]. split; [done|]. split; [done|]. split; [done|].
    split; [rewrite Hc; reflexivity|].
    split; [exact Hnr4|]. split; [exact Hreg'|].
    change (trace (observe ?e ?x)) with (trace x ++ [e]).
    by rewrite Htr, <- app_assoc.
Qed.

End Subscription.

Lemma log_installs_subscription_witness :
  ∃ s' d',
    exec (H := sample_ok) 0 (log (H := sample_ok) [JsString "A"; JsFunction 5])
      host_state = Some s' ∧
    heap (globals s') !! 1%nat = Some d' ∧
    logCallback d' = Some 4%nat ∧ logSocket d' = Some 5%nat ∧
    logSource d' = Some 6%nat.
Proof.
  destruct (log_installs_subscription (H := sample_ok) "A" 5 1%nat
              host_Device host_state
              ltac:(done) codes_distinct_sample_ok (session_starts_sample_ok _)
              ltac:(done) ltac:(done) ltac:(done) eq_refl eq_refl eq_refl
              eq_refl)
    as (s' & d' & conn & Hexec & Hd' & Hcb & Hsock & Hsrc & _).
  exists s', d'. split; [exact Hexec|]. split; [exact Hd'|].
  split; [exact Hcb|]. split; [exact Hsock|exact Hsrc].
Defined.

(** With a library that makes no socket the subscription of device 1,
    the listener 1, stays, and the listener 4 of the call is lost. *)
Lemma log_failure_keeps_subscription_witness :
  ∃ s' d',
    exec (H := without_socket sample_ok) 0
      (log (H := without_socket sample_ok) [JsString "A"; JsFunction 5])
      host_state = Some s' ∧
    heap (globals s') !! 1%nat = Some d' ∧
    logCallback d' = Some 1%nat ∧
    next_resource (globals s') = 5%nat.
Proof.
  destruct (log_failure_keeps_subscription (H := without_socket sample_ok)
              "A" 5 1%nat host_Device host_state false
              ltac:(done)
              ltac:(repeat split; intros E; vm_compute in E; discriminate E)
              ltac:(intros tr; repeat split)
              ltac:(done) ltac:(done) ltac:(discriminate) eq_refl eq_refl
              eq_refl eq_refl)
    as (s' & d' & Hexec & Hd' & Hcb & _ & _ & _ & _ & Hnr & _).
  exists s', d'. split; [exact Hexec|]. split; [exact Hd'|].
  split; [exact Hcb|exact Hnr].
Defined.

(* ===================================================================== *)
(** * Part X: the end of the process                                      *)
(* ===================================================================== *)

Section Cleanup.
Context `{MobileDevice}.

(** The loop of [cleanup] over the keys that are left. *)
Lemma eval_cleanup_loop t (l : list (string * nat)) : ∀ g (s : Sys),
  NoDup l.*1 → NoDup l.*2 →
  (∀ k p, (k, p) ∈ l →
          connectedDevices g !! k = Some p ∧ is_Some (heap g !! p)) →
  ∃ g',
    eval t (foldr (λ key rest,
                     Get (λ g, default 0%nat (connectedDevices g !! key))
                       (λ device,
                        Upd (λ g, set_connectedDevices
                                    (delete key (connectedDevices g)) g) (
                        delete_device device ;; rest)))
                  Ret l.*1) (set_globals g s)
    = Some (set_globals g' s, None) ∧
    (∀ k, connectedDevices g' !! k
          = if decide (k ∈ l.*1) then None else connectedDevices g !! k) ∧
    (∀ p, heap g' !! p = if decide (p ∈ l.*2) then None else heap g !! p) ∧
    trace g'
    = trace g ++ concat (map (λ kp, delete_events kp.2 (deref g kp.2)) l) ∧
    pendingEvents g' = pendingEvents g ∧
    devicesChanged g' = devicesChanged g ∧
    emitter g' = emitter g.
Proof.
  induction l as [|[k p] l IH]; intros g s Hk Hp Hl.
  - exists g. cbn [fmap list_fmap foldr eval concat map].
    rewrite app_nil_r. repeat split; try done.
  - rewrite !fmap_cons in *. cbn [fst snd] in *.
    apply NoDup_cons in Hk as [Hk Hk'], Hp as [Hp Hp'].
    destruct (Hl k p) as [Hreg [d Hd]]; [by left|].
    cbn [foldr]. rewrite eval_Get. cbn [globals set_globals].
    rewrite Hreg. simpl default. rewrite eval_Upd.
    cbn [globals set_globals]. rewrite set_globals_set_globals.
    rewrite eval_seq, eval_delete_device.
    cbn [globals set_globals]. rewrite set_globals_set_globals.
    set (g1 := set_connectedDevices (delete k (connectedDevices g)) g).
    assert (Hd1 : heap g1 !! p = Some d) by exact Hd.
    destruct (frame_deleted_globals p g1) as (Hreg2 & Hpe2 & Hch2 & Hem2).
    pose proof (heap_deleted_globals p g1) as Hheap2.
    pose proof (trace_deleted_globals p d g1 Hd1) as Htr2.
    set (g2 := deleted_globals p g1) in *.
    destruct (IH g2 s Hk' Hp') as (g' & Hev & Hreg' & Hheap' & Htr' & Hpe' & Hch' & Hem').
    { intros k' p' Hin. destruct (Hl k' p') as [Hreg0 Hlive]; [by right|].
      assert (k' ≠ k).
      { intros ->. apply Hk. apply list_elem_of_fmap. by exists (k, p'). }
      assert (p' ≠ p).
      { intros ->. apply Hp. apply list_elem_of_fmap. by exists (k', p). }
      rewrite Hreg2, Hheap2. unfold g1. cbn [connectedDevices heap set_connectedDevices].
      by rewrite !lookup_delete_ne. }
    exists g'. split; [exact Hev|]. split.
    { intros k0. rewrite Hreg', Hreg2. unfold g1.
      cbn [connectedDevices set_connectedDevices].
      destruct (decide (k0 = k)) as [->|Hne].
      - rewrite (decide_True (P := k ∈ k :: l.*1)) by (by left).
        rewrite lookup_delete_eq. by destruct (decide _).
      - rewrite lookup_delete_ne by done.
        destruct (decide (k0 ∈ l.*1)) as [Hin|Hin].
        + by rewrite decide_True by (by right).
        + rewrite decide_False; [done|].
          intros [?|?]%elem_of_cons; done. }
    split.
    { intros p0. rewrite Hheap', Hheap2.
      change (heap g1) with (heap g).
      destruct (decide (p0 = p)) as [->|Hne].
      - rewrite (decide_True (P := p ∈ p :: l.*2)) by (by left).
        rewrite lookup_delete_eq. by destruct (decide _).
      - rewrite lookup_delete_ne by done.
        destruct (decide (p0 ∈ l.*2)) as [Hin|Hin].
        + by rewrite decide_True by (by right).
        + rewrite decide_False; [done|].
          intros [?|?]%elem_of_cons; done. }
    split.
    { rewrite Htr', Htr2. change (trace g1) with (trace g).
      cbn [map concat fst snd]. rewrite (deref_lookup _ _ _ Hd).
      rewrite <- !app_assoc. f_equal. unfold delete_events.
      rewrite <- !app_assoc. cbn [app]. do 3 f_equal. f_equal.
      f_equal. apply map_ext_in. intros [k' p'] Hin. cbn [snd].
      apply list_elem_of_In in Hin.
      assert (p' ≠ p).
      { intros ->. apply Hp. apply list_elem_of_fmap. by exists (k', p). }
      unfold deref. rewrite Hheap2. change (heap g1) with (heap g).
      by rewrite lookup_delete_ne. }
    split; [by rewrite Hpe', Hpe2|]. split; [by rewrite Hch', Hch2|].
    by rewrite Hem', Hem2.
Qed.

Lemma releases_app r tr1 tr2 :
  releases r (tr1 ++ tr2) = (releases r tr1 + releases r tr2)%nat.
Proof. unfold releases. by rewrite List.filter_app, length_app. Qed.

Lemma releases_delete_events p device d :
  releases (delete_Device p) (delete_events device d)
  = if decide (device = p) then 1%nat else 0%nat.
Proof.
  unfold delete_events. rewrite !releases_app.
  assert (releases (delete_Device p) (log_releases d) = 0%nat) as ->.
  { unfold log_releases.
    by destruct (logCallback d), (logSource d), (logSocket d). }
  unfold releases. cbn [List.filter is_release app length].
  destruct (decide (device = p)) as [->|Hne].
  - by rewrite Nat.eqb_refl.
  - apply Nat.eqb_neq in Hne. by rewrite Hne.
Qed.

Lemma releases_delete_all g p (l : list (string * nat)) :
  NoDup l.*2 →
  releases (delete_Device p)
    (concat (map (λ kp, delete_events kp.2 (deref g kp.2)) l))
  = if decide (p ∈ l.*2) then 1%nat else 0%nat.
Proof.
  induction l as [|[k p'] l IH]; intros Hnd; [done|].
  change (((k, p') :: l).*2) with (p' :: l.*2) in Hnd |- *.
  apply NoDup_cons in Hnd as [Hp Hnd].
  cbn [map concat]. rewrite releases_app. cbn [snd].
  rewrite releases_delete_events. rewrite (IH Hnd).
  destruct (decide (p' = p)) as [->|Hne].
  - rewrite (decide_False (P := p ∈ l.*2)) by done.
    by rewrite decide_True by (by left).
  - destruct (decide (p ∈ l.*2)) as [Hin|Hin].
    + by rewrite decide_True by (by right).
    + rewrite decide_False; [done|].
      intros [?|?]%elem_of_cons; done.
Qed.

(** X14.  [cleanup], when the dictionary holds every object once and
    holds live objects only: afterwards the dictionary is empty and every
    object that was registered is deleted, each exactly once, after its
    session is ended and the resources of its log subscription are
    released, once.  The objects that were not registered, the counter,
    the flag, the locks and the threads are as they were: [cleanup] takes
    no lock and waits for no worker. *)
Theorem cleanup_frees_every_device (s : Sys) :
  (∀ k k' p, connectedDevices (globals s) !! k = Some p →
             connectedDevices (globals s) !! k' = Some p → k = k') →
  (∀ k p, connectedDevices (globals s) !! k = Some p →
          is_Some (heap (globals s) !! p)) →
  ∃ g',
    exec 0 cleanup s = Some (set_globals g' s) ∧
    connectedDevices g' = ∅ ∧
    (∀ k p, connectedDevices (globals s) !! k = Some p →
            heap g' !! p = None ∧
            releases (delete_Device p) (trace g')
            = S (releases (delete_Device p) (trace (globals s)))) ∧
    (∀ p, (∀ k, connectedDevices (globals s) !! k ≠ Some p) →
          heap g' !! p = heap (globals s) !! p) ∧
    trace g'
    = trace (globals s)
      ++ concat (map (λ kp, delete_events kp.2 (deref (globals s) kp.2))
                   (map_to_list (connectedDevices (globals s)))) ∧
    pendingEvents g' = pendingEvents (globals s) ∧
    devicesChanged g' = devicesChanged (globals s).
Proof.
  intros Hinj Hlive.
  set (l := map_to_list (connectedDevices (globals s))).
  assert (Hk : NoDup l.*1) by apply NoDup_fst_map_to_list.
  assert (Hin : ∀ k p, (k, p) ∈ l ↔ connectedDevices (globals s) !! k = Some p).
  { intros k p. apply elem_of_map_to_list. }
  assert (Hp : NoDup l.*2).
  { apply NoDup_fmap_2_strong; [|apply NoDup_map_to_list].
    intros [k p] [k' p'] H1 H2 Heq. cbn [snd] in Heq. subst p'.
    apply Hin in H1, H2. by rewrite (Hinj k k' p). }
  destruct (eval_cleanup_loop 0 l (globals s) s Hk Hp)
    as (g' & Hev & Hreg' & Hheap' & Htr' & Hpe' & Hch' & _).
  { intros k p Hkp. apply Hin in Hkp. split; [done|]. by eapply Hlive. }
  rewrite set_globals_id in Hev.
  exists g'. split.
  { rewrite exec_eval. unfold cleanup. rewrite eval_Get.
    fold l. by rewrite Hev. }
  split.
  { apply map_eq. intros k. rewrite Hreg', lookup_empty.
    destruct (decide (k ∈ l.*1)) as [|Hnin]; [done|].
    destruct (connectedDevices (globals s) !! k) as [p|] eqn:E; [|done].
    exfalso. apply Hnin. apply list_elem_of_fmap. exists (k, p).
    split; [done|]. by apply Hin. }
  split.
  { intros k p Hkp.
    assert (p ∈ l.*2) as Hpin.
    { apply list_elem_of_fmap. exists (k, p). split; [done|]. by apply Hin. }
    split; [by rewrite Hheap', decide_True|].
    rewrite Htr', releases_app, releases_delete_all by done.
    rewrite decide_True by done. lia. }
  split.
  { intros p Hnot. rewrite Hheap'. rewrite decide_False; [done|].
    intros ([k p'] & -> & Hkp)%list_elem_of_fmap. apply Hin in Hkp.
    by apply (Hnot k). }
  split; [exact Htr'|]. split; [exact Hpe'|exact Hch'].
Qed.

End Cleanup.

Lemma cleanup_frees_every_device_witness :
  ∃ g', exec (H := sample_ok) 0 cleanup host_state
        = Some (set_globals g' host_state) ∧
        connectedDevices g' = ∅ ∧ heap g' !! 1%nat = None ∧
        releases (delete_Device 1) (trace g') = 1%nat.
Proof.
  destruct (cleanup_frees_every_device (H := sample_ok) host_state)
    as (g' & Hexec & Hreg & Hdel & _).
  - intros k k' p Hk Hk'.
    change (({[ "A"%string := 1%nat ]} : gmap string nat) !! k = Some p) in Hk.
    change (({[ "A"%string := 1%nat ]} : gmap string nat) !! k' = Some p)
      in Hk'.
    apply lookup_singleton_Some in Hk as [<- _].
    by apply lookup_singleton_Some in Hk' as [<- _].
  - intros k p Hk.
    change (({[ "A"%string := 1%nat ]} : gmap string nat) !! k = Some p) in Hk.
    apply lookup_singleton_Some in Hk as [_ <-]. by eexists.
  - destruct (Hdel "A"%string 1%nat eq_refl) as [Hheap Hrel].
    exists g'. split; [exact Hexec|]. split; [exact Hreg|].
    split; [exact Hheap|]. rewrite Hrel. reflexivity.
Defined.

(* ===================================================================== *)
(** * Part XI: [installApp]                                               *)
(* ===================================================================== *)

Section InstallApp.
Context `{MobileDevice} `{Installer}.

Lemma eval_ThrowError t e (s : Sys) :
  eval t (ThrowError e) s
  = Some (set_globals (observe (EvOutcome (threw e)) (globals s)) s, None).
Proof. done. Qed.

(** [installApp] up to [connect], for two strings. *)
Lemma eval_installApp_strings id appPath (s : Sys) :
  id ≠ ""%string →
  eval 0 (installApp [JsString id; JsString appPath]) s
  = match connectedDevices (globals s) !! id with
    | None => eval 0 (ThrowError (Error_printf "Device '%s' not connected" id)) s
    | Some device =>
        if (String.length appPath =? 0)%nat then
          eval 0 (ThrowError
                    (Error "The 'appPath' must not be an empty string")) s
        else if negb (access appPath) then
          eval 0 (ThrowError
                    (Error_printf "The app path '%s' does not exist" appPath)) s
        else
          eval 0 (try_catch (connect device ;; install_steps device appPath)
                    (λ e, ThrowError (Error_what e))) s
    end.
Proof.
  intros Hid. unfold installApp.
  cbn [length Nat.ltb Nat.leb info_at nth IsUndefined orb].
  rewrite (length_nonempty _ Hid). rewrite eval_Get.
  unfold CFDictionaryContainsKey.
  destruct (connectedDevices (globals s) !! id) as [device|] eqn:Hreg;
    cbn [negb]; [|done].
  rewrite eval_Get, Hreg. simpl default.
  destruct (String.length appPath =? 0)%nat; [done|].
  by destruct (access appPath).
Qed.

(** X15.  [installApp] checks its arguments in the order of the source,
    and a call that fails a check throws and does nothing else: no call
    into MobileDevice, no change of an object.  An identifier that is not
    registered is reported before the path is looked at; for a registered
    device an empty path and a path that does not exist are reported
    before [connect]. *)
Theorem installApp_checks_arguments (id appPath : string) (s : Sys) :
  id ≠ ""%string →
  (connectedDevices (globals s) !! id = None ∨
   appPath = ""%string ∨ access appPath = false) →
  exec 0 (installApp [JsString id; JsString appPath]) s
  = Some (set_globals
            (observe
               (EvOutcome
                  (threw
                     (match connectedDevices (globals s) !! id with
                      | None => Error_printf "Device '%s' not connected" id
                      | Some _ =>
                          if (String.length appPath =? 0)%nat then
                            Error "The 'appPath' must not be an empty string"
                          else
                            Error_printf "The app path '%s' does not exist"
                              appPath
                      end)))
               (globals s)) s).
Proof.
  intros Hid Hbad. rewrite exec_eval, eval_installApp_strings by done.
  destruct (connectedDevices (globals s) !! id) as [device|]; [|done].
  destruct Hbad as [Hbad|[->|Hacc]]; [done|done|].
  destruct (String.length appPath =? 0)%nat; [done|].
  by rewrite Hacc.
Qed.

Lemma eval_abort_install t device d h e (s : Sys) :
  heap (globals s) !! device = Some d →
  eval t (abort_install device h e) s
  = Some (set_globals
            (observe (EvOutcome (threw e))
               (update device (λ d, set_connected (connected d - 1) d)
                  (observe (EvCall (AMDeviceDisconnect h))
                     (observe (EvCall (AMDeviceStopSession h)) (globals s)))))
            s, None).
Proof. done. Qed.

(** X16.  [installApp] for a registered device and a path that exists,
    when [connect] does not throw.  If the copy or the installation
    fails, the call ends the session, whatever the counter says, lowers
    the counter by hand and throws: the counter is back at its value
    before the call.  If both succeed, the call ends with [disconnect]:
    the counter is back at its value (at 0 for a value below 0) and the
    session is ended when no other connection is counted. *)
Theorem installApp_session (id appPath : string) (device : ptr) (d : Device)
    (s s1 : Sys) :
  id ≠ ""%string → appPath ≠ ""%string → access appPath = true →
  connectedDevices (globals s) !! id = Some device →
  heap (globals s) !! device = Some d →
  eval 0 (connect device) s = Some (s1, None) →
  let h := handle d in
  let copy := AMDeviceSecureTransferPath (trace (globals s1)) h appPath in
  let install :=
    AMDeviceSecureInstallApplication (trace (globals s1)) h appPath in
  ∃ s' d',
    exec 0 (installApp [JsString id; JsString appPath]) s = Some s' ∧
    heap (globals s') !! device = Some d' ∧
    connectedDevices (globals s') = connectedDevices (globals s) ∧
    if negb (copy =? MDERR_OK) then
      connected d' = connected d ∧
      trace (globals s')
      = trace (globals s1)
        ++ [EvCall (AMDeviceStopSession h); EvCall (AMDeviceDisconnect h);
            EvOutcome (threw (copy_error copy))]
    else if negb (install =? MDERR_OK) then
      connected d' = connected d ∧
      trace (globals s')
      = trace (globals s1)
        ++ [EvCall (AMDeviceStopSession h); EvCall (AMDeviceDisconnect h);
            EvOutcome (threw (install_error install))]
    else
      connected d' = Z.max 0 (connected d) ∧
      trace (globals s')
      = trace (globals s1)
        ++ (if connected d <=? 0
            then [EvCall (AMDeviceStopSession h);
                  EvCall (AMDeviceDisconnect h)]
            else [])
        ++ [EvOutcome returned_undefined].
Proof.
  intros Hid Hpath Hacc Hreg Hd Hconn h copy install.
  rewrite exec_eval, eval_installApp_strings by done.
  rewrite Hreg, (length_nonempty _ Hpath), Hacc. cbn [negb].
  rewrite eval_try_catch, eval_seq, Hconn.
  destruct (eval_connect 0 device s) as (g1 & r & Heq & HR).
  rewrite Hconn in Heq. injection Heq as Hs1 Hr. subst s1.
  destruct HR as (Hreg1 & _ & _ & _ & _ & _ & _ & _ & Hdev).
  rewrite Hd in Hdev.
  destruct Hdev as (d1 & Hd1 & Hh1 & _ & Hc1 & _ & _ & _ & _ & Hprops).
  cbn [globals set_globals] in copy, install |- *.
  unfold install_steps. rewrite eval_Get. cbn [globals set_globals].
  rewrite (deref_lookup _ _ _ Hd1), Hh1. fold h.
  rewrite eval_Get. cbn [globals set_globals]. fold copy.
  assert (Habort : ∀ e,
    ∃ s' d',
      eval 0 (abort_install device h e) (set_globals g1 s) = Some (s', None) ∧
      heap (globals s') !! device = Some d' ∧
      connectedDevices (globals s') = connectedDevices (globals s) ∧
      connected d' = connected d ∧
      trace (globals s')
      = trace g1 ++ [EvCall (AMDeviceStopSession h);
                     EvCall (AMDeviceDisconnect h); EvOutcome (threw e)]).
  { intros e. rewrite (eval_abort_install 0 device d1) by exact Hd1.
    eexists _, _. split; [reflexivity|]. cbn [globals set_globals].
    split.
    { change (heap (observe ?e ?x)) with (heap x).
      erewrite heap_update_eq; [reflexivity|]. exact Hd1. }
    split; [exact Hreg1|]. split; [cbn [connected set_connected]; lia|].
    cbn [trace observe update set_heap]. by rewrite <- !app_assoc. }
  destruct (copy =? MDERR_OK); cbn [negb].
  2:{ destruct (Habort (copy_error copy)) as (s' & d' & Hev & Hd' & Hr' & Hc' & Ht').
      rewrite Hev. by exists s', d'. }
  rewrite eval_Get. cbn [globals set_globals]. fold install.
  destruct (install =? MDERR_OK); cbn [negb].
  2:{ destruct (Habort (install_error install))
        as (s' & d' & Hev & Hd' & Hr' & Hc' & Ht').
      rewrite Hev. by exists s', d'. }
  rewrite eval_seq, eval_disconnect. cbn [globals set_globals].
  rewrite set_globals_set_globals.
  destruct (disconnected_globals_frame device d1 g1 Hd1)
    as (Hreg2 & _ & _ & Hd2 & Htr2).
  unfold ReturnUndefined. rewrite eval_Upd. cbn [eval globals set_globals].
  eexists _, _. split; [reflexivity|]. cbn [globals set_globals].
  split; [exact Hd2|]. split; [by rewrite <- Hreg1, <- Hreg2|].
  split; [cbn [connected set_connected]; rewrite Hc1; f_equal; lia|].
  change (trace (observe ?e ?x)) with (trace x ++ [e]).
  rewrite Htr2, Hc1, Hh1. fold h.
  replace (connected d + 1 - 1) with (connected d) by lia.
  by rewrite <- app_assoc.
Qed.

End InstallApp.

Lemma installApp_checks_arguments_witness :
  exec (H := sample_ok) 0
    (installApp (H := sample_ok) (H0 := sample_installer 0 0)
       [JsString "B"; JsString ""]) host_state
  = Some (set_globals
            (observe
               (EvOutcome (threw (Error_printf "Device '%s' not connected" "B")))
               host_globals) host_state).
Proof.
  apply (installApp_checks_arguments (H := sample_ok)
           (H0 := sample_installer 0 0) "B" "" host_state);
    [discriminate|by left].
Defined.

Lemma installApp_session_witness :
  ∃ s' d',
    exec (H := sample_ok) 0
      (installApp (H := sample_ok) (H0 := sample_installer 5 0)
         [JsString "A"; JsString "app"]) host_state = Some s' ∧
    heap (globals s') !! 1%nat = Some d' ∧
    connected d' = 0 ∧
    outcomes (trace (globals s'))
    = [threw (Error_what (what_code "Failed to copy app to device (0x%x)" 5))].
Proof.
  destruct (installApp_session (H := sample_ok) (H0 := sample_installer 5 0)
              "A" "app" 1%nat host_Device host_state _
              ltac:(discriminate) ltac:(discriminate) eq_refl eq_refl eq_refl
              (eval_connect_ok (H := sample_ok) 0%nat 1%nat host_Device
                 host_state codes_distinct_sample_ok
                 (session_starts_sample_ok _) eq_refl ltac:(done)))
    as (s' & d' & Hexec & Hd' & _ & Hc & Htr).
  exists s', d'. split; [exact Hexec|]. split; [exact Hd'|].
  split; [exact Hc|]. rewrite Htr. reflexivity.
Defined.

(* ===================================================================== *)
(** * Part XII: what holds under every schedule                           *)
(* ===================================================================== *)

Section Conduct.
Context `{MobileDevice}.
Variables Rm Rw : Globals → Globals → Prop.
Hypothesis Rm_refl : ∀ g, Rm g g.
Hypothesis Rw_refl : ∀ g, Rw g g.
Hypothesis Rm_call : ∀ g c, Rm g (observe (EvCall c) g).
Hypothesis Rw_call : ∀ g c, Rw g (observe (EvCall c) g).

Ltac prog_induction p :=
  induction p as [|?e|?A ?f ?k IH|?c ?k IH|?h ?key ?k IH|?h ?key ?k IH
                 |?op ?k IH|?q _ ?k IH].

Lemma obeys_seq main p q :
  obeys Rm Rw main p → obeys Rm Rw main q → obeys Rm Rw main (p ;; q).
Proof.
  prog_induction p; simpl; intros Hp Hq; try done; try (intros; by apply IH).
  - intros g. destruct (Hp g). split; [done|]. by apply IH.
  - destruct Hp. split; [done|]. by apply IH.
Qed.

Lemma obeys_try_catch main p handler :
  obeys Rm Rw main p → (∀ e, obeys Rm Rw main (handler e)) →
  obeys Rm Rw main (try_catch p handler).
Proof.
  prog_induction p; simpl; intros Hp Hq; try done; try (intros; by apply IH).
  - intros g. destruct (Hp g). split; [done|]. by apply IH.
  - destruct Hp. split; [done|]. by apply IH.
Qed.

Lemma conduct_set_thread (s : Sys) t th :
  conduct Rm Rw s →
  obeys Rm Rw (t =? 0)%nat (prog_of th) →
  conduct Rm Rw (set_thread t th s).
Proof.
  intros Hs Hth t' th' Hl. cbn [threads set_thread set_threads] in Hl.
  apply list_lookup_insert_Some in Hl as [(-> & -> & _)|[_ Hl]]; [done|].
  by apply Hs.
Qed.

Lemma sync_step_globals t op (s s0 : Sys) :
  sync_step t op s = Some s0 →
  globals s0 = globals s ∧
  (threads s0 = threads s ∨ threads s0 = wake_one (threads s)).
Proof.
  destruct op; simpl; intros Hs;
    repeat match type of Hs with
           | (if ?b then _ else _) = _ => destruct b; [|done]
           end;
    inversion Hs; subst; simpl; auto.
Qed.

Lemma conduct_woken (s s0 : Sys) :
  globals s0 = globals s →
  threads s0 = threads s ∨ threads s0 = wake_one (threads s) →
  conduct Rm Rw s → conduct Rm Rw s0.
Proof.
  intros _ [Hth|Hth] Hs t th Hl; rewrite Hth in Hl; [by apply Hs|].
  apply wake_one_lookup in Hl as (th0 & Hl0 & [->|(k & -> & ->)]);
    by apply (Hs _ _ Hl0).
Qed.

Lemma conduct_step a (s s' : Sys) :
  conduct Rm Rw s → step a s = Some s' →
  conduct Rm Rw s' ∧ step_of Rm Rw a (globals s) (globals s').
Proof.
  intros Hs Hstep. destruct a as [t|t]; simpl in Hstep.
  - destruct (threads s !! t) as [[p|k]|] eqn:Ht; try done.
    pose proof (Hs _ _ Ht) as Hp. cbn [prog_of] in Hp.
    assert (HR : ∀ g g', (if (t =? 0)%nat then Rm else Rw) g g' →
                         step_of Rm Rw (Run t) g g').
    { intros g g'. by destruct t. }
    assert (Hrefl : ∀ g, (if (t =? 0)%nat then Rm else Rw) g g).
    { intros g. by destruct (t =? 0)%nat. }
    assert (Hcall : ∀ g c, (if (t =? 0)%nat then Rm else Rw) g
                             (observe (EvCall c) g)).
    { intros g c. by destruct (t =? 0)%nat. }
    destruct p as [|e|A f k|c k|h key k|h key k|op k|q k];
      simpl in Hstep; try done.
    + destruct (Hp (globals s)) as [Hrel Hk].
      destruct (f (globals s)) as [a g]. inversion Hstep; subst.
      split; [|by apply HR]. by apply conduct_set_thread.
    + inversion Hstep; subst.
      split; [|apply HR, Hcall]. apply conduct_set_thread; [done|apply Hp].
    + inversion Hstep; subst.
      split; [|apply HR, Hcall]. apply conduct_set_thread; [done|apply Hp].
    + inversion Hstep; subst.
      split; [|apply HR, Hcall]. apply conduct_set_thread; [done|apply Hp].
    + assert (op = wait_pending ∨ op ≠ wait_pending) as [->|Hop]
        by (destruct op; auto).
      { destruct (held_by t (pendingMutex s)); [|done].
        inversion Hstep; subst. split; [|apply HR, Hrefl].
        by apply conduct_set_thread. }
      assert (Hstep' : match sync_step t op s with
                       | Some s0 => Some (set_thread t (Running k) s0)
                       | None => None end = Some s').
      { destruct op; try done; destruct (sync_step t _ s); done. }
      clear Hstep. destruct (sync_step t op s) as [s0|] eqn:Hsync; [|done].
      inversion Hstep'; subst. clear Hstep'.
      destruct (sync_step_globals _ _ _ _ Hsync) as [Hg Hth].
      split.
      * apply conduct_set_thread; [|done]. by eapply conduct_woken.
      * cbn [globals set_thread set_threads]. rewrite Hg. apply HR, Hrefl.
    + inversion Hstep; subst. destruct Hp as [Hq Hk].
      split; [|apply HR, Hrefl].
      apply conduct_set_thread; [|done].
      intros t' th' Hl. cbn [threads set_threads] in Hl.
      apply lookup_app_Some in Hl as [Hl|[Hge Hl]]; [by apply Hs|].
      apply list_lookup_singleton_Some in Hl as [Hz <-].
      apply lookup_lt_Some in Ht.
      assert ((t' =? 0)%nat = false) as -> by (apply Nat.eqb_neq; lia).
      exact Hq.
  - destruct (threads s !! t) as [[p|k]|] eqn:Ht; try done.
    inversion Hstep; subst. split; [|done].
    apply conduct_set_thread; [done|]. exact (Hs _ _ Ht).
Qed.

End Conduct.

Section Conduct_of_the_module.
Context `{MobileDevice}.

(** A statement that leaves V8, the emitter and the counter alone. *)
Lemma main_step_frame g g' :
  emitter g' = emitter g → pendingEvents g' = pendingEvents g →
  main_step g g'.
Proof. unfold main_step. by intros -> ->. Qed.

Lemma worker_step_frame g g' :
  v8_events (trace g') = v8_events (trace g) →
  emitter g' = emitter g → pendingEvents g' = pendingEvents g →
  worker_step g g'.
Proof. unfold worker_step. by intros -> -> ->. Qed.

Lemma both_step_frame (main : bool) g g' :
  v8_events (trace g') = v8_events (trace g) →
  emitter g' = emitter g → pendingEvents g' = pendingEvents g →
  (if main then main_step else worker_step) g g'.
Proof.
  intros. destruct main; [by apply main_step_frame|by apply worker_step_frame].
Qed.

Lemma v8_events_app tr1 tr2 :
  v8_events (tr1 ++ tr2) = v8_events tr1 ++ v8_events tr2.
Proof. apply List.filter_app. Qed.

Ltac frame :=
  first [apply both_step_frame | apply worker_step_frame
        | apply main_step_frame]; done.

Lemma obeys_connect main device :
  obeys main_step worker_step main (connect device).
Proof.
  unfold connect. cbn [obeys]. intros g. split; [frame|].
  cbn [fst snd]. case_match; [done|].
  unfold connect_session.
  repeat (apply obeys_seq); cbn [obeys]; intros r; repeat case_match;
    cbn [obeys]; try done; intros; repeat case_match; done.
Qed.

Lemma obeys_disconnect main device force :
  obeys main_step worker_step main (disconnect device force).
Proof.
  unfold disconnect. cbn [obeys]. intros g. split.
  { destruct force; frame. }
  case_match; [|done]. cbn [obeys Upd]. intros g'. split; [frame|done].
Qed.

Lemma obeys_set main device key id :
  obeys main_step worker_step main (set device key id).
Proof.
  unfold set. cbn [obeys Get]. intros g. split; [frame|].
  intros [value|]; [|done]. cbn [obeys Upd]. intros g'. split; [frame|done].
Qed.

Lemma obeys_fetch_info main device :
  obeys main_step worker_step main (fetch_info device).
Proof.
  unfold fetch_info.
  repeat (apply obeys_seq;
           [first [apply obeys_connect | apply obeys_set]|]).
  cbn [obeys Get]. intros g. split; [frame|].
  intros value. cbn [obeys Upd]. intros g'. split; [frame|done].
Qed.

Lemma obeys_getDeviceInfo device :
  obeys main_step worker_step false (getDeviceInfo device).
Proof.
  unfold getDeviceInfo. cbn [obeys Upd]. intros g. split; [frame|].
  intros g'. split.
  { apply worker_step_frame; by case_match. }
  apply obeys_seq.
  { apply obeys_try_catch; [apply obeys_fetch_info|done]. }
  apply obeys_seq; [apply obeys_disconnect|].
  unfold release_barrier. cbn [obeys Upd Get]. intros g1. split.
  { unfold worker_step. destruct (0 <? pendingEvents g1) eqn:E; [|done].
    apply Z.ltb_lt in E. split; [done|]. split; [done|]. simpl. lia. }
  intros g2. split; [frame|]. cbn [fst]. by case_match.
Qed.

Lemma main_step_debug format args g : main_step g (debug format args g).
Proof.
  destruct (frame_debug format args g) as (_ & Hpe & _ & _ & Hem).
  by apply main_step_frame.
Qed.

Lemma main_step_debug_udid format device g :
  main_step g (debug_udid format device g).
Proof.
  destruct (frame_debug_udid format device g) as (_ & Hpe & _ & Hem).
  by apply main_step_frame.
Qed.

Lemma main_step_release_log d g : main_step g (release_log d g).
Proof.
  destruct (frame_release_log d g) as (_ & Hpe & _ & _ & Hem).
  by apply main_step_frame.
Qed.

Lemma obeys_delete_device device :
  obeys main_step worker_step true (delete_device device).
Proof.
  unfold delete_device. apply obeys_seq; [apply obeys_disconnect|].
  cbn [obeys Upd]. intros g. split; [apply main_step_release_log|].
  intros g'. split; [frame|done].
Qed.

Lemma obeys_on_device_notification dev msg :
  obeys main_step worker_step true (on_device_notification dev msg).
Proof.
  unfold on_device_notification. cbn [obeys Upd Get]. intros g.
  split; [frame|]. cbn [fst snd].
  repeat case_match; cbn [obeys Upd Get]; try done.
  - intros g1. split; [frame|]. intros g2.
    split; [apply main_step_debug_udid|]. intros g3. split.
    { unfold main_step. case_match; simpl; [split; [done|lia]|done]. }
    intros g4. split; [unfold main_step; simpl; split; [done|lia]|].
    split; [apply obeys_getDeviceInfo|done].
  - intros g1. split; [frame|]. intros g2.
    split; [apply main_step_debug_udid|]. intros g3. split; [frame|].
    intros g4. split; [apply main_step_release_log|].
    apply obeys_seq; [apply obeys_delete_device|].
    cbn [obeys Upd]. intros g5. split; [frame|done].
Qed.

Lemma obeys_ThrowError e : obeys main_step worker_step true (ThrowError e).
Proof. unfold ThrowError. cbn [obeys Upd]. intros g. split; [frame|done]. Qed.

Lemma obeys_ReturnUndefined :
  obeys main_step worker_step true ReturnUndefined.
Proof.
  unfold ReturnUndefined. cbn [obeys Upd]. intros g. split; [frame|done].
Qed.

Lemma obeys_setEmitter info :
  obeys main_step worker_step true (setEmitter info).
Proof.
  unfold setEmitter. case_match; [apply obeys_ThrowError|].
  case_match; [apply obeys_ThrowError|].
  cbn [obeys Upd]. intros g. split; [|apply obeys_ReturnUndefined].
  unfold main_step. simpl. split; [|done]. intros _.
  destruct (info_at info 0); simpl in *; done.
Qed.

Lemma obeys_pump_run_loop fired :
  obeys main_step worker_step true (pump_run_loop fired).
Proof.
  unfold pump_run_loop. apply obeys_seq.
  { induction fired as [|[dev msg] fired IH]; [done|].
    unfold run_loop. cbn [foldr]. fold (run_loop fired).
    apply obeys_seq; [apply obeys_on_device_notification|done]. }
  apply obeys_seq; [|apply obeys_ReturnUndefined].
  unfold pump_check. cbn [obeys Upd Get]. intros g. split; [frame|].
  cbn [fst]. case_match; [|done]. cbn [obeys Upd]. intros g1.
  split; [apply main_step_debug|]. intros g2. split; [frame|].
  intros g3. split; [|done].
  unfold emit_devicesChanged. case_match; frame.
Qed.

Lemma obeys_devices : obeys main_step worker_step true devices.
Proof.
  unfold devices. cbn [obeys Upd Get]. intros g. split; [frame|].
  cbn [fst]. apply obeys_seq; [by case_match|].
  cbn [obeys Upd]. intros g1. split; [apply main_step_debug|].
  intros g2. split; [frame|done].
Qed.

Lemma obeys_log info : obeys main_step worker_step true (log info).
Proof.
  unfold log. case_match; [apply obeys_ThrowError|].
  case_match; try apply obeys_ThrowError.
  case_match; [apply obeys_ThrowError|].
  cbn [obeys Upd Get]. intros g. split; [frame|]. cbn [fst].
  case_match; [apply obeys_ThrowError|].
  case_match; [apply obeys_ThrowError|].
  cbn [obeys Upd Get]. intros g1. split; [frame|]. cbn [fst].
  intros g2. split; [frame|]. cbn [fst]. intros g3. split; [frame|].
  cbn [fst]. case_match; [apply obeys_ThrowError|].
  apply obeys_try_catch; [|intros e; apply obeys_ThrowError].
  apply obeys_seq; [apply obeys_connect|].
  unfold startService. cbn [obeys Upd Get]. intros g4. split; [frame|].
  cbn [fst snd obeys]. intros rval.
  case_match; [done|]. case_match; [done|]. case_match; [done|].
  apply obeys_seq; [apply obeys_disconnect|].
  cbn [obeys]. intros g5. split; [case_match; frame|].
  destruct (CFSocketCreateWithNative _ _); cbn [fst];
    [|apply obeys_ThrowError].
  cbn [obeys]. intros g6. split; [case_match; frame|].
  destruct (CFSocketCreateRunLoopSource _ _); cbn [fst];
    [|apply obeys_ThrowError].
  cbn [obeys Upd]. intros g7. split; [frame|]. intros g8.
  split; [apply main_step_release_log|]. intros g9. split; [frame|].
  apply obeys_ReturnUndefined.
Qed.

Lemma obeys_cleanup : obeys main_step worker_step true cleanup.
Proof.
  unfold cleanup. cbn [obeys Get]. intros g. split; [frame|]. cbn [fst].
  induction ((map_to_list (connectedDevices g)).*1) as [|key keys IH];
    [done|].
  cbn [foldr obeys Upd Get]. intros g1. split; [frame|]. intros g2.
  split; [frame|]. apply obeys_seq; [apply obeys_delete_device|done].
Qed.

Lemma obeys_host_program calls :
  obeys main_step worker_step true (host_program calls).
Proof.
  induction calls as [|c calls IH]; [done|].
  unfold host_program. cbn [foldr]. fold (host_program calls).
  apply obeys_seq; [|done].
  destruct c; cbn [host_call];
    [apply obeys_setEmitter | apply obeys_pump_run_loop | apply obeys_devices
    | apply obeys_log | apply obeys_cleanup].
Qed.

Lemma conduct_init calls : conduct main_step worker_step (init calls).
Proof.
  intros [|t] th Hl; simpl in Hl; [|done].
  injection Hl as <-. apply obeys_host_program.
Qed.

Lemma main_step_refl g : main_step g g.
Proof. done. Qed.
Lemma worker_step_refl g : worker_step g g.
Proof. done. Qed.
Lemma main_step_call g c : main_step g (observe (EvCall c) g).
Proof. done. Qed.
Lemma worker_step_call g c : worker_step g (observe (EvCall c) g).
Proof.
  split; [|done]. simpl. rewrite v8_events_app. simpl. by rewrite app_nil_r.
Qed.

Lemma run_app l1 : ∀ l2 (s : Sys), run (l1 ++ l2) s = run l1 s ≫= run l2.
Proof.
  induction l1 as [|a l1 IH]; intros l2 s; simpl; [done|].
  destruct (step a s); [apply IH|done].
Qed.

Lemma conduct_run schedule : ∀ (s s' : Sys),
  conduct main_step worker_step s → run schedule s = Some s' →
  conduct main_step worker_step s' ∧
  (0 ≤ pendingEvents (globals s) → 0 ≤ pendingEvents (globals s')) ∧
  (is_Some (emitter (globals s)) → is_Some (emitter (globals s'))).
Proof.
  induction schedule as [|a schedule IH]; intros s s' Hs; simpl.
  - by intros [= <-].
  - destruct (step a s) as [s1|] eqn:E; [|done]. intros Hrun.
    destruct (conduct_step main_step worker_step main_step_refl
                worker_step_refl main_step_call worker_step_call a s s1 Hs E)
      as [Hs1 Hrel].
    destruct (IH _ _ Hs1 Hrun) as (Hs' & Hpe & Hem).
    split; [done|].
    assert (main_step (globals s) (globals s1)) as [Hem1 Hpe1].
    { destruct a as [[|t]|t]; simpl in Hrel.
      - done.
      - destruct Hrel as (_ & Hem1 & Hpe1). split; [by rewrite Hem1|done].
      - by rewrite Hrel. }
    split; auto.
Qed.

(** X17.  The counter of pending events is never negative: whatever the
    host calls of [setEmitter], [pumpRunLoop], [devices] and [log] and at
    exit, and however the scheduler interleaves the main thread and the
    workers, spurious wakeups included, every state that is reached has a
    counter of at least 0. *)
Theorem pendingEvents_never_negative (calls : list HostCall)
    (schedule : list Action) (s : Sys) :
  run schedule (init calls) = Some s → 0 ≤ pendingEvents (globals s).
Proof.
  intros Hrun.
  destruct (conduct_run schedule _ _ (conduct_init calls) Hrun)
    as (_ & Hpe & _).
  by apply Hpe.
Qed.

(** X18.  An emitter that is set stays set: from a state that the module
    has reached and in which the host has registered an emitter, no step
    of any thread, and no later call of [setEmitter], leaves the module
    without one. *)
Theorem emitter_stays_set (calls : list HostCall)
    (schedule later : list Action) (s s' : Sys) :
  run schedule (init calls) = Some s →
  is_Some (emitter (globals s)) →
  run later s = Some s' →
  is_Some (emitter (globals s')).
Proof.
  intros Hrun Hem Hlater.
  destruct (conduct_run schedule _ _ (conduct_init calls) Hrun)
    as (Hs & _ & _).
  destruct (conduct_run later _ _ Hs Hlater) as (_ & _ & Hem').
  by apply Hem'.
Qed.

(** X19.  Only the main thread talks to V8: in every state that is
    reached, a step of a thread other than the main thread calls no
    [emit], returns nothing to the host and throws nothing to it, and
    leaves the emitter as it is. *)
Theorem workers_leave_v8_alone (calls : list HostCall)
    (schedule : list Action) (t : tid) (s s' : Sys) :
  run schedule (init calls) = Some s →
  t ≠ 0%nat →
  step (Run t) s = Some s' →
  v8_events (trace (globals s')) = v8_events (trace (globals s)) ∧
  emitter (globals s') = emitter (globals s).
Proof.
  intros Hrun Ht Hstep.
  destruct (conduct_run schedule _ _ (conduct_init calls) Hrun)
    as (Hs & _ & _).
  destruct (conduct_step main_step worker_step main_step_refl
              worker_step_refl main_step_call worker_step_call _ s s' Hs Hstep)
    as [_ Hrel].
  destruct t as [|t]; [done|]. simpl in Hrel.
  by destruct Hrel as (Hv8 & Hem & _).
Qed.

End Conduct_of_the_module.

Section Schedules.
#[local] Existing Instance sample_ok.

(** The host pumps while device 1 is attached and calls [devices]; the
    main thread is woken up spuriously and returns, and the worker runs
    to its end. *)
Example spurious_schedule_runs :
  (λ s, pendingEvents (globals s))
    <$> run (steps 15 0 ++ [Spurious 0%nat] ++ steps 6 0 ++ steps 44 1)
          (init host_devices)
  = Some 0.
Proof. vm_compute. reflexivity. Qed.

Lemma pendingEvents_never_negative_witness :
  ∃ s, run (steps 15 0 ++ [Spurious 0%nat] ++ steps 6 0 ++ steps 44 1)
         (init host_devices) = Some s ∧
       0 ≤ pendingEvents (globals s).
Proof.
  pose proof spurious_schedule_runs as Hseen.
  destruct (run (steps 15 0 ++ [Spurious 0%nat] ++ steps 6 0 ++ steps 44 1)
              (init host_devices)) as [s|] eqn:Hrun;
    cbn in Hseen; [|discriminate Hseen].
  exists s. split; [reflexivity|].
  exact (pendingEvents_never_negative host_devices _ s Hrun).
Defined.

(** After two steps the emitter of [host_emitter] is set; the pump, the
    worker of device 1, the call of [setEmitter] that is refused and the
    second pump follow. *)
Example emitter_schedule_runs :
  (λ s, emitter (globals s)) <$> run (steps 2 0) (init host_emitter)
  = Some (Some 7%nat) ∧
  (λ s, emitter (globals s))
    <$> run (steps 2 0 ++ steps 12 0 ++ steps 44 1 ++ steps 6 0)
          (init host_emitter)
  = Some (Some 7%nat).
Proof. split; vm_compute; reflexivity. Qed.

Lemma emitter_stays_set_witness :
  ∃ s s', run (steps 2 0) (init host_emitter) = Some s ∧
          run (steps 12 0 ++ steps 44 1 ++ steps 6 0) s = Some s' ∧
          is_Some (emitter (globals s')).
Proof.
  destruct emitter_schedule_runs as [Hseen Hseen'].
  rewrite run_app in Hseen'.
  destruct (run (steps 2 0) (init host_emitter)) as [s|] eqn:Hrun;
    cbn in Hseen; [|discriminate Hseen].
  cbn [mbind option_bind] in Hseen'.
  destruct (run (steps 12 0 ++ steps 44 1 ++ steps 6 0) s) as [s'|] eqn:Hrun';
    cbn in Hseen'; [|discriminate Hseen'].
  exists s, s'. split; [reflexivity|]. split; [exact Hrun'|].
  assert (is_Some (emitter (globals s))) as Hem.
  { injection Hseen as ->. by eexists. }
  exact (emitter_stays_set host_emitter (steps 2 0)
           (steps 12 0 ++ steps 44 1 ++ steps 6 0) s s' Hrun Hem Hrun').
Defined.

(** The worker of device 1 has been started and makes its first step. *)
Example worker_schedule_runs :
  (λ s, length (threads s))
    <$> run (steps 9 0 ++ [Run 1%nat]) (init host_attach)
  = Some 2%nat.
Proof. vm_compute. reflexivity. Qed.

Lemma workers_leave_v8_alone_witness :
  ∃ s s', run (steps 9 0) (init host_attach) = Some s ∧
          step (Run 1%nat) s = Some s' ∧
          v8_events (trace (globals s')) = v8_events (trace (globals s)).
Proof.
  pose proof worker_schedule_runs as Hseen.
  rewrite run_app in Hseen.
  destruct (run (steps 9 0) (init host_attach)) as [s|] eqn:Hrun;
    cbn [mbind option_bind] in Hseen; [|discriminate Hseen].
  change (run [Run 1%nat] s)
    with (match step (Run 1%nat) s with Some s => Some s | None => None end)
    in Hseen.
  destruct (step (Run 1%nat) s) as [s'|] eqn:Hstep; [|discriminate Hseen].
  exists s, s'. split; [reflexivity|]. split; [exact Hstep|].
  exact (proj1 (workers_leave_v8_alone host_attach (steps 9 0) 1%nat s s'
                  Hrun ltac:(discriminate) Hstep)).
Defined.

End Schedules.

(* ===================================================================== *)
(** * Part XIII: the two mutexes                                          *)
(* ===================================================================== *)

Section Deadlock.
Context `{MobileDevice}.

(** A part [p] of a thread's program that runs to its end is a run of
    the scheduler in which only this thread moves, up to what follows
    [p]. *)
Lemma eval_is_a_run t p rest : ∀ (s s' : Sys) q,
  threads s !! t = Some (Running q) →
  eval t p s = Some (s', None) →
  ∃ n, run (replicate n (Run t)) (set_thread t (Running (p ;; rest)) s)
       = Some (set_thread t (Running rest) s').
Proof.
  induction p as [|e|A f k IH|c k IH|h key k IH|h key k IH|op k IH|p' _ k IH];
    intros s s' q Ht Heval.
  - exists 0%nat. simpl in *. by inversion Heval.
  - done.
  - simpl in Heval. destruct (f (globals s)) as [a g] eqn:Hf.
    destruct (IH a (set_globals g s) s' q Ht Heval) as [n Hn].
    exists (S n). simpl.
    rewrite list_lookup_insert_eq by (by eapply lookup_lt_Some).
    simpl. rewrite Hf.
    change (set_globals g (set_thread t ?th s))
      with (set_thread t th (set_globals g s)).
    by rewrite set_thread_twice.
  - simpl in Heval.
    match type of Heval with eval t _ ?s0 = _ =>
      destruct (IH _ s0 s' q Ht Heval) as [n Hn] end.
    exists (S n). simpl.
    rewrite list_lookup_insert_eq by (by eapply lookup_lt_Some).
    simpl.
    change (set_globals ?g (set_thread t ?th s))
      with (set_thread t th (set_globals g s)).
    by rewrite set_thread_twice.
  - simpl in Heval.
    match type of Heval with eval t _ ?s0 = _ =>
      destruct (IH _ s0 s' q Ht Heval) as [n Hn] end.
    exists (S n). simpl.
    rewrite list_lookup_insert_eq by (by eapply lookup_lt_Some).
    simpl.
    change (set_globals ?g (set_thread t ?th s))
      with (set_thread t th (set_globals g s)).
    by rewrite set_thread_twice.
  - simpl in Heval.
    match type of Heval with eval t _ ?s0 = _ =>
      destruct (IH _ s0 s' q Ht Heval) as [n Hn] end.
    exists (S n). simpl.
    rewrite list_lookup_insert_eq by (by eapply lookup_lt_Some).
    simpl.
    change (set_globals ?g (set_thread t ?th s))
      with (set_thread t th (set_globals g s)).
    by rewrite set_thread_twice.
  - simpl in Heval. destruct (sync_step t op s) as [s1|] eqn:Hs; [|done].
    destruct (sync_step_set_thread t op s s1 (Sync op (k ;; rest)) q Ht Hs)
      as [Hs' Ht1].
    destruct (IH s1 s' q Ht1 Heval) as [n Hn].
    exists (S n). simpl.
    rewrite list_lookup_insert_eq by (by eapply lookup_lt_Some).
    assert (op ≠ wait_pending) as Hop by (by intros ->).
    assert (instr_step t (Sync op (k ;; rest))
              (set_thread t (Running (Sync op (k ;; rest))) s)
            = Some (Running (k ;; rest),
                    set_thread t (Running (Sync op (k ;; rest))) s1)) as ->.
    { destruct op; try done; unfold instr_step; by rewrite Hs'. }
    by rewrite set_thread_twice.
  - simpl in Heval.
    assert (Ht' : (threads s ++ [Running p']) !! t = Some (Running q))
      by (by apply lookup_app_l_Some).
    destruct (IH (set_threads (threads s ++ [Running p']) s) s' q Ht' Heval)
      as [n Hn].
    exists (S n). simpl.
    rewrite list_lookup_insert_eq by (by eapply lookup_lt_Some).
    simpl.
    assert (set_thread t (Running (k ;; rest))
              (set_threads
                 (<[t:=Running (Spawn p' (k ;; rest))]> (threads s)
                  ++ [Running p'])
                 (set_thread t (Running (Spawn p' (k ;; rest))) s))
            = set_thread t (Running (k ;; rest))
                (set_threads (threads s ++ [Running p']) s)) as ->; [|done].
    unfold set_thread, set_threads. simpl. f_equal.
    rewrite insert_app_l by (rewrite length_insert; by eapply lookup_lt_Some).
    by rewrite list_insert_insert_eq, <- insert_app_l
      by (by eapply lookup_lt_Some).
Qed.

Lemma step_Run_worker m p g sc up ex pm :
  step (Run 1) (mkSys g sc up ex pm [m; Running p])
  = match instr_step 1 p (mkSys g sc up ex pm [m; Running p]) with
    | Some (th, s) => Some (set_thread 1 th s)
    | None => None
    end.
Proof. done. Qed.

Ltac run_main :=
  rewrite step_Run_main;
  cbn [instr_step sync_step is_free held_by Nat.eqb Nat.pred globals
       shared_count upgrade exclusive pendingMutex threads];
  unfold set_thread, set_threads, set_globals;
  cbn [globals shared_count upgrade exclusive pendingMutex threads];
  change (<[0%nat:=?th]> (?x :: ?l)) with (th :: l).

Ltac run_worker :=
  rewrite step_Run_worker;
  cbn [instr_step sync_step is_free held_by Nat.eqb Nat.pred globals
       shared_count upgrade exclusive pendingMutex threads andb];
  unfold set_thread, set_threads, set_globals;
  cbn [globals shared_count upgrade exclusive pendingMutex threads];
  change (<[1%nat:=?th]> [?x; ?y]) with [x; th].

(** X20.  [devices] can block for ever.  The host calls [devices] while
    a worker is pending; the main thread waits in [pendingCond.wait], the
    worker takes the exclusive lock on [deviceMutex], and the condition
    variable wakes the main thread up without a notification.  The main
    thread then holds [pendingMutex] and asks for the shared lock on
    [deviceMutex]; the worker fetches its information, holds
    [deviceMutex] and asks for [pendingMutex].  Neither thread can make a
    step any more, whatever the library answers. *)
Theorem devices_deadlocks_after_spurious_wakeup (g : Globals)
    (device : ptr) :
  0 < pendingEvents g →
  ∃ n s' k,
    run (steps 3 0 ++ steps 2 1 ++ [Spurious 0%nat; Run 0%nat] ++ steps n 1)
      (mkSys g 0 None None None
         [Running devices; Running (getDeviceInfo device)])
    = Some s' ∧
    threads s' = [Running (Sync lock_shared k); Running release_barrier] ∧
    pendingMutex s' = Some 0%nat ∧
    exclusive s' = Some 1%nat ∧
    ∀ a, step a s' = None.
Proof.
  intros Hpos. apply Z.ltb_lt in Hpos.
  assert (∃ k p, run (steps 3 0 ++ steps 2 1 ++ [Spurious 0%nat; Run 0%nat])
                 (mkSys g 0 None None None
                    [Running devices; Running (getDeviceInfo device)])
               = Some (mkSys g 0 None (Some 1%nat) (Some 0%nat)
                         [Running (Sync lock_shared k); Running p]) ∧
               ∃ g2, run (steps 2 1)
                       (mkSys g 0 None (Some 1%nat) (Some 0%nat)
                          [Running (Sync lock_shared k); Running p])
                     = Some (mkSys g2 0 None (Some 1%nat) (Some 0%nat)
                               [Running (Sync lock_shared k);
                                Running (try_catch (fetch_info device)
                                           (λ _, Ret) ;;
                                         disconnect device false ;;
                                         release_barrier)]))
    as (k & p & Hpre & g2 & Hstart).
  { eexists _, _. split.
    - unfold steps. cbn [replicate app run]. unfold devices.
      run_main. unfold Get at 1. run_main. rewrite Hpos. cbn [seq].
      run_main. unfold getDeviceInfo. run_worker. run_worker.
      rewrite step_Spurious_main. run_main. reflexivity.
    - eexists. unfold steps. cbn [replicate run].
      unfold Upd. run_worker. run_worker. reflexivity. }
  set (M := Running (Sync lock_shared k)) in *.
  set (s2 := mkSys g2 0 None (Some 1%nat) (Some 0%nat) [M; Running Ret]).
  destruct (eval_fetch_info 1 device s2) as (g3 & Hfetch & _).
  destruct (eval_is_a_run 1 _ (disconnect device false ;; release_barrier)
              s2 _ Ret eq_refl Hfetch) as [n1 Hn1].
  set (s3 := set_globals g3 s2) in *.
  destruct (eval_is_a_run 1 _ release_barrier
              (set_thread 1 (Running (disconnect device false ;;
                                      release_barrier)) s3)
              _ (disconnect device false ;; release_barrier) eq_refl
              (eval_disconnect 1 device _)) as [n2 Hn2].
  rewrite set_thread_twice in Hn2.
  eexists (2 + (n1 + n2))%nat, _, k.
  split.
  { rewrite !app_assoc, run_app, <- !app_assoc, Hpre.
    cbn [mbind option_bind]. unfold steps.
    rewrite replicate_add, run_app. fold (steps 2 1). rewrite Hstart.
    cbn [mbind option_bind]. rewrite replicate_add, run_app.
    change (mkSys g2 0 None (Some 1%nat) (Some 0%nat) [M; Running ?q])
      with (set_thread 1 (Running q) s2).
    rewrite Hn1. cbn [mbind option_bind]. exact Hn2. }
  split; [reflexivity|]. split; [reflexivity|]. split; [reflexivity|].
  intros [[|[|t]]|[|[|t]]]; reflexivity.
Qed.

End Deadlock.

Section Deadlock_of_the_sample.
#[local] Existing Instance sample_ok.

(** In the sample the worker of device 1 is pending when the host calls
    [devices]. *)
Lemma devices_deadlocks_after_spurious_wakeup_witness :
  ∃ n s',
    run (steps 3 0 ++ steps 2 1 ++ [Spurious 0%nat; Run 0%nat] ++ steps n 1)
      devices_state = Some s' ∧
    step (Run 0) s' = None ∧ step (Run 1) s' = None.
Proof.
  destruct (devices_deadlocks_after_spurious_wakeup (H := sample_ok)
              pending_globals 1%nat ltac:(done))
    as (n & s' & k & Hrun & _ & _ & _ & Hstuck).
  exists n, s'. split; [exact Hrun|].
  split; [apply (Hstuck (Run 0))|apply (Hstuck (Run 1%nat))].
Defined.

End Deadlock_of_the_sample.

(* ===================================================================== *)
(** * Part XIV: from the attachment to the list of devices                *)
(* ===================================================================== *)

Section Listing.
Context `{MobileDevice}.

(** X21.  A device that is attached is listed.  With a library that
    starts the session and whose answers do not depend on what has
    happened before: when the notification of a device that is not
    registered arrives while nothing is pending and no lock is held, and
    its worker has run to its end, the device is registered, nothing is
    pending, the flag is set, and [devices] returns at once an array
    with one entry more, in which the device has its ["udid"] and every
    property that it has answered. *)
Theorem attached_device_is_listed (dev : am_device)
    (answers : string → option string) (host : Z) (s : Sys) :
  codes_distinct → session_starts dev →
  (∀ tr id, am_string tr dev id = answers id) →
  (∀ tr, am_number tr dev "HostAttached" = host) →
  quiescent s →
  pendingEvents (globals s) ≤ 0 →
  let id := AMDeviceCopyDeviceIdentifier dev in
  connectedDevices (globals s) !! id = None →
  ∃ s1 s2 arr m,
    deliver (dev, ADNCI_MSG_CONNECTED) s = Some s1 ∧
    dom (connectedDevices (globals s1))
    = dom (connectedDevices (globals s)) ∪ {[id]} ∧
    pendingEvents (globals s1) = 0 ∧
    devicesChanged (globals s1) = true ∧
    exec 0 devices s1 = Some s2 ∧
    outcomes (trace (globals s2))
    = outcomes (trace (globals s1)) ++ [returned_array arr] ∧
    length arr = S (size (connectedDevices (globals s))) ∧
    m ∈ arr ∧
    m !! "udid"%string = Some id ∧
    ∀ key k value, (key, k) ∈ enrichment → answers k = Some value →
                   m !! key = Some value.
Proof.
  intros Hcodes Hok Hans Hhost (Hsc & Hup & Hex & Hpm) Hpe id Hreg.
  destruct s as [g sc up ex pm ths].
  cbn in Hsc, Hup, Hex, Hpm, Hpe, Hreg. subst.
  cbn [globals].
  unfold deliver. cbn [fst snd threads].
  rewrite exec_on_attach by done.
  cbn [mbind option_bind threads]. rewrite drop_app_length.
  set (p := next_ptr g). set (ga := attached_globals dev g).
  set (ths' := ths ++ [Running (getDeviceInfo p)]).
  destruct (attached_globals_frame dev g) as (Hheap_a & Hreg_a & Hpe_a).
  fold ga p in Hheap_a, Hreg_a, Hpe_a.
  destruct (exec_getDeviceInfo (length ths) p ga ths')
    as (g1 & Hev & _ & Hexec).
  destruct (worker_start_globals_frame p (Device_new dev) ga Hheap_a)
    as (Hh0 & _ & Hpe0 & Hch0 & Hreg0).
  rewrite Device_new_udid, Hreg_a in Hreg0. fold id in Hreg0.
  unfold CFDictionaryContainsKey in Hreg0. rewrite Hreg in Hreg0.
  assert (Hd0 : heap (globals (mkSys (worker_start_globals p ga) 0 None
                                 (Some (length ths)) None ths')) !! p
                = Some (Device_new dev)).
  { cbn [globals]. by rewrite Hh0. }
  destruct (eval_fetch_info_ok (length ths) p (Device_new dev) answers host _
              Hcodes Hok Hans Hhost Hd0 ltac:(done))
    as (G & HevG & HdG & _ & HregG & HpeG & HchG & _).
  rewrite eval_try_catch, HevG in Hev. unfold set_globals in Hev.
  cbn [globals shared_count upgrade exclusive pendingMutex threads] in Hev.
  injection Hev as ->.
  cbn [globals] in HregG, HpeG, HchG.
  destruct (disconnected_globals_frame p _ g1 HdG)
    as (Hreg2 & Hpe2 & Hch2 & Hheap2 & _).
  destruct (barrier_globals_frame (disconnected_globals p g1))
    as (Hreg3 & Hheap3 & _ & Hch3 & Hpe3).
  set (g3 := barrier_globals (disconnected_globals p g1)) in *.
  assert (Hpe' : pendingEvents g3 = 0).
  { rewrite Hpe3, Hpe2, HpeG, Hpe0, Hpe_a.
    rewrite Z.max_l by done. reflexivity. }
  assert (Hreg' : connectedDevices g3 = <[id := p]> (connectedDevices g)).
  { by rewrite Hreg3, Hreg2, HregG, Hreg0. }
  rewrite Hexec. cbv zeta. fold g3. cbn [fmap option_fmap option_map].
  unfold set_thread, set_threads.
  cbn [globals shared_count upgrade exclusive pendingMutex threads].
  set (ths1 := <[length ths := Running Ret]> _).
  set (g4 := debug "Found %d device%s"
               [arg_d (Z.of_nat (size (connectedDevices g3)));
                arg_s (if (size (connectedDevices g3) =? 1)%nat
                       then "" else "s")] g3).
  destruct (frame_debug "Found %d device%s"
              [arg_d (Z.of_nat (size (connectedDevices g3)));
               arg_s (if (size (connectedDevices g3) =? 1)%nat
                      then "" else "s")] g3) as (Hreg4 & _ & _ & Hheap4 & _).
  fold g4 in Hreg4, Hheap4.
  set (d3 := set_connected _ (set_hostConnected _ _)) in Hheap2.
  exists (mkSys g3 0 None None None ths1),
    (mkSys (observe (EvOutcome (returned_array (snapshot g3))) g4)
       0 None None None ths1),
    (snapshot g3), (props d3).
  split; [reflexivity|]. cbn [globals].
  split; [by rewrite Hreg', dom_insert_L, union_comm_L|].
  split; [exact Hpe'|].
  split; [by rewrite Hch3, Hch2, HchG|].
  split.
  { rewrite exec_devices_idle by lia. cbv zeta. fold g4.
    by rewrite (snapshot_frame g3 g4). }
  split.
  { change (trace (observe ?e g4)) with (trace g4 ++ [e]).
    rewrite outcomes_app. unfold g4. by rewrite outcomes_debug. }
  split.
  { unfold snapshot. rewrite length_map, length_map_to_list, Hreg'.
    by rewrite map_size_insert_None. }
  split.
  { unfold snapshot. apply list_elem_of_In, in_map_iff.
    exists (id, p). cbn [snd]. split.
    - unfold deref. by rewrite Hheap3, Hheap2.
    - apply list_elem_of_In, elem_of_map_to_list.
      rewrite Hreg'. apply lookup_insert_eq. }
  cbn [d3 props set_connected set_hostConnected set_props Device_new].
  split.
  { unfold enrich. rewrite store_lookup by apply NoDup_enrichment.
    vm_compute list_find. fold id. apply lookup_singleton_eq. }
  intros key k value. apply enrich_lookup.
Qed.

End Listing.

(** Device 1 of the sample answers its name. *)
Lemma attached_device_is_listed_witness :
  ∃ s1 s2 arr m,
    deliver (H := sample_ok) (1%nat, 1) (init (H := sample_ok) [])
    = Some s1 ∧
    exec (H := sample_ok) 0 devices s1 = Some s2 ∧
    outcomes (trace (globals s2))
    = outcomes (trace (globals s1)) ++ [returned_array arr] ∧
    m ∈ arr ∧
    m !! "udid"%string = Some "A"%string ∧
    m !! "name"%string = Some "phone"%string.
Proof.
  destruct (attached_device_is_listed (H := sample_ok) 1%nat
              (λ key, if String.eqb key "DeviceName"
                      then Some "phone"%string else None) 1
              (init (H := sample_ok) [])
              codes_distinct_sample_ok (session_starts_sample_ok _)
              ltac:(done) ltac:(done) (quiescent_init _)
              ltac:(cbn; lia) eq_refl)
    as (s1 & s2 & arr & m & Hd & _ & _ & _ & He & Hout & _ & Hin & Hudid
        & Hkey).
  exists s1, s2, arr, m. split; [exact Hd|]. split; [exact He|].
  split; [exact Hout|]. split; [exact Hin|]. split; [exact Hudid|].
  apply (Hkey _ "DeviceName"%string); [|reflexivity].
  apply elem_of_cons. by left.
Defined.
